(** * playtime.formula: the pipeline algebra and the cross-product transformer

    A shallow embedding of [src/playtime/formula.py]:

    - [CrossPolyPipeline] ([__init__], [fit], [transform]), the transformer
      that multiplies the column blocks of a feature union pairwise;
    - [PlaytimePipeline] ([__init__], [__add__], [__mul__], [__or__], [fit],
      [transform], [fit_transform]), the operator-built pipeline value.

    Python objects have an identity and mutable fitted attributes.  An object
    is modelled by its construction-time structure, tagged with its identity
    ([loc]); the fitted attributes of all objects live in one shared store
    indexed by identity, so that two occurrences of the same identity are the
    same object and see each other's [fit].  Exceptions are outcomes of a
    state-and-exception monad in which the store survives a raise, as it does
    in Python. *)

From stdpp Require Import gmap strings list pretty.

Set Default Proof Using "Type".

(** ** Exceptions and outcomes *)

Inductive exn : Type :=
| AttributeError
| UnboundLocalError
| ValueError
| IndexError
| KeyError
| NotFittedError.

Inductive outcome (A : Type) : Type :=
| Ok (a : A)
| Raise (e : exn).
Arguments Ok {A} a.
Arguments Raise {A} e.

(** ** Plain data: slices, insertion-ordered dictionaries, combinations *)

(** [slice(start, stop)] *)
Record slice : Type := Slice { start : nat; stop : nat }.

Definition slice_width (s : slice) : nat := stop s - start s.

(** A Python [dict] with string keys: insertion-ordered, a key assigned again
    keeps its position and takes the new value. *)
Fixpoint dict_set {V} (d : list (string * V)) (k : string) (v : V)
  : list (string * V) :=
  match d with
  | [] => [(k, v)]
  | (k', v') :: d' =>
      if String.eqb k k' then (k', v) :: d' else (k', v') :: dict_set d' k v
  end.

Fixpoint dict_get {V} (d : list (string * V)) (k : string) : option V :=
  match d with
  | [] => None
  | (k', v') :: d' => if String.eqb k k' then Some v' else dict_get d' k
  end.

Definition dict_keys {V} (d : list (string * V)) : list string := d.*1.
Definition dict_values {V} (d : list (string * V)) : list V := d.*2.

(** [itertools.combinations(l, 2)]: the pairs of positions [i < j], in
    lexicographic order of the positions. *)
Fixpoint combinations2 {A} (l : list A) : list (A * A) :=
  match l with
  | [] => []
  | x :: t => map (pair x) t ++ combinations2 t
  end.

(** Consecutive slices of the given widths, from [lo] on. *)
Fixpoint layout (lo : nat) (ws : list nat) : list slice :=
  match ws with
  | [] => []
  | w :: ws' => Slice lo (lo + w) :: layout (w + lo) ws'
  end.

(** The slices [l], in order, tile [[lo, hi)]: the first starts at [lo], each
    next one starts where the one before it stops, the last stops at [hi]. *)
Fixpoint tiles (l : list slice) (lo hi : nat) : Prop :=
  match l with
  | [] => lo = hi
  | s :: l' => start s = lo ∧ start s ≤ stop s ∧ tiles l' (stop s) hi
  end.

(** The sum over all pairs [i < j] of [w_i * w_j]. *)
Definition pairwise_width (ws : list nat) : nat :=
  sum_list (map (λ p, p.1 * p.2) (combinations2 ws)).

(** ** Feature matrices *)

Inductive sparse_format : Type := CSR | CSC | COO.

Inductive storage : Type :=
| Dense
| Sparse (f : sparse_format).

Definition storage_issparse (s : storage) : bool :=
  match s with Dense => false | Sparse _ => true end.

Section Matrices.
(** The entries, their product, and the dtype tags are those of numpy and
    scipy; nothing below depends on what they are. *)
Context {elt dtype : Type}.
Variable mul : elt → elt → elt.
(** numpy's result type of stacking two dtypes, and its default dtype. *)
Variable promote : dtype → dtype → dtype.
Variable float64 : dtype.

(** A two-dimensional array, dense or sparse, stored by columns:
    [shape = (nrows, length columns)]. *)
Record matrix : Type := Matrix {
  repr : storage;
  dtype_of : dtype;
  nrows : nat;
  columns : list (list elt)
}.

Definition ncols (M : matrix) : nat := length (columns M).
Definition issparse (M : matrix) : bool := storage_issparse (repr M).

(** [csc_array(M)] *)
Definition csc_array (M : matrix) : matrix :=
  Matrix (Sparse CSC) (dtype_of M) (nrows M) (columns M).

(** [M.tocsc()], [M.tocsr()] *)
Definition tocsc (M : matrix) : matrix := csc_array M.
Definition tocsr (M : matrix) : matrix :=
  Matrix (Sparse CSR) (dtype_of M) (nrows M) (columns M).

(** [M[:2]]: the first two rows. *)
Definition head2 (M : matrix) : matrix :=
  Matrix (repr M) (dtype_of M) (Nat.min 2 (nrows M)) (take 2 <$> columns M).

(** [M[:, s]] for a slice [s] with non-negative bounds: clipped to the
    columns that exist; the representation is kept. *)
Definition getitem_slice (M : matrix) (s : slice) : matrix :=
  Matrix (repr M) (dtype_of M) (nrows M)
         (take (stop s - start s) (drop (start s) (columns M))).

(** [M[:, [x]]]: an index list selects columns, and raises out of range. *)
Definition getitem_col (M : matrix) (x : nat) : outcome matrix :=
  match columns M !! x with
  | Some c => Ok (Matrix (repr M) (dtype_of M) (nrows M) [c])
  | None => Raise IndexError
  end.

(** [A * B], the element-wise product with broadcasting along the columns:
    a one-column operand is multiplied into every column of the other;
    otherwise the widths must agree.  The sparse product comes back in a
    format of scipy's choosing, which only [tocsc] later fixes. *)
Definition multiply_columns (A B : list (list elt)) : outcome (list (list elt)) :=
  match B with
  | [b] => Ok ((λ a, zip_with mul a b) <$> A)
  | _ =>
      match A with
      | [a] => Ok ((λ b, zip_with mul a b) <$> B)
      | _ =>
          if decide (length A = length B)
          then Ok (zip_with (zip_with mul) A B)
          else Raise ValueError
      end
  end.

Definition multiply (A B : matrix) : outcome matrix :=
  match multiply_columns (columns A) (columns B) with
  | Ok cs =>
      Ok (Matrix (if issparse A then Sparse CSR else Dense)
                 (promote (dtype_of A) (dtype_of B)) (nrows A) cs)
  | Raise e => Raise e
  end.

(** Horizontal stacking needs at least one block, and blocks of equal
    height. *)
Definition same_height (Ms : list matrix) : bool :=
  match Ms with
  | [] => true
  | M :: Ms' => forallb (λ M', Nat.eqb (nrows M') (nrows M)) Ms'
  end.

Definition stacked_columns (Ms : list matrix) : list (list elt) :=
  concat (columns <$> Ms).

(** [np.hstack(Ms, dtype=d)] *)
Definition np_hstack (Ms : list matrix) (d : dtype) : outcome matrix :=
  match Ms with
  | [] => Raise ValueError
  | M :: _ =>
      if same_height Ms
      then Ok (Matrix Dense d (nrows M) (stacked_columns Ms))
      else Raise ValueError
  end.

(** [scipy.sparse.hstack(Ms, dtype=d)]: a COO array. *)
Definition sparse_hstack (Ms : list matrix) (d : dtype) : outcome matrix :=
  match Ms with
  | [] => Raise ValueError
  | M :: _ =>
      if same_height Ms
      then Ok (Matrix (Sparse COO) d (nrows M) (stacked_columns Ms))
      else Raise ValueError
  end.

(** The dtype numpy gives a stack when none is asked for. *)
Definition common_dtype (Ms : list matrix) : dtype :=
  match Ms with
  | [] => float64
  | M :: Ms' => foldl (λ d M', promote d (dtype_of M')) (dtype_of M) Ms'
  end.
(** *** Vocabulary for statements about the cross-product *)

(** The columns of [X] that a split mark designates. *)
Definition block (X : matrix) (s : slice) : list (list elt) :=
  take (stop s - start s) (drop (start s) (columns X)).

(** The products of one pair of blocks, in order: for each column of the
    second block in turn, the whole first block multiplied by it. *)
Definition pair_columns (A B : list (list elt)) : list (list elt) :=
  concat (map (λ b, map (λ a, zip_with mul a b) A) B).

(** The products of every pair of blocks, pair after pair in the order of
    [combinations2]. *)
Definition all_pairs_columns (X : matrix) (marks : list slice)
  : list (list elt) :=
  concat (map (λ p, pair_columns (block X p.1) (block X p.2))
              (combinations2 marks)).

End Matrices.

Arguments matrix : clear implicits.

(** ** The state-and-exception monad

    A computation takes the state of the interpreter (the allocator and the
    store of fitted attributes) and ends either normally or by raising; either
    way it leaves a state behind. *)
Section Monad.
Context {state : Type}.

Definition M (A : Type) : Type := state → outcome A * state.

Definition ret {A} (a : A) : M A := λ st, (Ok a, st).
Definition raise {A} (e : exn) : M A := λ st, (Raise e, st).

Definition bind {A B} (c : M A) (k : A → M B) : M B :=
  λ st, match c st with
        | (Ok a, st') => k a st'
        | (Raise e, st') => (Raise e, st')
        end.

Definition lift {A} (o : outcome A) : M A := λ st, (o, st).

Section MapM.
Context {A B : Type}.
Variable f : A → M B.
Fixpoint mapM (l : list A) : M (list B) :=
  match l with
  | [] => ret []
  | a :: l' => bind (f a) (λ b, bind (mapM l') (λ bs, ret (b :: bs)))
  end.
Fixpoint forM_ (l : list A) : M unit :=
  match l with
  | [] => ret tt
  | a :: l' => bind (f a) (λ _, forM_ l')
  end.
End MapM.
End Monad.

Arguments M : clear implicits.

Notation "'do' x <- c ; k" := (bind c (λ x, k))
  (at level 10, x name, c at level 100, k at level 200,
   format "'[v' 'do'  x  <-  c ; '/' k ']'").
Notation "c ;; k" := (bind c (λ _, k))
  (at level 100, k at level 200, right associativity).

(** ** Objects, identities and the shared store *)

(** The identity of a Python object. *)
Definition loc : Type := nat.

(** [sklearn.pipeline._name_estimators]: every estimator is named by its
    lower-cased class name; a name borne by several gets the suffix [-k] at
    its [k]-th occurrence. *)
Definition occurrences (n : string) (l : list string) : nat :=
  length (filter (λ m, m = n) l).

Definition name_estimators (names : list string) : list string :=
  imap (λ i n,
          if decide (2 ≤ occurrences n names)
          then n +:+ "-" +:+ pretty (occurrences n (take (S i) names))
          else n)
       names.

Section Objects.
Context {elt dtype params : Type}.
Variable mul : elt → elt → elt.
Variable promote : dtype → dtype → dtype.
Variable float64 : dtype.

Abbreviation mat := (matrix elt dtype).

(** An object by its construction-time structure.  [Leaf] is any estimator
    of the framework that this module only calls: its class name (lower
    case), its hyper-parameters.  [Pipeline] and [FeatureUnion] are the
    framework's containers; the last two are the classes of this module.
    [CrossPolyPipeline.transformer_list] is the very list of its
    [union_estimator], and is read through it. *)
Inductive est : Type :=
| Leaf (id : loc) (cls : string) (hp : params)
| Pipeline (id : loc) (steps : list (string * est))
| FeatureUnion (id : loc) (transformer_list : list (string * est))
| CrossPolyPipeline (id : loc) (union_estimator : est)
| PlaytimePipeline (id : loc) (pipeline : est).

Definition id_of (e : est) : loc :=
  match e with
  | Leaf l _ _ | Pipeline l _ | FeatureUnion l _
  | CrossPolyPipeline l _ | PlaytimePipeline l _ => l
  end.

(** [type(e).__name__.lower()] *)
Definition class_name (e : est) : string :=
  match e with
  | Leaf _ cls _ => cls
  | Pipeline _ _ => "pipeline"
  | FeatureUnion _ _ => "featureunion"
  | CrossPolyPipeline _ _ => "crosspolypipeline"
  | PlaytimePipeline _ _ => "playtimepipeline"
  end.

(** [isinstance(e, C)] for the three classes the module tests for. *)
Definition is_FeatureUnion (e : est) : bool :=
  match e with FeatureUnion _ _ => true | _ => false end.
Definition is_Pipeline (e : est) : bool :=
  match e with Pipeline _ _ => true | _ => false end.
Definition is_CrossPolyPipeline (e : est) : bool :=
  match e with CrossPolyPipeline _ _ => true | _ => false end.

(** Every identity in the object graph below (and including) [e]. *)
Fixpoint est_ids (e : est) : list loc :=
  match e with
  | Leaf l _ _ => [l]
  | Pipeline l steps => l :: concat (map (λ s, est_ids s.2) steps)
  | FeatureUnion l tl => l :: concat (map (λ s, est_ids s.2) tl)
  | CrossPolyPipeline l u => l :: est_ids u
  | PlaytimePipeline l p => l :: est_ids p
  end.

(** The structure of an object with the identities forgotten: two objects
    with the same skeleton are of the same class, with the same parameters
    all the way down. *)
Fixpoint skeleton (e : est) : est :=
  match e with
  | Leaf _ cls hp => Leaf 0 cls hp
  | Pipeline _ steps => Pipeline 0 (map (λ s, (s.1, skeleton s.2)) steps)
  | FeatureUnion _ tl => FeatureUnion 0 (map (λ s, (s.1, skeleton s.2)) tl)
  | CrossPolyPipeline _ u => CrossPolyPipeline 0 (skeleton u)
  | PlaytimePipeline _ p => PlaytimePipeline 0 (skeleton p)
  end.

(** [hasattr(e, "transformer_list")] *)
Fixpoint has_transformer_list (e : est) : bool :=
  match e with
  | FeatureUnion _ _ => true
  | CrossPolyPipeline _ u => has_transformer_list u
  | _ => false
  end.

(** The objects that constructors can have built: [CrossPolyPipeline.__init__]
    raises on an argument without a [transformer_list], so no
    [CrossPolyPipeline] exists around one. *)
Fixpoint constructible (e : est) : bool :=
  match e with
  | Leaf _ _ _ => true
  | Pipeline _ steps => forallb (λ s, constructible s.2) steps
  | FeatureUnion _ tl => forallb (λ s, constructible s.2) tl
  | CrossPolyPipeline _ u => has_transformer_list u && constructible u
  | PlaytimePipeline _ p => constructible p
  end.

(** The fitted attributes of one object.  [fitted_on] stands for whatever a
    framework estimator learns in [fit]: it is determined by the data it was
    fitted on.  The other two are [CrossPolyPipeline]'s. *)
Record attrs : Type := Attrs {
  fitted_on : option mat;
  split_marks_ : option (list (string * slice));
  shape_out_ : option nat
}.

Definition no_attrs : attrs := Attrs None None None.

Record state : Type := State {
  next_id : loc;
  store : gmap loc attrs
}.

Definition attrs_of (st : state) (l : loc) : attrs :=
  default no_attrs (store st !! l).

Abbreviation M := (M state).

(** Object creation: a fresh identity. *)
Definition fresh : M loc :=
  λ st, (Ok (next_id st), State (S (next_id st)) (store st)).

Definition getattrs (l : loc) : M attrs := λ st, (Ok (attrs_of st l), st).

Definition setattrs (l : loc) (f : attrs → attrs) : M unit :=
  λ st, (Ok tt, State (next_id st) (<[l := f (attrs_of st l)]> (store st))).

(** *** Attribute reads that can fail *)

(** [e.pipeline] *)
Definition getattr_pipeline (e : est) : M est :=
  match e with
  | PlaytimePipeline _ p => ret p
  | _ => raise AttributeError
  end.

(** [e.transformer_list] *)
Fixpoint getattr_transformer_list (e : est) : M (list (string * est)) :=
  match e with
  | FeatureUnion _ tl => ret tl
  | CrossPolyPipeline _ u => getattr_transformer_list u
  | _ => raise AttributeError
  end.

(** *** Constructors *)

(** What [__mul__] hands to [CrossPolyPipeline]: an object or a plain list. *)
Inductive pyval : Type :=
| VObj (e : est)
| VList (es : list est).

(** [CrossPolyPipeline.__init__]: keeps [union_estimator] and reads its
    [transformer_list]; a plain list has no such attribute. *)
Definition CrossPolyPipeline__init__ (union_estimator : pyval) : M est :=
  do self <- fresh;
  match union_estimator with
  | VObj u => getattr_transformer_list u ;; ret (CrossPolyPipeline self u)
  | VList _ => raise AttributeError
  end.

(** [PlaytimePipeline.__init__] *)
Definition PlaytimePipeline__init__ (pipeline : est) : M est :=
  do self <- fresh; ret (PlaytimePipeline self pipeline).

(** [sklearn.base.clone]: a new, unfitted object of the same class,
    constructed from clones of the parameters (containers element by
    element). *)
Fixpoint clone (e : est) : M est :=
  match e with
  | Leaf _ cls hp => do l <- fresh; ret (Leaf l cls hp)
  | Pipeline _ steps =>
      do steps' <- mapM (λ s, do e' <- clone s.2; ret (s.1, e')) steps;
      do l <- fresh; ret (Pipeline l steps')
  | FeatureUnion _ tl =>
      do tl' <- mapM (λ s, do e' <- clone s.2; ret (s.1, e')) tl;
      do l <- fresh; ret (FeatureUnion l tl')
  | CrossPolyPipeline _ u =>
      do u' <- clone u; CrossPolyPipeline__init__ (VObj u')
  | PlaytimePipeline _ p =>
      do p' <- clone p; PlaytimePipeline__init__ p'
  end.

Definition named (es : list est) : list (string * est) :=
  zip (name_estimators (class_name <$> es)) es.

(** [make_union(es...)] *)
Definition make_union (es : list est) : M est :=
  do l <- fresh; ret (FeatureUnion l (named es)).

(** [make_pipeline(es...)] *)
Definition make_pipeline (es : list est) : M est :=
  do l <- fresh; ret (Pipeline l (named es)).

(** ** The pipeline algebra *)

(** [PlaytimePipeline.__add__] *)
Definition PlaytimePipeline__add__ (self other : est) : M est :=
  do self_pipeline <- getattr_pipeline self;
  do new_pipeline <-
    (if is_FeatureUnion self_pipeline then
       do tl <- getattr_transformer_list self_pipeline;
       let old_transformers := tl.*2 in
       do other_pipeline <- getattr_pipeline other;
       do c <- clone other_pipeline;
       let new_transformers := old_transformers ++ [c] in
       make_union new_transformers
     else
       do other_pipeline <- getattr_pipeline other;
       make_union [self_pipeline; other_pipeline]);
  PlaytimePipeline__init__ new_pipeline.

(** The branch of [__mul__] that binds [unioned_feats], if any does. *)
Inductive mul_case : Type :=
| BothPlain          (* neither operand is a CrossPolyPipeline *)
| OtherWrapsUnion    (* other.pipeline is a FeatureUnion *)
| SelfWrapsPipeline  (* self.pipeline is a Pipeline or a FeatureUnion *)
| NoBranch.          (* no branch taken: unioned_feats stays unbound *)

Definition mul_branch (self other : est) : M mul_case :=
  if negb (is_CrossPolyPipeline self) && negb (is_CrossPolyPipeline other)
  then ret BothPlain
  else
    do other_pipeline <- getattr_pipeline other;
    if is_FeatureUnion other_pipeline then ret OtherWrapsUnion
    else
      do self_pipeline <- getattr_pipeline self;
      if is_Pipeline self_pipeline || is_FeatureUnion self_pipeline
      then ret SelfWrapsPipeline
      else ret NoBranch.

(** [PlaytimePipeline.__mul__] *)
Definition PlaytimePipeline__mul__ (self other : est) : M est :=
  do branch <- mul_branch self other;
  do unioned_feats <-
    match branch with
    | BothPlain =>
        do sum <- PlaytimePipeline__add__ self other;
        do p <- getattr_pipeline sum; ret (VObj p)
    | OtherWrapsUnion =>
        do self_pipeline <- getattr_pipeline self;
        do tl <- getattr_transformer_list self_pipeline;
        let old_transformers := tl.*2 in
        do other_pipeline <- getattr_pipeline other;
        do c <- clone other_pipeline;
        ret (VList (old_transformers ++ [c]))
    | SelfWrapsPipeline =>
        do other_pipeline <- getattr_pipeline other;
        do tl <- getattr_transformer_list other_pipeline;
        let old_transformers := tl.*2 in
        do self_pipeline <- getattr_pipeline self;
        do c <- clone self_pipeline;
        ret (VList (old_transformers ++ [c]))
    | NoBranch => raise UnboundLocalError
    end;
  do cross <- CrossPolyPipeline__init__ unioned_feats;
  PlaytimePipeline__init__ cross.

(** [PlaytimePipeline.__or__] *)
Definition PlaytimePipeline__or__ (self other : est) : M est :=
  do self_pipeline <- getattr_pipeline self;
  do c <- clone self_pipeline;
  do chain <- make_pipeline [c; other];
  PlaytimePipeline__init__ chain.

(** *** Vocabulary for statements about the algebra *)

(** The named transformers an operand stands for when unions are flattened:
    the members of a union, or the operand's pipeline as a single member. *)
Definition flattened (p : est) : list est :=
  match p with
  | FeatureUnion _ tl => tl.*2
  | _ => [p]
  end.

(** The transformers a cross-product node multiplies. *)
Definition product_members (r : est) : option (list est) :=
  match r with
  | PlaytimePipeline _ (CrossPolyPipeline _ (FeatureUnion _ tl)) => Some tl.*2
  | _ => None
  end.

(** The reading of [*] under which a union on either side is flattened:
    the product multiplies the members of both operands. *)
Definition mul_flattens_both_sides (a b : est) (st : state) : Prop :=
  ∃ pa pb r st' ms,
    getattr_pipeline a st = (Ok pa, st) ∧
    getattr_pipeline b st = (Ok pb, st) ∧
    PlaytimePipeline__mul__ a b st = (Ok r, st') ∧
    product_members r = Some ms ∧
    skeleton <$> ms = skeleton <$> (flattened pa ++ flattened pb).

(** ** Calling objects: fit, transform, fit_transform *)

(** What a framework estimator computes once fitted: its output on [X], from
    its class, its hyper-parameters and the data it was fitted on. *)
Variable leaf_transform : string → params → mat → mat → mat.

(** The view of an object that callers use: its three bound methods, and its
    [transformer_list] as far as [CrossPolyPipeline.fit] looks into it (each
    member's name and bound [transform]).  The target [y] is passed along by
    the framework and plays no part in this module; it is left out. *)
Record methods : Type := Methods {
  m_fit : mat → M unit;
  m_transform : mat → M mat;
  m_fit_transform : mat → M mat;
  m_transformer_list : outcome (list (string * (mat → M mat)))
}.

(** *** Framework estimators *)

Definition Leaf_fit (self : loc) (X : mat) : M unit :=
  setattrs self (λ a, Attrs (Some X) (split_marks_ a) (shape_out_ a)).

Definition Leaf_transform (self : loc) (cls : string) (hp : params) (X : mat)
  : M mat :=
  do a <- getattrs self;
  match fitted_on a with
  | Some X_fit => ret (leaf_transform cls hp X_fit X)
  | None => raise NotFittedError
  end.

Definition Leaf_methods (self : loc) (cls : string) (hp : params) : methods :=
  Methods (Leaf_fit self)
          (Leaf_transform self cls hp)
          (λ X, Leaf_fit self X ;; Leaf_transform self cls hp X)
          (Raise AttributeError).

(** *** [sklearn.pipeline.Pipeline]: every step but the last is fitted and
    applied, and the last is fitted on (or applied to) what comes out. *)

Fixpoint Pipeline_fit (steps : list methods) (X : mat) : M unit :=
  match steps with
  | [] => raise ValueError
  | [last] => m_fit last X
  | step :: steps' =>
      do Xt <- m_fit_transform step X; Pipeline_fit steps' Xt
  end.

Fixpoint Pipeline_transform (steps : list methods) (X : mat) : M mat :=
  match steps with
  | [] => ret X
  | step :: steps' =>
      do Xt <- m_transform step X; Pipeline_transform steps' Xt
  end.

Fixpoint Pipeline_fit_transform (steps : list methods) (X : mat) : M mat :=
  match steps with
  | [] => raise ValueError
  | [last] => m_fit_transform last X
  | step :: steps' =>
      do Xt <- m_fit_transform step X; Pipeline_fit_transform steps' Xt
  end.

Definition Pipeline_methods (steps : list methods) : methods :=
  Methods (Pipeline_fit steps)
          (Pipeline_transform steps)
          (Pipeline_fit_transform steps)
          (Raise AttributeError).

(** *** [sklearn.pipeline.FeatureUnion]: the members are fitted in place, in
    order, each on the same input; their outputs are stacked side by side,
    sparse (CSR) as soon as one of them is sparse. *)

Definition FeatureUnion_hstack (X : mat) (Xs : list mat) : outcome mat :=
  match Xs with
  | [] => Ok (Matrix Dense float64 (nrows X) [])
  | _ =>
      if existsb issparse Xs
      then match sparse_hstack Xs (common_dtype promote float64 Xs) with
           | Ok R => Ok (tocsr R)
           | Raise e => Raise e
           end
      else np_hstack Xs (common_dtype promote float64 Xs)
  end.

Definition FeatureUnion_fit (tl : list (string * methods)) (X : mat) : M unit :=
  forM_ (λ t, m_fit t.2 X) tl.

Definition FeatureUnion_transform (tl : list (string * methods)) (X : mat)
  : M mat :=
  do Xs <- mapM (λ t, m_transform t.2 X) tl;
  lift (FeatureUnion_hstack X Xs).

Definition FeatureUnion_fit_transform (tl : list (string * methods)) (X : mat)
  : M mat :=
  do Xs <- mapM (λ t, m_fit_transform t.2 X) tl;
  lift (FeatureUnion_hstack X Xs).

Definition FeatureUnion_methods (tl : list (string * methods)) : methods :=
  Methods (FeatureUnion_fit tl)
          (FeatureUnion_transform tl)
          (FeatureUnion_fit_transform tl)
          (Ok (map (λ t, (t.1, m_transform t.2)) tl)).

(** *** [CrossPolyPipeline] *)

(** [self.split_marks_] *)
Definition getattr_split_marks_ (self : loc) : M (list (string * slice)) :=
  do a <- getattrs self;
  match split_marks_ a with
  | Some d => ret d
  | None => raise AttributeError
  end.

(** [self.split_marks_ = d] and [self.shape_out_ = n] *)
Definition setattr_split_marks_ (self : loc) (d : list (string * slice))
  : M unit :=
  setattrs self (λ a, Attrs (fitted_on a) (Some d) (shape_out_ a)).

Definition setattr_shape_out_ (self : loc) (n : nat) : M unit :=
  setattrs self (λ a, Attrs (fitted_on a) (split_marks_ a) (Some n)).

(** The loop of [fit] over [union_estimator.transformer_list], from the
    running [start]; its value is the final [start]. *)
Fixpoint fit_loop (self : loc) (X : mat)
    (tl : list (string * (mat → M mat))) (start : nat) : M nat :=
  match tl with
  | [] => ret start
  | (name, tfm_transform) :: tl' =>
      do Xp <- tfm_transform (head2 X);
      let width := ncols Xp in
      do d <- getattr_split_marks_ self;
      setattr_split_marks_ self (dict_set d name (Slice start (start + width))) ;;
      let start := width + start in
      fit_loop self X tl' start
  end.

(** [CrossPolyPipeline.fit] *)
Definition CrossPolyPipeline_fit (self : loc) (union_estimator : methods)
    (X : mat) : M unit :=
  setattr_split_marks_ self [] ;;
  let start := 0 in
  m_fit union_estimator X ;;
  do tl <- lift (m_transformer_list union_estimator);
  do start <- fit_loop self X tl start;
  setattr_shape_out_ self start.

(** The loop of [transform] over the pairs of names: each turn rebinds
    [X1, X2]; its value is the last binding, if there was a turn. *)
Fixpoint pairs_loop (split_marks : list (string * slice)) (X_tfm : mat)
    (pairs : list (string * string)) (X1X2 : option (mat * mat))
  : outcome (option (mat * mat)) :=
  match pairs with
  | [] => Ok X1X2
  | (name1, name2) :: pairs' =>
      match dict_get split_marks name1, dict_get split_marks name2 with
      | Some s1, Some s2 =>
          pairs_loop split_marks X_tfm pairs'
            (Some (getitem_slice X_tfm s1, getitem_slice X_tfm s2))
      | _, _ => Raise KeyError
      end
  end.

(** The loop of [transform] over the columns of [X2], which runs once, after
    the loop over the pairs has ended. *)
Fixpoint columns_loop (X1 X2 : mat) (xs : list nat) (columns : list mat)
  : outcome (list mat) :=
  match xs with
  | [] => Ok columns
  | x :: xs' =>
      match getitem_col X2 x with
      | Ok c =>
          match multiply mul promote X1 c with
          | Ok batch => columns_loop X1 X2 xs' (columns ++ [batch])
          | Raise e => Raise e
          end
      | Raise e => Raise e
      end
  end.

(** [transform] from the union's output on. *)
Definition cross_product (split_marks : list (string * slice)) (X_tfm : mat)
  : outcome mat :=
  let columns := [] in
  let X_tfm := if issparse X_tfm then csc_array X_tfm else X_tfm in
  match pairs_loop split_marks X_tfm
          (combinations2 (dict_keys split_marks)) None with
  | Ok (Some (X1, X2)) =>
      match columns_loop X1 X2 (seq 0 (ncols X2)) columns with
      | Ok columns =>
          if issparse X_tfm
          then match sparse_hstack columns (dtype_of X_tfm) with
               | Ok R => Ok (tocsc R)
               | Raise e => Raise e
               end
          else np_hstack columns (dtype_of X_tfm)
      | Raise e => Raise e
      end
  | Ok None => Raise UnboundLocalError
  | Raise e => Raise e
  end.

(** [CrossPolyPipeline.transform] *)
Definition CrossPolyPipeline_transform (self : loc) (union_estimator : methods)
    (X : mat) : M mat :=
  do X_tfm <- m_transform union_estimator X;
  do split_marks <- getattr_split_marks_ self;
  lift (cross_product split_marks X_tfm).

Definition CrossPolyPipeline_methods (self : loc) (union_estimator : methods)
  : methods :=
  Methods (CrossPolyPipeline_fit self union_estimator)
          (CrossPolyPipeline_transform self union_estimator)
          (λ X, CrossPolyPipeline_fit self union_estimator X ;;
                CrossPolyPipeline_transform self union_estimator X)
          (m_transformer_list union_estimator).

(** *** [PlaytimePipeline.fit], [.transform], [.fit_transform] *)

Definition PlaytimePipeline_fit (pipeline : methods) (X : mat) : M unit :=
  m_fit pipeline X.

Definition PlaytimePipeline_transform (pipeline : methods) (X : mat) : M mat :=
  m_transform pipeline X.

Definition PlaytimePipeline_fit_transform (pipeline : methods) (X : mat)
  : M mat :=
  m_fit_transform pipeline X.

Definition PlaytimePipeline_methods (pipeline : methods) : methods :=
  Methods (PlaytimePipeline_fit pipeline)
          (PlaytimePipeline_transform pipeline)
          (PlaytimePipeline_fit_transform pipeline)
          (Raise AttributeError).

(** *** Method resolution *)

Fixpoint methods_of (e : est) : methods :=
  match e with
  | Leaf l cls hp => Leaf_methods l cls hp
  | Pipeline _ steps => Pipeline_methods (map (λ s, methods_of s.2) steps)
  | FeatureUnion _ tl =>
      FeatureUnion_methods (map (λ s, (s.1, methods_of s.2)) tl)
  | CrossPolyPipeline l u => CrossPolyPipeline_methods l (methods_of u)
  | PlaytimePipeline _ p => PlaytimePipeline_methods (methods_of p)
  end.

(** [e.fit(X)], [e.transform(X)], [e.fit_transform(X)] *)
Definition fit (e : est) (X : mat) : M unit := m_fit (methods_of e) X.
Definition transform (e : est) (X : mat) : M mat := m_transform (methods_of e) X.
Definition fit_transform (e : est) (X : mat) : M mat :=
  m_fit_transform (methods_of e) X.

(** *** Vocabulary for statements about fitting *)

(** The layout a union gets: the attributes of a cross-product tracker
    made around it and fitted on [X]. *)
Definition fitted_layout (u : est) (X : mat) : M attrs :=
  do cross <- CrossPolyPipeline__init__ (VObj u);
  fit cross X ;;
  getattrs (id_of cross).

(** The union that [(a + b) + c] builds, and the one made in one go from the
    three wrapped transformers. *)
Definition layout_of_sum (a b c : est) (X : mat) : M attrs :=
  do ab <- PlaytimePipeline__add__ a b;
  do abc <- PlaytimePipeline__add__ ab c;
  do u <- getattr_pipeline abc;
  fitted_layout u X.

Definition layout_of_list (a b c : est) (X : mat) : M attrs :=
  do pa <- getattr_pipeline a;
  do pb <- getattr_pipeline b;
  do pc <- getattr_pipeline c;
  do u <- make_union [pa; pb; pc];
  fitted_layout u X.

(** What is compared of two layouts: the split marks and the total, or the
    exception raised on the way. *)
Definition layout_outcome (o : outcome attrs)
  : outcome (option (list (string * slice)) * option nat) :=
  match o with
  | Ok r => Ok (split_marks_ r, shape_out_ r)
  | Raise e => Raise e
  end.

(** The output width of a single framework transformer fitted on [X], as
    [fit] measures it on the probe [X[:2]]. *)
Definition probe_width (X : mat) (e : est) : nat :=
  match e with
  | Leaf _ cls hp => ncols (leaf_transform cls hp X (head2 X))
  | _ => 0
  end.

Definition is_Leaf (e : est) : bool :=
  match e with Leaf _ _ _ => true | _ => false end.

(** The reading of an operator [op] under which fitting [op a b] fits copies
    only: no attribute of an object of [a] or [b] changes. *)
Definition leaves_operands_unfitted (op : est → est → M est) (a b : est)
    (X : mat) (st : state) : Prop :=
  ∀ c st1, op a b st = (Ok c, st1) →
  ∀ l, l ∈ est_ids a ++ est_ids b →
       attrs_of (fit c X st1).2 l = attrs_of st l.
End Objects.

(** ** The feature factories

    [seasonal], [feats], [onehot] and [bag_of_words] each construct one or
    two framework transformers, chain them with [make_pipeline], and wrap
    the chain.  What the constructors are given (a function and its keyword
    arguments, column names, a number of knots, the vectorizer's keyword
    arguments) ends up in the hyper-parameters of the new objects; how it is
    encoded there is left open. *)

Section Factories.
Context {elt dtype params kwargs : Type}.
Variable FunctionTransformer_params : string → string → params.
Variable SplineTransformer_params : nat → params.
Variable SelectCols_params : list string → params.
Variable OneHotEncoder_params : params.
Variable CountVectorizer_params : kwargs → params.

(** A call of a framework class: a new, unfitted estimator. *)
Definition new_estimator (cls : string) (hp : params)
  : M (@state elt dtype) (@est params) :=
  do l <- fresh; ret (Leaf l cls hp).

(** [seasonal(colname, n_knots=12)] *)
Definition seasonal (colname : string) (n_knots : option nat)
  : M (@state elt dtype) (@est params) :=
  let n_knots := default 12 n_knots in
  do f <- new_estimator "functiontransformer"
            (FunctionTransformer_params "datetime_feats" colname);
  do s <- new_estimator "splinetransformer" (SplineTransformer_params n_knots);
  do pipeline <- make_pipeline [f; s];
  PlaytimePipeline__init__ pipeline.

(** [feats(colnames...)] *)
Definition feats (colnames : list string)
  : M (@state elt dtype) (@est params) :=
  do s <- new_estimator "selectcols" (SelectCols_params colnames);
  do pipeline <- make_pipeline [s];
  PlaytimePipeline__init__ pipeline.

(** [onehot(colnames...)] *)
Definition onehot (colnames : list string)
  : M (@state elt dtype) (@est params) :=
  do s <- new_estimator "selectcols" (SelectCols_params colnames);
  do o <- new_estimator "onehotencoder" OneHotEncoder_params;
  do pipeline <- make_pipeline [s; o];
  PlaytimePipeline__init__ pipeline.

(** [bag_of_words(colname, **kwargs)] *)
Definition bag_of_words (colname : string) (kw : kwargs)
  : M (@state elt dtype) (@est params) :=
  do f <- new_estimator "functiontransformer"
            (FunctionTransformer_params "column_pluck" colname);
  do c <- new_estimator "countvectorizer" (CountVectorizer_params kw);
  do pipeline <- make_pipeline [f; c];
  PlaytimePipeline__init__ pipeline.

(** *** Vocabulary for statements about the factories *)

(** A call of one of the four factories, and what it runs. *)
Inductive factory_call : Type :=
| Seasonal (colname : string) (n_knots : option nat)
| Feats (colnames : list string)
| Onehot (colnames : list string)
| BagOfWords (colname : string) (kw : kwargs).

Definition call (c : factory_call) : M (@state elt dtype) (@est params) :=
  match c with
  | Seasonal colname n_knots => seasonal colname n_knots
  | Feats colnames => feats colnames
  | Onehot colnames => onehot colnames
  | BagOfWords colname kw => bag_of_words colname kw
  end.

(** The steps of the chain a call builds: class and hyper-parameters. *)
Definition steps_of (c : factory_call) : list (string * params) :=
  match c with
  | Seasonal colname n_knots =>
      [("functiontransformer",
        FunctionTransformer_params "datetime_feats" colname);
       ("splinetransformer", SplineTransformer_params (default 12 n_knots))]
  | Feats colnames => [("selectcols", SelectCols_params colnames)]
  | Onehot colnames =>
      [("selectcols", SelectCols_params colnames);
       ("onehotencoder", OneHotEncoder_params)]
  | BagOfWords colname kw =>
      [("functiontransformer",
        FunctionTransformer_params "column_pluck" colname);
       ("countvectorizer", CountVectorizer_params kw)]
  end.

End Factories.

(** ** A concrete instance, for running the definitions

    Integer entries, one dtype tag, and framework transformers that select
    columns of their input: the hyper-parameter is the list of the selected
    column positions. *)
Module Example.
Local Open Scope Z_scope.

Abbreviation mat := (matrix Z unit).
Abbreviation est := (@est (list nat)).
Abbreviation state := (@state Z unit).

Definition promote (_ _ : unit) : unit := tt.
Definition float64 : unit := tt.

Definition select_cols (cls : string) (hp : list nat) (X_fit X : mat) : mat :=
  Matrix (repr X) (dtype_of X) (nrows X) (omap (λ i, columns X !! i) hp).

Definition fit : est → mat → M state unit :=
  fit Z.mul promote float64 select_cols.
Definition transform : est → mat → M state mat :=
  transform Z.mul promote float64 select_cols.
Definition fit_transform : est → mat → M state mat :=
  fit_transform Z.mul promote float64 select_cols.

(** Three pipeline values over single transformers of widths 1, 2 and 2, a
    union-wrapping value, a 3-row input, and a state in which the objects
    [0..9] exist and none is fitted. *)
Definition A : est := PlaytimePipeline 0%nat (Leaf 1%nat "selectcols" [0%nat]).
Definition B : est :=
  PlaytimePipeline 2%nat (Leaf 3%nat "selectcols" [1%nat; 2%nat]).
Definition C : est :=
  PlaytimePipeline 4%nat (Leaf 5%nat "onehotencoder" [0%nat; 2%nat]).
Definition U : est :=
  PlaytimePipeline 6%nat
    (FeatureUnion 7%nat [("selectcols", Leaf 8%nat "selectcols" [1%nat]);
                         ("onehotencoder", Leaf 9%nat "onehotencoder" [2%nat])]).

Definition X0 : mat := Matrix Dense tt 3%nat [[1; 2; 3]; [4; 5; 6]; [7; 8; 9]].
Definition X0_sparse : mat := Matrix (Sparse CSR) tt 3%nat (columns X0).

Definition st0 : state := State 10%nat ∅.

(** [(A + B) * C]: a product over three blocks, of widths 1, 2 and 2. *)
Definition build3 : M state est :=
  do ab <- PlaytimePipeline__add__ A B; PlaytimePipeline__mul__ ab C.

Definition union3 : est :=
  FeatureUnion 13%nat
    [("selectcols-1", Leaf 1%nat "selectcols" [0%nat]);
     ("selectcols-2", Leaf 3%nat "selectcols" [1%nat; 2%nat]);
     ("onehotencoder", Leaf 12%nat "onehotencoder" [0%nat; 2%nat])].
Definition cross3 : est := CrossPolyPipeline 15%nat union3.
Definition product3 : est := PlaytimePipeline 16%nat cross3.

(** The state once [product3] is built and fitted on [X0]; what its union
    then makes of [X0]; the split marks recorded. *)
Definition st3 : state := (fit product3 X0 (build3 st0).2).2.
Definition X_tfm3 : mat :=
  Matrix Dense tt 3%nat [[1; 2; 3]; [4; 5; 6]; [7; 8; 9]; [1; 2; 3]; [7; 8; 9]].
Definition marks3 : list (string * slice) :=
  [("selectcols-1", Slice 0 1); ("selectcols-2", Slice 1 3);
   ("onehotencoder", Slice 3 5)].
End Example.

(** * Properties *)

Section Theory.
Context {elt dtype params : Type}.
Variable mul : elt → elt → elt.
Variable promote : dtype → dtype → dtype.
Variable float64 : dtype.
Variable leaf_transform :
  string → params → matrix elt dtype → matrix elt dtype → matrix elt dtype.

Abbreviation mat := (matrix elt dtype).
Abbreviation est := (@est params).
Abbreviation state := (@state elt dtype).
Abbreviation methods := (@methods elt dtype).
Abbreviation methods_of := (methods_of mul promote float64 leaf_transform).
Abbreviation fit := (fit mul promote float64 leaf_transform).
Abbreviation transform := (transform mul promote float64 leaf_transform).
Abbreviation fit_transform :=
  (fit_transform mul promote float64 leaf_transform).
Abbreviation cross_product := (cross_product mul promote).
Abbreviation fitted_layout :=
  (fitted_layout mul promote float64 leaf_transform).
Abbreviation layout_of_sum :=
  (layout_of_sum mul promote float64 leaf_transform).
Abbreviation layout_of_list :=
  (layout_of_list mul promote float64 leaf_transform).
Abbreviation probe_width := (probe_width leaf_transform).

(** ** Induction over object graphs *)

Section est_induction.
Variable P : est → Prop.
Hypothesis HLeaf : ∀ l cls hp, P (Leaf l cls hp).
Hypothesis HPipeline : ∀ l steps, Forall (λ s, P s.2) steps → P (Pipeline l steps).
Hypothesis HFeatureUnion :
  ∀ l tl, Forall (λ s, P s.2) tl → P (FeatureUnion l tl).
Hypothesis HCross : ∀ l u, P u → P (CrossPolyPipeline l u).
Hypothesis HPlaytime : ∀ l p, P p → P (PlaytimePipeline l p).

Fixpoint est_ind' (e : est) : P e :=
  let members :=
    fix members (tl : list (string * est)) : Forall (λ s, P s.2) tl :=
      match tl with
      | [] => Forall_nil_2 _
      | s :: tl' => Forall_cons_2 _ _ _ (est_ind' s.2) (members tl')
      end in
  match e with
  | Leaf l cls hp => HLeaf l cls hp
  | Pipeline l steps => HPipeline l steps (members steps)
  | FeatureUnion l tl => HFeatureUnion l tl (members tl)
  | CrossPolyPipeline l u => HCross l u (est_ind' u)
  | PlaytimePipeline l p => HPlaytime l p (est_ind' p)
  end.
End est_induction.

(** ** Running computations *)

Lemma bind_Ok {S A B} (c : M S A) (k : A → M S B) st a st' :
  c st = (Ok a, st') → bind c k st = k a st'.
Proof. intros H. unfold bind. by rewrite H. Qed.

Lemma bind_Raise {S A B} (c : M S A) (k : A → M S B) st e st' :
  c st = (Raise e, st') → bind c k st = (Raise e, st').
Proof. intros H. unfold bind. by rewrite H. Qed.

Lemma bind_inv_Ok {S A B} (c : M S A) (k : A → M S B) st b st' :
  bind c k st = (Ok b, st') →
  ∃ a st1, c st = (Ok a, st1) ∧ k a st1 = (Ok b, st').
Proof.
  unfold bind. destruct (c st) as [[a|e] st1]; [eauto | discriminate].
Qed.

(** A computation that leaves the state as it found it. *)
Definition readonly {A} (c : M state A) : Prop := ∀ st, (c st).2 = st.

(** A computation that allocates nothing and writes the attributes of the
    objects in [S] only. *)
Definition agree_outside (S : list loc) (st st' : state) : Prop :=
  next_id st' = next_id st ∧ ∀ l, l ∉ S → store st' !! l = store st !! l.

Definition touches_only {A} (S : list loc) (c : M state A) : Prop :=
  ∀ st, agree_outside S st (c st).2.

Lemma agree_outside_refl S st : agree_outside S st st.
Proof. by split. Qed.

Lemma agree_outside_trans S st1 st2 st3 :
  agree_outside S st1 st2 → agree_outside S st2 st3 → agree_outside S st1 st3.
Proof.
  intros [Hn1 H1] [Hn2 H2]. split; [congruence|].
  intros l Hl. rewrite H2, H1; auto.
Qed.

Lemma agree_outside_mono S S' st st' :
  S ⊆ S' → agree_outside S st st' → agree_outside S' st st'.
Proof.
  intros HS [Hn H]. split; [done|]. intros l Hl. apply H.
  intros Hin. apply Hl, HS, Hin.
Qed.

Lemma readonly_touches {A} S (c : M state A) : readonly c → touches_only S c.
Proof. intros H st. rewrite H. apply agree_outside_refl. Qed.

Lemma readonly_ret {A} (a : A) : readonly (ret a).
Proof. done. Qed.

Lemma readonly_raise {A} e : readonly (@raise state A e).
Proof. done. Qed.

Lemma readonly_lift {A} (o : outcome A) : readonly (@lift state A o).
Proof. done. Qed.

Lemma readonly_bind {A B} (c : M state A) (k : A → M state B) :
  readonly c → (∀ a, readonly (k a)) → readonly (bind c k).
Proof.
  intros Hc Hk st. unfold bind. specialize (Hc st).
  destruct (c st) as [[a|e] st1]; simpl in *; subst; [apply Hk | done].
Qed.

Lemma touches_bind {A B} S (c : M state A) (k : A → M state B) :
  touches_only S c → (∀ a, touches_only S (k a)) → touches_only S (bind c k).
Proof.
  intros Hc Hk st. unfold bind. specialize (Hc st).
  destruct (c st) as [[a|e] st1]; simpl in *; [|done].
  eapply agree_outside_trans; [done | apply Hk].
Qed.

Lemma touches_mono {A} S S' (c : M state A) :
  S ⊆ S' → touches_only S c → touches_only S' c.
Proof. intros HS H st. eapply agree_outside_mono; [done | apply H]. Qed.

Lemma touches_setattrs l f S : l ∈ S → touches_only S (@setattrs elt dtype l f).
Proof.
  intros Hl st. split; [done|]. intros l' Hl'. simpl.
  apply lookup_insert_ne. intros ->. done.
Qed.

Lemma readonly_getattrs l : readonly (@getattrs elt dtype l).
Proof. done. Qed.

Lemma readonly_mapM {A B} (f : A → M state B) l :
  Forall (λ a, readonly (f a)) l → readonly (mapM f l).
Proof.
  induction 1 as [|a l Ha _ IH]; simpl; [done|].
  apply readonly_bind; [done|]. intros b.
  apply readonly_bind; [done|]. intros bs. done.
Qed.

Lemma touches_mapM {A B} S (f : A → M state B) l :
  Forall (λ a, touches_only S (f a)) l → touches_only S (mapM f l).
Proof.
  induction 1 as [|a l Ha _ IH]; simpl; [apply readonly_touches; done|].
  apply touches_bind; [done|]. intros b.
  apply touches_bind; [done|]. intros bs. apply readonly_touches. done.
Qed.

Lemma touches_forM_ {A B} S (f : A → M state B) l :
  Forall (λ a, touches_only S (f a)) l → touches_only S (forM_ f l).
Proof.
  induction 1 as [|a l Ha _ IH]; simpl; [apply readonly_touches; done|].
  apply touches_bind; [done|]. intros b. done.
Qed.
(** ** What calling an object can change

    [transform] never writes; [fit] and [fit_transform] allocate nothing and
    write the attributes of the objects of the graph they are called on, and
    of no other. *)

Definition well_behaved (S : list loc) (m : methods) : Prop :=
  (∀ X, touches_only S (m_fit m X)) ∧
  (∀ X, readonly (m_transform m X)) ∧
  (∀ X, touches_only S (m_fit_transform m X)) ∧
  (∀ tl, m_transformer_list m = Ok tl → Forall (λ t, ∀ X, readonly (t.2 X)) tl).

Local Ltac split_wb := split; [|split; [|split]].

Lemma well_behaved_mono S S' m :
  S ⊆ S' → well_behaved S m → well_behaved S' m.
Proof.
  intros HS (Hf & Ht & Hft & Htl). split_wb; try done.
  - intros X. eapply touches_mono; [done | apply Hf].
  - intros X. eapply touches_mono; [done | apply Hft].
Qed.

Lemma readonly_Leaf_transform l cls hp X :
  readonly (Leaf_transform leaf_transform l cls hp X).
Proof.
  apply readonly_bind; [apply readonly_getattrs|].
  intros a. by destruct (fitted_on a).
Qed.

Lemma Leaf_well_behaved l cls hp :
  well_behaved [l] (Leaf_methods leaf_transform l cls hp).
Proof.
  split_wb; simpl.
  - intros X. apply touches_setattrs. by left.
  - intros X. apply readonly_Leaf_transform.
  - intros X. apply touches_bind; [apply touches_setattrs; by left|].
    intros _. apply readonly_touches, readonly_Leaf_transform.
  - discriminate.
Qed.

Lemma Pipeline_well_behaved S steps :
  Forall (well_behaved S) steps → well_behaved S (Pipeline_methods steps).
Proof.
  intros Hsteps. split_wb; simpl; [| | |discriminate].
  - induction Hsteps as [|m ms Hm Hms IH]; intros X; simpl.
    + by apply readonly_touches.
    + destruct ms as [|m' ms']; [apply Hm|].
      apply touches_bind; [apply Hm | intros Xt; apply IH].
  - induction Hsteps as [|m ms Hm Hms IH]; intros X; simpl; [done|].
    apply readonly_bind; [apply Hm | intros Xt; apply IH].
  - induction Hsteps as [|m ms Hm Hms IH]; intros X; simpl.
    + by apply readonly_touches.
    + destruct ms as [|m' ms']; [apply Hm|].
      apply touches_bind; [apply Hm | intros Xt; apply IH].
Qed.

Lemma FeatureUnion_well_behaved S (tl : list (string * methods)) :
  Forall (λ t, well_behaved S t.2) tl → well_behaved S (FeatureUnion_methods promote float64 tl).
Proof.
  intros Htl. split_wb; simpl.
  - intros X. apply touches_forM_.
    eapply Forall_impl; [done|]. intros t Ht. apply Ht.
  - intros X. apply readonly_bind; [|intros Xs; apply readonly_lift].
    apply readonly_mapM. eapply Forall_impl; [done|]. intros t Ht. apply Ht.
  - intros X. apply touches_bind; [|intros Xs; apply readonly_touches, readonly_lift].
    apply touches_mapM. eapply Forall_impl; [done|]. intros t Ht. apply Ht.
  - intros tl' [= <-]. apply Forall_fmap.
    eapply Forall_impl; [done|]. intros t Ht X. apply Ht.
Qed.

Lemma readonly_getattr_split_marks_ l :
  readonly (@getattr_split_marks_ elt dtype l).
Proof.
  apply readonly_bind; [apply readonly_getattrs|].
  intros a. by destruct (split_marks_ a).
Qed.

Lemma touches_fit_loop self X (tl : list (string * (mat → M state mat))) start0 :
  Forall (λ t, ∀ X, readonly (t.2 X)) tl →
  touches_only [self] (fit_loop self X tl start0).
Proof.
  intros Htl. revert start0.
  induction Htl as [|[name tfm] tl Ht _ IH]; intros start0; simpl.
  - by apply readonly_touches.
  - apply touches_bind; [apply readonly_touches, Ht|]. intros Xp.
    apply touches_bind; [apply readonly_touches, readonly_getattr_split_marks_|].
    intros d. apply touches_bind; [apply touches_setattrs; by left|].
    intros _. apply IH.
Qed.

Lemma readonly_CrossPolyPipeline_transform self (u : methods) X :
  (∀ X, readonly (m_transform u X)) →
  readonly (CrossPolyPipeline_transform mul promote self u X).
Proof.
  intros Hu. apply readonly_bind; [apply Hu|]. intros X_tfm.
  apply readonly_bind; [apply readonly_getattr_split_marks_|].
  intros sm. apply readonly_lift.
Qed.

Lemma touches_CrossPolyPipeline_fit S self (u : methods) X :
  self ∈ S → well_behaved S u →
  touches_only S (CrossPolyPipeline_fit self u X).
Proof.
  intros Hself (Hf & Ht & Hft & Htl).
  assert (Hsub : [self] ⊆ S) by (intros l ->%list_elem_of_singleton; done).
  apply touches_bind; [by apply touches_setattrs|]. intros _.
  apply touches_bind; [apply Hf|]. intros _.
  unfold lift, bind at 1. intros st.
  destruct (m_transformer_list u) as [tl|e] eqn:Etl; [|apply agree_outside_refl].
  revert st. change (touches_only S (
    do start <- fit_loop self X tl 0; setattr_shape_out_ self start)).
  apply touches_bind.
  - eapply touches_mono; [done|]. apply touches_fit_loop. by apply Htl.
  - intros n. by apply touches_setattrs.
Qed.

Lemma CrossPolyPipeline_well_behaved S self (u : methods) :
  self ∈ S → well_behaved S u →
  well_behaved S (CrossPolyPipeline_methods mul promote self u).
Proof.
  intros Hself Hu. split_wb; simpl.
  - intros X. by apply touches_CrossPolyPipeline_fit.
  - intros X. apply readonly_CrossPolyPipeline_transform, Hu.
  - intros X. apply touches_bind; [by apply touches_CrossPolyPipeline_fit|].
    intros _. apply readonly_touches, readonly_CrossPolyPipeline_transform, Hu.
  - apply Hu.
Qed.

Lemma PlaytimePipeline_well_behaved S (p : methods) :
  well_behaved S p → well_behaved S (PlaytimePipeline_methods p).
Proof.
  intros (Hf & Ht & Hft & Htl). split_wb; simpl; try done.
Qed.

Lemma members_ids_subseteq (l : loc) (tl : list (string * est)) s :
  s ∈ tl → est_ids s.2 ⊆ l :: concat (map (λ s, est_ids s.2) tl).
Proof.
  intros Hs x Hx. right. apply list_elem_of_In, in_concat.
  exists (est_ids s.2). split; [|by apply list_elem_of_In].
  apply in_map_iff. exists s. split; [done | by apply list_elem_of_In].
Qed.

Lemma methods_of_well_behaved e : well_behaved (est_ids e) (methods_of e).
Proof.
  induction e as [l cls hp|l steps IH|l tl IH|l u IH|l p IH] using est_ind'.
  - apply Leaf_well_behaved.
  - apply Pipeline_well_behaved. apply Forall_fmap, Forall_forall.
    intros s Hs. rewrite Forall_forall in IH.
    eapply well_behaved_mono; [by apply members_ids_subseteq | by apply IH].
  - apply FeatureUnion_well_behaved. apply Forall_fmap, Forall_forall.
    intros s Hs. rewrite Forall_forall in IH.
    eapply well_behaved_mono; [by apply members_ids_subseteq | by apply IH].
  - apply CrossPolyPipeline_well_behaved; [by left|].
    eapply well_behaved_mono; [|done]. intros x Hx. by right.
  - apply PlaytimePipeline_well_behaved.
    eapply well_behaved_mono; [|done]. intros x Hx. by right.
Qed.

(** [e.transform(X)] changes nothing. *)
Lemma transform_readonly e X st : (transform e X st).2 = st.
Proof. apply methods_of_well_behaved. Qed.

(** [e.fit(X)] writes inside the graph of [e] only, whatever its outcome. *)
Lemma fit_frame e X st : agree_outside (est_ids e) st (fit e X st).2.
Proof. apply methods_of_well_behaved. Qed.

Lemma fit_transform_frame e X st :
  agree_outside (est_ids e) st (fit_transform e X st).2.
Proof. apply methods_of_well_behaved. Qed.
(** ** Cloning *)

(** [e'] in [st'] is a clone of [e] taken in [st]: same skeleton, identities
    that did not exist in [st], no attribute written. *)
Definition cloned (e : est) (st : state) (e' : est) (st' : state) : Prop :=
  store st' = store st ∧
  next_id st ≤ next_id st' ∧
  skeleton e' = skeleton e ∧
  constructible e' = true ∧
  ∀ l, l ∈ est_ids e' → next_id st ≤ l < next_id st'.

Lemma has_transformer_list_skeleton (e : est) :
  has_transformer_list (skeleton e) = has_transformer_list e.
Proof. induction e using est_ind'; simpl; auto. Qed.

Lemma getattr_transformer_list_Ok (e : est) (st : state) :
  has_transformer_list e = true →
  ∃ tl, getattr_transformer_list e st = (Ok tl, st).
Proof. induction e using est_ind'; simpl; try discriminate; eauto. Qed.

Lemma getattr_transformer_list_readonly (e : est) :
  readonly (getattr_transformer_list e).
Proof. induction e using est_ind'; simpl; try done. Qed.

Local Ltac split5 := split; [|split; [|split; [|split]]].

Lemma clone_members (tl : list (string * est)) :
  Forall (λ s, constructible s.2 = true →
               ∀ st, ∃ e' st', clone s.2 st = (Ok e', st') ∧ cloned s.2 st e' st') tl →
  forallb (λ s, constructible s.2) tl = true →
  ∀ st : state, ∃ tl' st',
    mapM (λ s, do e' <- clone s.2; ret (s.1, e')) tl st = (Ok tl', st') ∧
    store st' = store st ∧
    next_id st ≤ next_id st' ∧
    map (λ s, (s.1, skeleton s.2)) tl' = map (λ s, (s.1, skeleton s.2)) tl ∧
    forallb (λ s, constructible s.2) tl' = true ∧
    ∀ l, l ∈ concat (map (λ s, est_ids s.2) tl') → next_id st ≤ l < next_id st'.
Proof.
  induction 1 as [|[n e] tl He _ IH]; intros Hc st; simpl in *.
  - exists [], st. split; [done|]. split5; try done.
    intros l Hl. by apply elem_of_nil in Hl.
  - apply andb_prop in Hc as [Hce Hctl].
    destruct (He Hce st) as (e' & st1 & Hclone & Hst & Hn & Hsk & Hc' & Hids).
    destruct (IH Hctl st1) as (tl' & st2 & Hm & Hst2 & Hn2 & Hsk2 & Hc2 & Hids2).
    exists ((n, e') :: tl'), st2. split.
    { erewrite bind_Ok; [|erewrite bind_Ok; [reflexivity|exact Hclone]].
      erewrite bind_Ok; [reflexivity|exact Hm]. }
    split5.
    + congruence.
    + lia.
    + simpl. congruence.
    + simpl. by rewrite Hc', Hc2.
    + intros l. simpl. rewrite elem_of_app. intros [Hl|Hl].
      * apply Hids in Hl. lia.
      * apply Hids2 in Hl. lia.
Qed.

Lemma clone_cloned (e : est) :
  constructible e = true →
  ∀ st : state, ∃ e' st', clone e st = (Ok e', st') ∧ cloned e st e' st'.
Proof.
  induction e as [l cls hp|l steps IH|l tl IH|l u IH|l p IH] using est_ind';
    intros Hc st; simpl in Hc.
  - exists (Leaf (next_id st) cls hp), (State (S (next_id st)) (store st)).
    split; [done|]. split5; simpl; try done; try lia.
    intros l' ->%list_elem_of_singleton. lia.
  - destruct (clone_members steps IH Hc st)
      as (tl' & st1 & Hm & Hst & Hn & Hsk & Hc' & Hids).
    exists (Pipeline (next_id st1) tl'), (State (S (next_id st1)) (store st1)).
    split; [simpl; erewrite bind_Ok; [reflexivity|exact Hm]|].
    split5; simpl; try done; try lia; try congruence.
    intros l' [->|Hl]%elem_of_cons; [lia|apply Hids in Hl; lia].
  - destruct (clone_members tl IH Hc st)
      as (tl' & st1 & Hm & Hst & Hn & Hsk & Hc' & Hids).
    exists (FeatureUnion (next_id st1) tl'), (State (S (next_id st1)) (store st1)).
    split; [simpl; erewrite bind_Ok; [reflexivity|exact Hm]|].
    split5; simpl; try done; try lia; try congruence.
    intros l' [->|Hl]%elem_of_cons; [lia|apply Hids in Hl; lia].
  - apply andb_prop in Hc as [Htl Hc].
    destruct (IH Hc st) as (u' & st1 & Hclone & Hst & Hn & Hsk & Hc' & Hids).
    assert (Htl' : has_transformer_list u' = true).
    { by rewrite <- has_transformer_list_skeleton, Hsk, has_transformer_list_skeleton. }
    exists (CrossPolyPipeline (next_id st1) u'),
           (State (S (next_id st1)) (store st1)).
    split.
    { simpl. erewrite bind_Ok; [|exact Hclone].
      destruct (getattr_transformer_list_Ok u'
                  (State (S (next_id st1)) (store st1)) Htl') as [tl Hget].
      unfold CrossPolyPipeline__init__.
      erewrite bind_Ok; [|reflexivity].
      erewrite bind_Ok; [reflexivity|exact Hget]. }
    split5; simpl; try done; try lia; try congruence.
    + by rewrite Htl', Hc'.
    + intros l' [->|Hl]%elem_of_cons; [lia|apply Hids in Hl; lia].
  - destruct (IH Hc st) as (p' & st1 & Hclone & Hst & Hn & Hsk & Hc' & Hids).
    exists (PlaytimePipeline (next_id st1) p'),
           (State (S (next_id st1)) (store st1)).
    split; [simpl; erewrite bind_Ok; [reflexivity|exact Hclone]|].
    split5; simpl; try done; try lia; try congruence.
    intros l' [->|Hl]%elem_of_cons; [lia|apply Hids in Hl; lia].
Qed.
(** ** The pipeline algebra *)

#[local] Arguments named : simpl never.

Lemma length_name_estimators names :
  length (name_estimators names) = length names.
Proof. apply length_imap. Qed.

Lemma named_snd (es : list est) : (named es).*2 = es.
Proof.
  apply snd_zip. by rewrite length_name_estimators, length_fmap.
Qed.

Lemma named_constructible (es : list est) :
  forallb (λ s, constructible s.2) (named es) = forallb constructible es.
Proof.
  rewrite <- (named_snd es) at 2. generalize (named es).
  induction l as [|s l IH]; simpl; [done | by rewrite IH].
Qed.

(** [a + b] when [a] does not wrap a union: the union of the two wrapped
    pipelines themselves. *)
Lemma add_plain ia ib (pa pb : est) (st : state) :
  is_FeatureUnion pa = false →
  PlaytimePipeline__add__ (PlaytimePipeline ia pa) (PlaytimePipeline ib pb) st =
    (Ok (PlaytimePipeline (S (next_id st))
           (FeatureUnion (next_id st) (named [pa; pb]))),
     State (S (S (next_id st))) (store st)).
Proof.
  intros Hpa. unfold PlaytimePipeline__add__.
  erewrite bind_Ok; [|reflexivity]. by rewrite Hpa.
Qed.

(** [a + b] when [a] wraps a union: its members, then a clone of [b]'s
    pipeline. *)
Lemma add_union ia ib lu tl (pb c : est) (st st1 : state) :
  clone pb st = (Ok c, st1) →
  PlaytimePipeline__add__
    (PlaytimePipeline ia (FeatureUnion lu tl)) (PlaytimePipeline ib pb) st =
    (Ok (PlaytimePipeline (S (next_id st1))
           (FeatureUnion (next_id st1) (named (tl.*2 ++ [c])))),
     State (S (S (next_id st1))) (store st1)).
Proof.
  intros Hclone. unfold PlaytimePipeline__add__, bind. simpl.
  by rewrite Hclone.
Qed.

(** Either way [a + b] is a new value around a new union, built without
    writing any attribute; the union has one member per member of [a]'s
    union (or one for [a]) and one for [b]. *)
Lemma add_Ok ia ib (pa pb : est) (st : state) :
  constructible pb = true →
  ∃ lu tl st1,
    PlaytimePipeline__add__ (PlaytimePipeline ia pa) (PlaytimePipeline ib pb) st =
      (Ok (PlaytimePipeline (S lu) (FeatureUnion lu tl)), st1) ∧
    store st1 = store st ∧
    next_id st ≤ lu ∧ next_id st1 = S (S lu) ∧
    skeleton <$> tl.*2 = skeleton <$> (flattened pa ++ [pb]) ∧
    (constructible pa = true → forallb (λ s, constructible s.2) tl = true).
Proof.
  intros Hpb. destruct (is_FeatureUnion pa) eqn:Hpa.
  - destruct pa as [| |lu tl| |]; try discriminate.
    destruct (clone_cloned pb Hpb st) as (c & st1 & Hclone & Hst & Hn & Hsk & Hc & _).
    eexists _, _, _. split; [by apply add_union|]. cbn [store next_id].
    split; [done|]. split; [done|]. split; [done|]. split.
    + rewrite named_snd, !fmap_app. simpl. by rewrite Hsk.
    + intros Htl. rewrite named_constructible, forallb_app. simpl.
      rewrite Hc, andb_true_r. clear -Htl.
      induction tl as [|s tl IH]; simpl in *; [done|].
      apply andb_prop in Htl as [-> Htl]. by apply IH.
  - eexists _, _, _. split; [by apply add_plain|]. cbn [store next_id].
    split; [done|]. split; [done|]. split; [done|]. split.
    + rewrite named_snd. by destruct pa.
    + intros Hc. rewrite named_constructible. simpl. by rewrite Hc, Hpb.
Qed.
(** C10. For wrapper values [a] and [b] the tests of [__mul__] look at the
    wrappers, never at what they wrap, so its first case always applies:
    [a * b] is a cross-product node around the union pipeline of [a + b], and
    the branches that bind a plain list, or nothing, are never taken. *)
Theorem mul_always_first_case ia ib (pa pb : est) (st : state) :
  let a := PlaytimePipeline ia pa in
  let b := PlaytimePipeline ib pb in
  mul_branch a b st = (Ok BothPlain, st) ∧
  PlaytimePipeline__mul__ a b st =
    (do sum <- PlaytimePipeline__add__ a b;
     do u <- getattr_pipeline sum;
     do cross <- CrossPolyPipeline__init__ (VObj u);
     PlaytimePipeline__init__ cross) st ∧
  (constructible pb = true →
   ∃ lu tl st1,
     PlaytimePipeline__add__ a b st =
       (Ok (PlaytimePipeline (S lu) (FeatureUnion lu tl)), st1) ∧
     PlaytimePipeline__mul__ a b st =
       (Ok (PlaytimePipeline (S (S (S lu)))
              (CrossPolyPipeline (S (S lu)) (FeatureUnion lu tl))),
        State (S (S (S (S lu)))) (store st))).
Proof.
  intros a b. split; [done|]. split.
  - unfold PlaytimePipeline__mul__, bind. simpl.
    destruct (PlaytimePipeline__add__ a b st) as [[sum|e] s1]; [|done].
    by destruct (getattr_pipeline sum s1) as [[u|e] s2].
  - intros Hpb.
    destruct (add_Ok ia ib pa pb st Hpb) as (lu & tl & st1 & Hadd & Hst & _ & Hn & _).
    exists lu, tl, st1. subst a b. split; [done|].
    unfold PlaytimePipeline__mul__. erewrite bind_Ok; [|reflexivity].
    erewrite bind_Ok; [|(erewrite bind_Ok; [|exact Hadd]); reflexivity]. simpl.
    destruct st1 as [n1 s1]. simpl in *. by subst.
Qed.

(** C4, as the code has it. [a * b] always takes its first case and returns
    one cross-product node around the union [a + b]: the members of a union
    wrapped by [a], or [a]'s pipeline as one member, followed by one member
    for [b]'s pipeline, whatever that is. *)
Theorem mul_flattens_left_only ia ib (pa pb : est) (st : state) :
  constructible pb = true →
  ∃ r st' ms,
    mul_branch (PlaytimePipeline ia pa) (PlaytimePipeline ib pb) st =
      (Ok BothPlain, st) ∧
    PlaytimePipeline__mul__ (PlaytimePipeline ia pa) (PlaytimePipeline ib pb) st =
      (Ok r, st') ∧
    product_members r = Some ms ∧
    skeleton <$> ms = skeleton <$> (flattened pa ++ [pb]).
Proof.
  intros Hpb.
  destruct (add_Ok ia ib pa pb st Hpb) as (lu & tl & st1 & Hadd & Hst & _ & Hn & Hsk & _).
  eexists _, _, tl.*2. split; [done|]. split; [|split; [|exact Hsk]].
  - unfold PlaytimePipeline__mul__. erewrite bind_Ok; [|reflexivity].
    erewrite bind_Ok; [|(erewrite bind_Ok; [|exact Hadd]); reflexivity]. reflexivity.
  - reflexivity.
Qed.

(** [a | b], for an [a] that wraps [pa]. *)
Lemma or_Ok ia (pa b : est) (st : state) :
  constructible pa = true →
  ∃ c st1,
    clone pa st = (Ok c, st1) ∧ cloned pa st c st1 ∧
    PlaytimePipeline__or__ (PlaytimePipeline ia pa) b st =
      (Ok (PlaytimePipeline (S (next_id st1))
             (Pipeline (next_id st1) (named [c; b]))),
       State (S (S (next_id st1))) (store st)).
Proof.
  intros Hpa.
  destruct (clone_cloned pa Hpa st) as (c & st1 & Hclone & Hcl).
  exists c, st1. split; [done|]. split; [done|].
  unfold PlaytimePipeline__or__, bind. simpl. rewrite Hclone. simpl.
  destruct Hcl as (-> & _). done.
Qed.

(** C8. [a | b] is a new value around a two-step chain: first a clone of
    [a]'s pipeline (same skeleton, identities that did not exist before),
    then [b] itself.  Nothing is written at construction.  Fitting the chain
    fit-transforms the clone and fits that very [b] on what comes out. *)
Theorem or_clones_left_keeps_right ia (pa b : est) (st : state) :
  constructible pa = true →
  ∃ c st1 chain,
    clone pa st = (Ok c, st1) ∧
    skeleton c = skeleton pa ∧
    (∀ l, l ∈ est_ids c → next_id st ≤ l) ∧
    PlaytimePipeline__or__ (PlaytimePipeline ia pa) b st =
      (Ok (PlaytimePipeline (S (next_id st1)) chain),
       State (S (S (next_id st1))) (store st)) ∧
    (∃ n1 n2, chain = Pipeline (next_id st1) [(n1, c); (n2, b)]) ∧
    ∀ X s, fit chain X s = (do Xt <- fit_transform c X; fit b Xt) s.
Proof.
  intros Hpa.
  destruct (or_Ok ia pa b st Hpa) as (c & st1 & Hclone & Hcl & Hor).
  exists c, st1, (Pipeline (next_id st1) (named [c; b])).
  destruct Hcl as (_ & _ & Hsk & _ & Hids).
  split; [done|]. split; [done|]. split; [|split; [done|split]].
  - intros l Hl. apply Hids in Hl. lia.
  - by eexists _, _.
  - done.
Qed.

(** C6, as the code has it. [|] clones its left operand and keeps its right
    operand as it is.  So building [(A + B) | E] writes no attribute, and
    fitting it, whatever the outcome, changes the attributes of no object
    that existed before except those of [E]: [A], [B] and what they wrap stay
    as they were, the fitted state going to the copies in the new node (and
    to [E]). *)
Theorem chain_fit_spares_operands ia ib (pa pb E : est) (X : mat) (st : state) :
  constructible pa = true → constructible pb = true →
  ∃ c st1,
    (do ab <- PlaytimePipeline__add__
                (PlaytimePipeline ia pa) (PlaytimePipeline ib pb);
     PlaytimePipeline__or__ ab E) st = (Ok c, st1) ∧
    store st1 = store st ∧
    ∀ l, l < next_id st → l ∉ est_ids E →
         store (fit c X st1).2 !! l = store st !! l.
Proof.
  intros Hpa Hpb.
  destruct (add_Ok ia ib pa pb st Hpb)
    as (lu & tl & st1 & Hadd & Hst & Hlu & Hn & _ & Hc).
  specialize (Hc Hpa).
  destruct (or_Ok (S lu) (FeatureUnion lu tl) E st1 Hc)
    as (c & st2 & Hclone & Hcl & Hor).
  eexists _, _. split; [|split].
  - erewrite bind_Ok; [exact Hor | exact Hadd].
  - done.
  - intros l Hl HE.
    match goal with
    | |- store (_ ?c X ?s).2 !! _ = _ => destruct (fit_frame c X s) as [_ Hfr]
    end.
    rewrite Hfr; [simpl; by rewrite Hst|].
    simpl. rewrite app_nil_r.
    destruct Hcl as (_ & Hn2 & _ & _ & Hids).
    rewrite !not_elem_of_cons, not_elem_of_app.
    split; [lia|]. split; [lia|]. split; [|done].
    intros Hin. apply Hids in Hin. lia.
Qed.
(** ** The cross-product of a fitted transformer *)

Lemma combinations2_last {A} (pre : list A) (a b : A) :
  ∃ init, combinations2 (pre ++ [a; b]) = init ++ [(a, b)].
Proof.
  induction pre as [|x pre [init IH]]; simpl.
  - by exists [].
  - exists (map (pair x) (pre ++ [a; b]) ++ init). by rewrite IH, app_assoc.
Qed.

Lemma combinations2_elem {A} (l : list A) (p : A * A) :
  p ∈ combinations2 l → p.1 ∈ l ∧ p.2 ∈ l.
Proof.
  induction l as [|x l IH]; simpl; [by intros ?%elem_of_nil|].
  rewrite elem_of_app. intros [Hp|Hp].
  - apply list_elem_of_In, in_map_iff in Hp as (y & <- & Hy%list_elem_of_In).
    simpl. split; [by left | by right].
  - destruct (IH Hp). split; by right.
Qed.

Lemma dict_get_elem {V} (d : list (string * V)) k v :
  NoDup (dict_keys d) → (k, v) ∈ d → dict_get d k = Some v.
Proof.
  unfold dict_keys. induction d as [|[k' v'] d IH]; simpl.
  - by intros _ ?%elem_of_nil.
  - intros [Hk' Hd]%NoDup_cons [[= -> ->]|Hin]%elem_of_cons.
    + by rewrite String.eqb_refl.
    + destruct (String.eqb_spec k k') as [->|Hne]; [|by apply IH].
      exfalso. apply Hk'. apply list_elem_of_fmap. by exists (k', v).
Qed.

Lemma dict_get_is_Some {V} (d : list (string * V)) k :
  k ∈ dict_keys d → is_Some (dict_get d k).
Proof.
  unfold dict_keys. induction d as [|[k' v'] d IH]; simpl.
  - by intros ?%elem_of_nil.
  - intros Hk. destruct (String.eqb_spec k k') as [->|Hne]; [by eexists|].
    apply IH. by apply elem_of_cons in Hk as [?|?].
Qed.

Lemma pairs_loop_app sm (X : mat) pairs1 pairs2 cur :
  pairs_loop sm X (pairs1 ++ pairs2) cur =
  match pairs_loop sm X pairs1 cur with
  | Ok cur' => pairs_loop sm X pairs2 cur'
  | Raise e => Raise e
  end.
Proof.
  revert cur. induction pairs1 as [|[n1 n2] pairs1 IH]; intros cur; simpl; [done|].
  destruct (dict_get sm n1), (dict_get sm n2); auto.
Qed.

Lemma pairs_loop_Ok sm (X : mat) pairs cur :
  Forall (λ p, is_Some (dict_get sm p.1) ∧ is_Some (dict_get sm p.2)) pairs →
  ∃ cur', pairs_loop sm X pairs cur = Ok cur'.
Proof.
  intros Hp. revert cur.
  induction Hp as [|[n1 n2] pairs [[s1 H1] [s2 H2]] _ IH]; intros cur; simpl.
  - by eexists.
  - simpl in *. rewrite H1, H2. apply IH.
Qed.

(** After the loop over the pairs, [X1, X2] are the blocks of the last two
    names. *)
Lemma pairs_loop_last sm (X : mat) pre na sa nb sb :
  sm = pre ++ [(na, sa); (nb, sb)] →
  NoDup (dict_keys sm) →
  pairs_loop sm X (combinations2 (dict_keys sm)) None =
    Ok (Some (getitem_slice X sa, getitem_slice X sb)).
Proof.
  intros Hsm Hnd.
  assert (Hkeys : dict_keys sm = dict_keys pre ++ [na; nb]).
  { subst sm. unfold dict_keys. by rewrite fmap_app. }
  destruct (combinations2_last (dict_keys pre) na nb) as [init Hinit].
  assert (Hall : Forall (λ p, is_Some (dict_get sm p.1) ∧ is_Some (dict_get sm p.2))
                        (combinations2 (dict_keys sm))).
  { apply Forall_forall. intros p [H1 H2]%combinations2_elem.
    split; by apply dict_get_is_Some. }
  rewrite Hkeys, Hinit in Hall. rewrite Hkeys, Hinit, pairs_loop_app.
  apply Forall_app in Hall as [Hall _].
  destruct (pairs_loop_Ok sm X init None Hall) as [cur ->]. simpl.
  rewrite (dict_get_elem sm na sa), (dict_get_elem sm nb sb); try done.
  - subst sm. apply elem_of_app. right. right. by left.
  - subst sm. apply elem_of_app. right. by left.
Qed.

(** One turn of the loop over the columns of [X2]. *)
Definition batch (X1 : mat) (d2 : dtype) (c : list elt) : mat :=
  Matrix (if issparse X1 then Sparse CSR else Dense)
         (promote (dtype_of X1) d2) (nrows X1)
         ((λ a, zip_with mul a c) <$> columns X1).

Lemma columns_loop_from (X1 X2 : mat) done_ todo acc :
  columns X2 = done_ ++ todo →
  columns_loop mul promote X1 X2 (seq (length done_) (length todo)) acc =
    Ok (acc ++ (batch X1 (dtype_of X2) <$> todo)).
Proof.
  revert done_ acc. induction todo as [|c todo IH]; intros done_ acc Hcols; simpl.
  - by rewrite app_nil_r.
  - assert (Hc : columns X2 !! length done_ = Some c).
    { by rewrite Hcols, lookup_app_r, Nat.sub_diag. }
    unfold getitem_col. rewrite Hc. unfold multiply. simpl.
    specialize (IH (done_ ++ [c]) (acc ++ [batch X1 (dtype_of X2) c])).
    rewrite length_app, Nat.add_1_r in IH. simpl in IH.
    fold (batch X1 (dtype_of X2) c). rewrite IH.
    + by rewrite <- app_assoc.
    + by rewrite Hcols, <- app_assoc.
Qed.

Lemma columns_loop_all (X1 X2 : mat) :
  columns_loop mul promote X1 X2 (seq 0 (ncols X2)) [] =
    Ok (batch X1 (dtype_of X2) <$> columns X2).
Proof. by apply (columns_loop_from X1 X2 [] (columns X2) []). Qed.

Lemma batches_stacked (X1 : mat) d2 (cs : list (list elt)) :
  stacked_columns (batch X1 d2 <$> cs) = pair_columns mul (columns X1) cs.
Proof.
  induction cs as [|c cs IH]; [done|].
  change (columns (batch X1 d2 c) ++ stacked_columns (batch X1 d2 <$> cs) =
          ((λ a, zip_with mul a c) <$> columns X1) ++
          pair_columns mul (columns X1) cs).
  by rewrite IH.
Qed.

Lemma batches_same_height (X1 : mat) d2 (cs : list (list elt)) :
  same_height (batch X1 d2 <$> cs) = true.
Proof.
  destruct cs as [|c cs]; simpl; [done|].
  induction cs as [|c' cs IH]; simpl; [done|].
  by rewrite Nat.eqb_refl.
Qed.

Lemma length_pair_columns (A B : list (list elt)) :
  length (pair_columns mul A B) = length A * length B.
Proof.
  unfold pair_columns. induction B as [|b B IH]; simpl; [lia|].
  rewrite length_app, length_map, IH. lia.
Qed.

(** What [transform] makes of the union's output [X_tfm] once the split marks
    end with those of two names: the products of that last pair of blocks,
    in the representation and dtype of [X_tfm]; an error when the last block
    is empty, there being nothing to stack. *)
Definition last_pair_product (X_tfm : mat) (sa sb : slice) : outcome mat :=
  match block X_tfm sb with
  | [] => Raise ValueError
  | _ =>
      Ok (Matrix (if issparse X_tfm then Sparse CSC else Dense)
                 (dtype_of X_tfm) (nrows X_tfm)
                 (pair_columns mul (block X_tfm sa) (block X_tfm sb)))
  end.

Lemma np_hstack_batches (X1 : mat) d2 (cs : list (list elt)) d :
  cs ≠ [] →
  np_hstack (batch X1 d2 <$> cs) d =
    Ok (Matrix Dense d (nrows X1) (pair_columns mul (columns X1) cs)).
Proof.
  intros Hcs.
  pose proof (batches_same_height X1 d2 cs) as Hh.
  pose proof (batches_stacked X1 d2 cs) as Hs.
  destruct cs as [|c cs]; [done|]. rewrite fmap_cons in *.
  unfold np_hstack. by rewrite Hh, Hs.
Qed.

Lemma sparse_hstack_batches (X1 : mat) d2 (cs : list (list elt)) d :
  cs ≠ [] →
  sparse_hstack (batch X1 d2 <$> cs) d =
    Ok (Matrix (Sparse COO) d (nrows X1) (pair_columns mul (columns X1) cs)).
Proof.
  intros Hcs.
  pose proof (batches_same_height X1 d2 cs) as Hh.
  pose proof (batches_stacked X1 d2 cs) as Hs.
  destruct cs as [|c cs]; [done|]. rewrite fmap_cons in *.
  unfold sparse_hstack. by rewrite Hh, Hs.
Qed.

Lemma cross_product_last_pair sm (X_tfm : mat) pre na sa nb sb :
  sm = pre ++ [(na, sa); (nb, sb)] →
  NoDup (dict_keys sm) →
  cross_product sm X_tfm = last_pair_product X_tfm sa sb.
Proof.
  intros Hsm Hnd. unfold cross_product, last_pair_product.
  set (X' := if issparse X_tfm then csc_array X_tfm else X_tfm).
  assert (HX' : columns X' = columns X_tfm ∧ nrows X' = nrows X_tfm ∧
                dtype_of X' = dtype_of X_tfm ∧ issparse X' = issparse X_tfm).
  { subst X'. by destruct (issparse X_tfm) eqn:E. }
  destruct HX' as (Hcols & Hrows & Hdt & Hsp).
  rewrite (pairs_loop_last sm X' pre na sa nb sb Hsm Hnd).
  rewrite columns_loop_all, Hsp, Hdt.
  assert (Hblock : ∀ s, columns (getitem_slice X' s) = block X_tfm s).
  { intros s. unfold block. simpl. by rewrite Hcols. }
  rewrite Hblock.
  destruct (block X_tfm sb) as [|c cs] eqn:Hb.
  - simpl. by destruct (issparse X_tfm).
  - rewrite np_hstack_batches, sparse_hstack_batches by done.
    rewrite Hblock. simpl. rewrite Hrows.
    by destruct (issparse X_tfm).
Qed.
Lemma transform_cross self (u : est) (X X_tfm : mat) (st : state) sm :
  (transform u X st).1 = Ok X_tfm →
  split_marks_ (attrs_of st self) = Some sm →
  transform (CrossPolyPipeline self u) X st = (cross_product sm X_tfm, st).
Proof.
  intros Hu Hsm.
  pose proof (transform_readonly u X st) as Hro.
  destruct (transform u X st) as [o st1] eqn:Et. simpl in *. subst.
  unfold transform in *. simpl. unfold CrossPolyPipeline_transform.
  erewrite bind_Ok; [|exact Et].
  unfold getattr_split_marks_, bind, getattrs. by rewrite Hsm.
Qed.

(** C2. With three or more named blocks recorded at fit time, the output of
    [transform] is made of the column products of the last two names alone:
    for each column of the last block in turn, the block before it multiplied
    by that column.  The loop over the columns runs once, after the loop over
    the pairs, so no other pair contributes; an empty last block leaves
    nothing to stack, which is an error. *)
Theorem transform_keeps_last_pair self (u : est) (X X_tfm : mat) (st : state)
    sm pre na sa nb sb :
  (transform u X st).1 = Ok X_tfm →
  split_marks_ (attrs_of st self) = Some sm →
  sm = pre ++ [(na, sa); (nb, sb)] →
  pre ≠ [] →
  NoDup (dict_keys sm) →
  transform (CrossPolyPipeline self u) X st =
    (last_pair_product X_tfm sa sb, st) ∧
  (block X_tfm sb ≠ [] →
   ∃ R, last_pair_product X_tfm sa sb = Ok R ∧
        columns R = pair_columns mul (block X_tfm sa) (block X_tfm sb) ∧
        ncols R = length (block X_tfm sa) * length (block X_tfm sb)).
Proof.
  intros Hu Hattr Hsm _ Hnd. split.
  - rewrite (transform_cross self u X X_tfm st sm Hu Hattr).
    by rewrite (cross_product_last_pair sm X_tfm pre na sa nb sb).
  - intros Hb. unfold last_pair_product.
    destruct (block X_tfm sb) as [|c cs] eqn:E; [done|].
    eexists. split; [done|]. split; [done|].
    unfold ncols. simpl. by rewrite length_pair_columns.
Qed.

(** C7. A fitted transformer with at least two named blocks, the last of
    them not empty: [transform] returns a CSC matrix when the union's output
    is sparse and a dense array when it is dense, with the rows and the dtype
    of the union's output. *)
Theorem transform_preserves_representation self (u : est) (X X_tfm : mat)
    (st : state) sm pre na sa nb sb :
  (transform u X st).1 = Ok X_tfm →
  split_marks_ (attrs_of st self) = Some sm →
  sm = pre ++ [(na, sa); (nb, sb)] →
  NoDup (dict_keys sm) →
  block X_tfm sb ≠ [] →
  ∃ R, transform (CrossPolyPipeline self u) X st = (Ok R, st) ∧
       repr R = (if issparse X_tfm then Sparse CSC else Dense) ∧
       nrows R = nrows X_tfm ∧
       dtype_of R = dtype_of X_tfm.
Proof.
  intros Hu Hattr Hsm Hnd Hb.
  rewrite (transform_cross self u X X_tfm st sm Hu Hattr).
  rewrite (cross_product_last_pair sm X_tfm pre na sa nb sb Hsm Hnd).
  unfold last_pair_product.
  destruct (block X_tfm sb) as [|c cs] eqn:E; [done|].
  by eexists.
Qed.
(** ** The split marks recorded by [fit] *)

Lemma tiles_le l lo hi : tiles l lo hi → lo ≤ hi.
Proof.
  revert lo. induction l as [|s l IH]; simpl; intros lo.
  - intros ->. done.
  - intros (<- & Hle & Hl). apply IH in Hl. lia.
Qed.

Lemma tiles_sum l lo hi :
  tiles l lo hi → lo + sum_list (slice_width <$> l) = hi.
Proof.
  revert lo. induction l as [|s l IH]; intros lo.
  - simpl. intros ->. lia.
  - intros (<- & Hle & Hl). apply IH in Hl. rewrite fmap_cons.
    change (sum_list (slice_width s :: (slice_width <$> l)))
      with (slice_width s + sum_list (slice_width <$> l)).
    unfold slice_width at 1. lia.
Qed.

Lemma tiles_lookup l lo hi k s :
  tiles l lo hi → l !! k = Some s → lo ≤ start s ∧ stop s ≤ hi.
Proof.
  revert lo k. induction l as [|s0 l IH]; intros lo k; simpl; [done|].
  intros (<- & Hle & Hl). destruct k as [|k]; simpl.
  - intros [= <-]. apply tiles_le in Hl. lia.
  - intros Hk. destruct (IH _ _ Hl Hk). lia.
Qed.

Lemma tiles_ordered l lo hi i j si sj :
  tiles l lo hi → i < j → l !! i = Some si → l !! j = Some sj →
  stop si ≤ start sj.
Proof.
  revert lo i j. induction l as [|s0 l IH]; intros lo i j; simpl; [done|].
  intros (<- & Hle & Hl) Hij. destruct j as [|j]; [lia|].
  destruct i as [|i]; simpl.
  - intros [= <-] Hj. by destruct (tiles_lookup _ _ _ _ _ Hl Hj).
  - intros Hi Hj. eapply (IH _ i j); [done | lia | done | done].
Qed.

Lemma tiles_cover l lo hi c :
  tiles l lo hi →
  (lo ≤ c < hi ↔ ∃ s, s ∈ l ∧ start s ≤ c < stop s).
Proof.
  revert lo. induction l as [|s0 l IH]; intros lo; simpl.
  - intros ->. split; [lia|]. by intros (s & ?%elem_of_nil & _).
  - intros (<- & Hle & Hl). pose proof (tiles_le _ _ _ Hl) as Hhi.
    specialize (IH _ Hl). split.
    + intros Hc. destruct (decide (c < stop s0)) as [Hlt|Hge].
      * exists s0. split; [by left | lia].
      * destruct IH as [IH _]. destruct IH as (s & Hs & Hcs); [lia|].
        exists s. split; [by right | done].
    + intros (s & [->|Hs]%elem_of_cons & Hcs); [lia|].
      destruct IH as [_ IH]. destruct IH; [by exists s | lia].
Qed.

Lemma layout_tiles lo ws : tiles (layout lo ws) lo (lo + sum_list ws).
Proof.
  revert lo. induction ws as [|w ws IH]; intros lo; simpl; [lia|].
  split; [done|]. split; [lia|].
  replace (lo + (w + sum_list ws)) with (w + lo + sum_list ws) by lia.
  replace (lo + w) with (w + lo) by lia. apply IH.
Qed.

Lemma length_layout lo ws : length (layout lo ws) = length ws.
Proof. revert lo. induction ws; intros lo; simpl; auto. Qed.

Lemma dict_set_fresh {V} (d : list (string * V)) k v :
  k ∉ dict_keys d → dict_set d k v = d ++ [(k, v)].
Proof.
  unfold dict_keys. induction d as [|[k' v'] d IH]; simpl; [done|].
  intros [Hne Hk]%not_elem_of_cons.
  destruct (String.eqb_spec k k'); [done|]. by rewrite IH.
Qed.

Lemma dict_fill_fresh {V} (d : list (string * V)) ks (vs : list V) :
  NoDup (dict_keys d ++ ks) → length ks = length vs →
  foldl (λ d p, dict_set d p.1 p.2) d (zip ks vs) = d ++ zip ks vs.
Proof.
  revert d vs. induction ks as [|k ks IH]; intros d [|v vs] Hnd Hlen;
    simpl in *; try done; try by rewrite app_nil_r.
  apply NoDup_app in Hnd as (Hd & Hdis & [Hk Hks]%NoDup_cons).
  rewrite dict_set_fresh.
  - rewrite IH; [by rewrite <- app_assoc | | lia].
    unfold dict_keys. rewrite fmap_app. simpl. rewrite <- app_assoc. simpl.
    apply NoDup_app. split; [done|]. split; [|by apply NoDup_cons].
    done.
  - intros Hin. apply (Hdis _ Hin). by left.
Qed.

(** The loop of [fit], run to its end over members whose [transform] only
    reads: it assigns, name after name, consecutive slices of some widths
    (those of the probe outputs). *)
Lemma fit_loop_spec self (X : mat) (tlm : list (string * (mat → M state mat)))
    lo (st : state) d n st' :
  Forall (λ t, ∀ X, readonly (t.2 X)) tlm →
  split_marks_ (attrs_of st self) = Some d →
  fit_loop self X tlm lo st = (Ok n, st') →
  ∃ ws, length ws = length tlm ∧
        split_marks_ (attrs_of st' self) =
          Some (foldl (λ d p, dict_set d p.1 p.2) d (zip tlm.*1 (layout lo ws))) ∧
        shape_out_ (attrs_of st' self) = shape_out_ (attrs_of st self) ∧
        n = lo + sum_list ws.
Proof.
  intros Htl. revert lo st d.
  induction Htl as [|[name tfm] tlm Ht _ IH]; intros lo st d Hd; simpl.
  - intros [= <- <-]. exists []. simpl. split; [done|]. split; [done|].
    split; [done | lia].
  - intros Hrun.
    apply bind_inv_Ok in Hrun as (Xp & st1 & Htfm & Hrun).
    pose proof (Ht (head2 X) st) as Hro. simpl in Hro.
    rewrite Htfm in Hro. simpl in Hro. subst st1.
    apply bind_inv_Ok in Hrun as (d0 & st1 & Hget & Hrun).
    unfold getattr_split_marks_, bind, getattrs in Hget. rewrite Hd in Hget.
    injection Hget as <- <-.
    apply bind_inv_Ok in Hrun as ([] & st2 & Hset & Hrun).
    injection Hset as <-.
    eapply IH in Hrun as (ws & Hlen & Hsm & Hso & Hn).
    + exists (ncols Xp :: ws). simpl. split; [by rewrite Hlen|].
      split; [exact Hsm|]. split; [|lia].
      rewrite Hso. unfold attrs_of. simpl. by rewrite lookup_insert_eq.
    + unfold attrs_of. simpl. by rewrite lookup_insert_eq.
Qed.

Lemma transformer_list_methods (u : est) (st : state) tl :
  getattr_transformer_list u st = (Ok tl, st) →
  m_transformer_list (methods_of u) =
    Ok (map (λ s, (s.1, m_transform (methods_of s.2))) tl).
Proof.
  induction u using est_ind'; simpl; try discriminate; auto.
  intros [= <-]. by rewrite map_map.
Qed.

Lemma dict_set_keys_NoDup {V} (d : list (string * V)) k v :
  NoDup (dict_keys d) → NoDup (dict_keys (dict_set d k v)).
Proof.
  intros Hd. destruct (decide (k ∈ dict_keys d)) as [Hin|Hnin].
  - replace (dict_keys (dict_set d k v)) with (dict_keys d); [done|].
    clear Hd. unfold dict_keys in *.
    induction d as [|[k' v'] d IH]; simpl in *; [by apply elem_of_nil in Hin|].
    destruct (String.eqb_spec k k') as [->|Hne]; [done|]. simpl. f_equal.
    apply IH. by apply elem_of_cons in Hin as [?|?].
  - rewrite dict_set_fresh by done. unfold dict_keys in *.
    rewrite fmap_app. simpl. apply NoDup_app. split; [done|].
    split; [|apply NoDup_singleton].
    intros x Hx ->%list_elem_of_singleton. done.
Qed.

Lemma dict_fill_keys_NoDup {V} (d : list (string * V)) (kvs : list (string * V)) :
  NoDup (dict_keys d) →
  NoDup (dict_keys (foldl (λ d p, dict_set d p.1 p.2) d kvs)).
Proof.
  revert d. induction kvs as [|[k v] kvs IH]; intros d Hd; simpl; [done|].
  by apply IH, dict_set_keys_NoDup.
Qed.

(** Whatever the names, the marks that a successful [fit] leaves behind form
    a dictionary: no name occurs twice among its keys. *)
Lemma fit_split_marks_NoDup self (u : est) (X : mat) (st st' : state) :
  fit (CrossPolyPipeline self u) X st = (Ok tt, st') →
  self ∉ est_ids u →
  ∃ sm, split_marks_ (attrs_of st' self) = Some sm ∧ NoDup (dict_keys sm).
Proof.
  intros Hfit Hself.
  unfold fit in Hfit. simpl in Hfit. unfold CrossPolyPipeline_fit in Hfit.
  apply bind_inv_Ok in Hfit as ([] & st_a & Hset & Hfit).
  injection Hset as <-.
  apply bind_inv_Ok in Hfit as ([] & st_b & Hufit & Hfit).
  apply bind_inv_Ok in Hfit as (tlm & st_b' & Hlift & Hfit).
  injection Hlift as Hlift <-.
  apply bind_inv_Ok in Hfit as (n & st_c & Hloop & Hshape).
  injection Hshape as <-.
  destruct (methods_of_well_behaved u) as (Hfr & _ & _ & Htlm).
  assert (Hd : split_marks_ (attrs_of st_b self) = Some []).
  { match type of Hufit with
    | _ ?s = _ => pose proof (Hfr X s) as Hfr'
    end.
    rewrite Hufit in Hfr'. destruct Hfr' as [_ Hfr'].
    unfold attrs_of. rewrite Hfr' by done. simpl. by rewrite lookup_insert_eq. }
  eapply fit_loop_spec in Hloop as (ws & _ & Hsm & _); [|by apply Htlm|exact Hd].
  eexists. split.
  - unfold attrs_of in *. simpl. rewrite lookup_insert_eq. simpl.
    destruct (store st_c !! self); simpl in *; exact Hsm.
  - apply dict_fill_keys_NoDup. constructor.
Qed.

(** C3. After a successful [fit] of a cross-product transformer over
    distinctly named transformers, the recorded split marks, in the order of
    the transformer list, exactly tile [[0, shape_out_)]: the first starts at
    0, each next one starts where the one before stops, they are pairwise
    disjoint, they leave no column of the range out, and their widths add up
    to the recorded total. *)
Theorem fit_split_marks_tile self (u : est) (X : mat) (st st' : state) tl :
  fit (CrossPolyPipeline self u) X st = (Ok tt, st') →
  getattr_transformer_list u st = (Ok tl, st) →
  self ∉ est_ids u →
  NoDup tl.*1 →
  ∃ sm total,
    split_marks_ (attrs_of st' self) = Some sm ∧
    shape_out_ (attrs_of st' self) = Some total ∧
    dict_keys sm = tl.*1 ∧
    tiles (dict_values sm) 0 total ∧
    sum_list (slice_width <$> dict_values sm) = total ∧
    (∀ i j si sj, i < j →
       dict_values sm !! i = Some si → dict_values sm !! j = Some sj →
       stop si ≤ start sj) ∧
    (∀ c, c < total ↔ ∃ s, s ∈ dict_values sm ∧ start s ≤ c < stop s).
Proof.
  intros Hfit Htl Hself Hnd.
  unfold fit in Hfit. simpl in Hfit. unfold CrossPolyPipeline_fit in Hfit.
  apply bind_inv_Ok in Hfit as ([] & st_a & Hset & Hfit).
  injection Hset as <-.
  apply bind_inv_Ok in Hfit as ([] & st_b & Hufit & Hfit).
  apply bind_inv_Ok in Hfit as (tlm & st_b' & Hlift & Hfit).
  rewrite (transformer_list_methods u st tl Htl) in Hlift.
  injection Hlift as <- <-.
  apply bind_inv_Ok in Hfit as (n & st_c & Hloop & Hshape).
  injection Hshape as <-.
  destruct (methods_of_well_behaved u) as (Hfr & Hro & _ & _).
  assert (Hd : split_marks_ (attrs_of st_b self) = Some []).
  { match type of Hufit with
    | _ ?s = _ => pose proof (Hfr X s) as Hfr'
    end.
    rewrite Hufit in Hfr'. destruct Hfr' as [_ Hfr'].
    unfold attrs_of. rewrite Hfr' by done. simpl. by rewrite lookup_insert_eq. }
  eapply fit_loop_spec in Hloop as (ws & Hlen & Hsm & _ & ->); [|
    | exact Hd].
  2:{ apply Forall_forall. intros t (s & <- & _)%list_elem_of_In%in_map_iff X'.
      apply methods_of_well_behaved. }
  rewrite length_map in Hlen.
  assert (Hnames : (map (λ s, (s.1, m_transform (methods_of s.2))) tl).*1 = tl.*1).
  { clear. induction tl as [|s tl IH]; [done|]. simpl. f_equal. exact IH. }
  rewrite Hnames in Hsm.
  rewrite dict_fill_fresh in Hsm;
    [|done | by rewrite length_layout, Hlen, length_fmap].
  simpl in Hsm.
  exists (zip tl.*1 (layout 0 ws)), (sum_list ws).
  assert (Hkeys : dict_keys (zip tl.*1 (layout 0 ws)) = tl.*1).
  { apply fst_zip. rewrite length_layout, length_fmap. lia. }
  assert (Hvals : dict_values (zip tl.*1 (layout 0 ws)) = layout 0 ws).
  { apply snd_zip. rewrite length_layout, length_fmap. lia. }
  pose proof (layout_tiles 0 ws) as Ht. simpl in Ht.
  rewrite Hvals. split; [|split; [|split; [done|split; [done|split; [|split]]]]].
  - unfold attrs_of in *. simpl. rewrite lookup_insert_eq. simpl.
    destruct (store st_c !! self); simpl in *; done.
  - unfold attrs_of. simpl. by rewrite lookup_insert_eq.
  - by apply tiles_sum in Ht.
  - intros i j si sj. by apply tiles_ordered with (lo := 0) (hi := sum_list ws).
  - intros c. rewrite <- (tiles_cover _ 0 _ c Ht). lia.
Qed.
(** ** Fitting a union of single transformers *)

Lemma attrs_of_setattrs l f (st : state) l' :
  attrs_of (setattrs l f st).2 l' =
    if decide (l = l') then f (attrs_of st l) else attrs_of st l'.
Proof.
  unfold attrs_of at 1. simpl. rewrite lookup_insert.
  by destruct (decide (l = l')).
Qed.

(** Everything fitted on [X] stays so when one more estimator is. *)
Lemma Leaf_fit_attrs l (X : mat) (st : state) l' :
  let st' := (Leaf_fit l X st).2 in
  fitted_on (attrs_of st' l) = Some X ∧
  (fitted_on (attrs_of st l') = Some X → fitted_on (attrs_of st' l') = Some X) ∧
  split_marks_ (attrs_of st' l') = split_marks_ (attrs_of st l') ∧
  shape_out_ (attrs_of st' l') = shape_out_ (attrs_of st l').
Proof.
  cbv zeta. unfold Leaf_fit. rewrite !attrs_of_setattrs.
  rewrite decide_True by done.
  destruct (decide (l = l')) as [->|]; simpl; done.
Qed.

Lemma union_fit_leaves (tl : list (string * est)) (X : mat) (st : state) :
  Forall (λ s, is_Leaf s.2 = true) tl →
  ∃ st',
    FeatureUnion_fit (map (λ s, (s.1, methods_of s.2)) tl) X st = (Ok tt, st') ∧
    Forall (λ s, fitted_on (attrs_of st' (id_of s.2)) = Some X) tl ∧
    (∀ l, fitted_on (attrs_of st l) = Some X → fitted_on (attrs_of st' l) = Some X) ∧
    (∀ l, split_marks_ (attrs_of st' l) = split_marks_ (attrs_of st l)) ∧
    (∀ l, shape_out_ (attrs_of st' l) = shape_out_ (attrs_of st l)).
Proof.
  intros Htl. revert st.
  induction Htl as [|[n e] tl He _ IH]; intros st.
  - exists st. split; [done|]. split; [done|]. done.
  - destruct e as [l cls hp| | | |]; try discriminate. clear He.
    destruct (IH (Leaf_fit l X st).2) as (st' & Hfit & Hall & Hkeep & Hsm & Hso).
    exists st'. split; [|split; [|split; [|split]]].
    + unfold FeatureUnion_fit in *. simpl.
      erewrite bind_Ok; [exact Hfit|reflexivity].
    + apply Forall_cons. split; [|done]. simpl. apply Hkeep.
      by destruct (Leaf_fit_attrs l X st l) as (? & _).
    + intros l' Hl'. apply Hkeep.
      destruct (Leaf_fit_attrs l X st l') as (_ & Hk & _). by apply Hk.
    + intros l'. rewrite Hsm.
      by destruct (Leaf_fit_attrs l X st l') as (_ & _ & ? & _).
    + intros l'. rewrite Hso.
      by destruct (Leaf_fit_attrs l X st l') as (_ & _ & _ & ?).
Qed.

Lemma fit_loop_leaves self (X : mat) (tl : list (string * est)) lo (st : state) d :
  Forall (λ s, is_Leaf s.2 = true ∧
               fitted_on (attrs_of st (id_of s.2)) = Some X) tl →
  split_marks_ (attrs_of st self) = Some d →
  ∃ st',
    fit_loop self X (map (λ s, (s.1, m_transform (methods_of s.2))) tl) lo st =
      (Ok (lo + sum_list (probe_width X <$> tl.*2)), st') ∧
    split_marks_ (attrs_of st' self) =
      Some (foldl (λ d p, dict_set d p.1 p.2) d
              (zip tl.*1 (layout lo (probe_width X <$> tl.*2)))) ∧
    shape_out_ (attrs_of st' self) = shape_out_ (attrs_of st self).
Proof.
  intros Htl. revert lo st d Htl.
  induction tl as [|[n e] tl IH]; intros lo st d Htl Hd.
  - exists st. simpl. split; [by rewrite Nat.add_0_r|]. done.
  - apply Forall_cons in Htl as [[He Hfitted] Htl].
    destruct e as [l cls hp| | | |]; try discriminate. simpl in Hfitted.
    set (w := ncols (leaf_transform cls hp X (head2 X))).
    set (d' := dict_set d n (Slice lo (lo + w))).
    set (st1 := (setattr_split_marks_ self d' st).2).
    destruct (IH (w + lo) st1 d') as (st' & Hloop & Hsm & Hso).
    + eapply Forall_impl; [exact Htl|]. intros s [Hs Hf]. split; [done|].
      subst st1. unfold setattr_split_marks_. rewrite attrs_of_setattrs.
      destruct (decide (self = id_of s.2)) as [Heq|]; [simpl; by rewrite Heq | done].
    + subst st1. unfold setattr_split_marks_. rewrite attrs_of_setattrs.
      by rewrite decide_True.
    + exists st'. split; [|split].
      * simpl. unfold Leaf_transform at 1.
        erewrite bind_Ok; [|erewrite bind_Ok; [|reflexivity]; rewrite Hfitted; reflexivity].
        erewrite bind_Ok;
          [|unfold getattr_split_marks_; erewrite bind_Ok; [|reflexivity];
            rewrite Hd; reflexivity].
        erewrite bind_Ok; [|reflexivity].
        etrans; [exact Hloop|]. do 2 f_equal.
        change (w + lo + sum_list (probe_width X <$> tl.*2) =
                lo + (w + sum_list (probe_width X <$> tl.*2))).
        lia.
      * exact Hsm.
      * rewrite Hso. subst st1. unfold setattr_split_marks_.
        rewrite attrs_of_setattrs. by destruct (decide (self = self)).
Qed.

(** Fitting a cross-product transformer around a union of single framework
    transformers always succeeds, and records these marks and this total. *)
Lemma fit_cross_of_leaves self lu (tl : list (string * est)) (X : mat) (st : state) :
  Forall (λ s, is_Leaf s.2 = true) tl →
  let ws := probe_width X <$> tl.*2 in
  ∃ st',
    fit (CrossPolyPipeline self (FeatureUnion lu tl)) X st = (Ok tt, st') ∧
    split_marks_ (attrs_of st' self) =
      Some (foldl (λ d p, dict_set d p.1 p.2) [] (zip tl.*1 (layout 0 ws))) ∧
    shape_out_ (attrs_of st' self) = Some (sum_list ws).
Proof.
  intros Htl ws.
  set (st_a := (setattr_split_marks_ self [] st).2).
  destruct (union_fit_leaves tl X st_a Htl) as (st_b & Hufit & Hall & _ & Hsm & _).
  destruct (fit_loop_leaves self X tl 0 st_b []) as (st_c & Hloop & Hsm' & _).
  { apply Forall_forall. intros s Hs. rewrite Forall_forall in Htl, Hall. auto. }
  { rewrite Hsm. subst st_a. unfold setattr_split_marks_.
    rewrite attrs_of_setattrs. by rewrite decide_True. }
  exists (setattr_shape_out_ self (sum_list ws) st_c).2.
  split; [|split].
  - unfold fit. simpl. unfold CrossPolyPipeline_fit.
    erewrite bind_Ok; [|reflexivity].
    erewrite bind_Ok; [|exact Hufit].
    erewrite bind_Ok; [|reflexivity]. rewrite map_map.
    erewrite bind_Ok; [|exact Hloop]. reflexivity.
  - unfold setattr_shape_out_. rewrite attrs_of_setattrs, decide_True by done.
    exact Hsm'.
  - unfold setattr_shape_out_. by rewrite attrs_of_setattrs, decide_True.
Qed.
Lemma named_fst (es : list est) :
  (named es).*1 = name_estimators (class_name <$> es).
Proof.
  apply fst_zip. by rewrite length_name_estimators, length_fmap.
Qed.

Lemma fitted_layout_leaves lu (tl : list (string * est)) (X : mat) (st : state) :
  Forall (λ s, is_Leaf s.2 = true) tl →
  let ws := probe_width X <$> tl.*2 in
  ∃ r st',
    fitted_layout (FeatureUnion lu tl) X st = (Ok r, st') ∧
    split_marks_ r =
      Some (foldl (λ d p, dict_set d p.1 p.2) [] (zip tl.*1 (layout 0 ws))) ∧
    shape_out_ r = Some (sum_list ws).
Proof.
  intros Htl ws.
  set (st_i := State (S (next_id st)) (store st)).
  destruct (fit_cross_of_leaves (next_id st) lu tl X st_i Htl)
    as (st' & Hfit & Hsm & Hso).
  exists (attrs_of st' (next_id st)), st'. split; [|done].
  unfold fitted_layout.
  erewrite bind_Ok; [|reflexivity].
  erewrite bind_Ok; [|exact Hfit]. reflexivity.
Qed.

(** For single framework transformers wrapped as [a], [b], [c], whatever
    their identities and the store, both layouts exist: the tracker fitted on
    the union that [(a + b) + c] builds and the one fitted on the union made
    at once record the same split marks (the names of [name_estimators], in
    order, over the probe widths) and the same total. *)
Lemma sum_layout_of_leaves
    ia ib ic la lb lc ca cb cc (ha hb hc : params) (X : mat) (st : state) :
  let a := PlaytimePipeline ia (Leaf la ca ha) in
  let b := PlaytimePipeline ib (Leaf lb cb hb) in
  let c := PlaytimePipeline ic (Leaf lc cc hc) in
  let names := name_estimators [ca; cb; cc] in
  let ws := probe_width X <$> [Leaf la ca ha; Leaf lb cb hb; Leaf lc cc hc] in
  ∃ r1 st1 r2 st2,
    layout_of_sum a b c X st = (Ok r1, st1) ∧
    layout_of_list a b c X st = (Ok r2, st2) ∧
    split_marks_ r1 =
      Some (foldl (λ d p, dict_set d p.1 p.2) [] (zip names (layout 0 ws))) ∧
    split_marks_ r2 = split_marks_ r1 ∧
    shape_out_ r1 = Some (sum_list ws) ∧
    shape_out_ r2 = shape_out_ r1.
Proof.
  intros a b c names ws.
  set (pa := Leaf la ca ha). set (pb := Leaf lb cb hb). set (pc := Leaf lc cc hc).
  (* the union built by repeated [+] *)
  set (n := next_id st).
  set (pc' := Leaf (S (S n)) cc hc).
  set (tl1 := named ((named [pa; pb]).*2 ++ [pc'])).
  set (st_s := State (S (S (S (S (S n))))) (store st)).
  assert (Hsum : (do ab <- PlaytimePipeline__add__ a b;
                  do abc <- PlaytimePipeline__add__ ab c;
                  getattr_pipeline abc) st
                 = (Ok (FeatureUnion (S (S (S n))) tl1), st_s)).
  { erewrite bind_Ok; [|by apply add_plain].
    erewrite bind_Ok; [|by apply add_union]. reflexivity. }
  (* the union built at once *)
  set (tl2 := named [pa; pb; pc]).
  set (st_l := State (S n) (store st)).
  assert (Hlist : (do pa <- getattr_pipeline a;
                   do pb <- getattr_pipeline b;
                   do pc <- getattr_pipeline c;
                   make_union [pa; pb; pc]) st
                  = (Ok (FeatureUnion n tl2), st_l)) by reflexivity.
  assert (Htl1 : tl1.*1 = names ∧ tl1.*2 = [pa; pb; pc']).
  { subst tl1. by rewrite named_fst, !named_snd. }
  assert (Htl2 : tl2.*1 = names ∧ tl2.*2 = [pa; pb; pc]).
  { subst tl2. by rewrite named_fst, named_snd. }
  destruct Htl1 as [Hn1 He1], Htl2 as [Hn2 He2].
  assert (Hleaf : ∀ tl : list (string * est),
            Forall (λ e, is_Leaf e = true) tl.*2 →
            Forall (λ s, is_Leaf s.2 = true) tl).
  { intros tl. by rewrite Forall_fmap. }
  destruct (fitted_layout_leaves (S (S (S n))) tl1 X st_s)
    as (r1 & st1 & Hfit1 & Hsm1 & Hso1).
  { apply Hleaf. rewrite He1. by repeat constructor. }
  destruct (fitted_layout_leaves n tl2 X st_l)
    as (r2 & st2 & Hfit2 & Hsm2 & Hso2).
  { apply Hleaf. rewrite He2. by repeat constructor. }
  rewrite Hn1, He1 in Hsm1. rewrite He1 in Hso1.
  rewrite Hn2, He2 in Hsm2. rewrite He2 in Hso2.
  exists r1, st1, r2, st2. split; [|split; [|split; [|split; [|split]]]].
  - unfold layout_of_sum.
    revert Hsum. unfold bind.
    destruct (PlaytimePipeline__add__ a b st) as [[ab|?] s1]; [|done].
    destruct (PlaytimePipeline__add__ ab c s1) as [[abc|?] s2]; [|done].
    destruct (getattr_pipeline abc s2) as [[u|?] s3]; [|done].
    intros [= -> ->]. exact Hfit1.
  - unfold layout_of_list.
    revert Hlist. unfold bind. simpl. intros _. exact Hfit2.
  - exact Hsm1.
  - by rewrite Hsm1, Hsm2.
  - exact Hso1.
  - by rewrite Hso1, Hso2.
Qed.
(** ** Objects of the same skeleton behave alike *)

(** The identities of a clone are new and all different. *)
Definition fresh_ids (st : state) (e' : est) (st' : state) : Prop :=
  NoDup (est_ids e') ∧
  (∀ l, l ∈ est_ids e' → next_id st ≤ l < next_id st') ∧
  next_id st ≤ next_id st'.

Lemma clone_members_fresh (tl : list (string * est)) :
  Forall (λ s, ∀ st e' st', clone s.2 st = (Ok e', st') → fresh_ids st e' st') tl →
  ∀ (st : state) tl' st',
    mapM (λ s, do e' <- clone s.2; ret (s.1, e')) tl st = (Ok tl', st') →
    NoDup (concat (map (λ s, est_ids s.2) tl')) ∧
    (∀ l, l ∈ concat (map (λ s, est_ids s.2) tl') →
          next_id st ≤ l < next_id st') ∧
    next_id st ≤ next_id st'.
Proof.
  induction 1 as [|[n e] tl He _ IH]; intros st tl' st' Hm; simpl in Hm.
  - injection Hm as <- <-. simpl. split; [constructor|]. split; [|done].
    intros l Hl. by apply elem_of_nil in Hl.
  - apply bind_inv_Ok in Hm as ([n' e'] & st1 & Hhead & Hm).
    apply bind_inv_Ok in Hhead as (e0 & st0' & Hclone & Hret).
    injection Hret as <- <- <-.
    apply bind_inv_Ok in Hm as (tl0 & st2 & Hrest & Hret).
    injection Hret as <- <-.
    destruct (He _ _ _ Hclone) as (Hnd & Hids & Hn).
    destruct (IH _ _ _ Hrest) as (Hnd2 & Hids2 & Hn2).
    simpl. split; [|split; [|lia]].
    + apply NoDup_app. split; [done|]. split; [|done].
      intros l Hl Hl2. apply Hids in Hl. apply Hids2 in Hl2. lia.
    + intros l [Hl|Hl]%elem_of_app; [apply Hids in Hl|apply Hids2 in Hl]; lia.
Qed.

Lemma clone_fresh (e : est) (st : state) e' st' :
  clone e st = (Ok e', st') → fresh_ids st e' st'.
Proof.
  revert st e' st'.
  induction e as [l cls hp|l steps IH|l tl IH|l u IH|l p IH] using est_ind';
    intros st e' st' Hclone; simpl in Hclone.
  - injection Hclone as <- <-. split; [apply NoDup_singleton|]. simpl.
    split; [|lia]. intros l' ->%list_elem_of_singleton. lia.
  - apply bind_inv_Ok in Hclone as (tl' & st1 & Hm & Hret).
    injection Hret as <- <-.
    destruct (clone_members_fresh steps IH _ _ _ Hm) as (Hnd & Hids & Hn).
    split; [|split; [|simpl; lia]]; simpl.
    + apply NoDup_cons. split; [|done]. intros Hin%Hids. lia.
    + intros l' [->|Hl]%elem_of_cons; [lia|apply Hids in Hl; lia].
  - apply bind_inv_Ok in Hclone as (tl' & st1 & Hm & Hret).
    injection Hret as <- <-.
    destruct (clone_members_fresh tl IH _ _ _ Hm) as (Hnd & Hids & Hn).
    split; [|split; [|simpl; lia]]; simpl.
    + apply NoDup_cons. split; [|done]. intros Hin%Hids. lia.
    + intros l' [->|Hl]%elem_of_cons; [lia|apply Hids in Hl; lia].
  - apply bind_inv_Ok in Hclone as (u' & st1 & Hu & Hinit).
    unfold CrossPolyPipeline__init__ in Hinit.
    apply bind_inv_Ok in Hinit as (self & st2 & Hfresh & Hinit).
    injection Hfresh as <- <-.
    apply bind_inv_Ok in Hinit as (tl & st3 & Hget & Hret).
    pose proof (getattr_transformer_list_readonly u'
                  (State (S (next_id st1)) (store st1))) as Hro.
    rewrite Hget in Hro. simpl in Hro. subst st3.
    injection Hret as <- <-.
    destruct (IH _ _ _ Hu) as (Hnd & Hids & Hn).
    split; [|split; [|simpl; lia]]; simpl.
    + apply NoDup_cons. split; [|done]. intros Hin%Hids. lia.
    + intros l' [->|Hl]%elem_of_cons; [lia|apply Hids in Hl; lia].
  - apply bind_inv_Ok in Hclone as (p' & st1 & Hp & Hret).
    injection Hret as <- <-.
    destruct (IH _ _ _ Hp) as (Hnd & Hids & Hn).
    split; [|split; [|simpl; lia]]; simpl.
    + apply NoDup_cons. split; [|done]. intros Hin%Hids. lia.
    + intros l' [->|Hl]%elem_of_cons; [lia|apply Hids in Hl; lia].
Qed.

(** What calls can read of an object graph: the fitted state of its framework
    estimators, the marks and totals of its cross-product transformers. *)
Inductive obs : Type :=
| ObsLeaf (fitted : option mat)
| ObsNode (children : list obs)
| ObsCross (marks : option (list (string * slice))) (total : option nat)
           (union : obs).

Fixpoint view (s : state) (e : est) : obs :=
  match e with
  | Leaf l _ _ => ObsLeaf (fitted_on (attrs_of s l))
  | Pipeline _ steps => ObsNode (map (λ t, view s t.2) steps)
  | FeatureUnion _ tl => ObsNode (map (λ t, view s t.2) tl)
  | CrossPolyPipeline l u =>
      ObsCross (split_marks_ (attrs_of s l)) (shape_out_ (attrs_of s l))
               (view s u)
  | PlaytimePipeline _ p => ObsNode [view s p]
  end.

Lemma view_members_agree (s s1 : state) (tl : list (string * est)) :
  Forall (λ t, (∀ l, l ∈ est_ids t.2 → store s1 !! l = store s !! l) →
               view s1 t.2 = view s t.2) tl →
  (∀ l, l ∈ concat (map (λ t, est_ids t.2) tl) → store s1 !! l = store s !! l) →
  map (λ t, view s1 t.2) tl = map (λ t, view s t.2) tl.
Proof.
  induction 1 as [|t tl Ht _ IH]; intros Hagree; simpl; [done|].
  rewrite Ht, IH; [done| |].
  - intros l Hl. apply Hagree. simpl. apply elem_of_app. by right.
  - intros l Hl. apply Hagree. simpl. apply elem_of_app. by left.
Qed.

(** The view of a graph depends on the attributes of its own objects only. *)
Lemma view_agree (s s1 : state) (e : est) :
  (∀ l, l ∈ est_ids e → store s1 !! l = store s !! l) →
  view s1 e = view s e.
Proof.
  induction e as [l cls hp|l steps IH|l tl IH|l u IH|l p IH] using est_ind';
    intros Hagree; simpl in *.
  - unfold attrs_of. rewrite Hagree; [done | by left].
  - f_equal. apply view_members_agree; [done|].
    intros l' Hl'. apply Hagree. by right.
  - f_equal. apply view_members_agree; [done|].
    intros l' Hl'. apply Hagree. by right.
  - unfold attrs_of. rewrite Hagree by (by left). f_equal.
    apply IH. intros l' Hl'. apply Hagree. by right.
  - do 2 f_equal. apply IH. intros l' Hl'. apply Hagree. by right.
Qed.

Lemma view_frame (S : list loc) (s s1 : state) (e : est) :
  agree_outside S s s1 → (∀ l, l ∈ est_ids e → l ∉ S) →
  view s1 e = view s e.
Proof.
  intros [_ Hout] Hdis. apply view_agree. intros l Hl. apply Hout. by apply Hdis.
Qed.
(** Two computations, each from its own state, end alike: with the same
    outcome and, when that is a value, in states related by [Q]. *)
Definition coupled {A} (Q : state → state → Prop) (c c' : M state A)
    (s s' : state) : Prop :=
  (c s).1 = (c' s').1 ∧ ∀ a, (c s).1 = Ok a → Q (c s).2 (c' s').2.

Lemma bind_fst {A B} (c : M state A) (k : A → M state B) s :
  (bind c k s).1 =
    match (c s).1 with Ok a => (k a (c s).2).1 | Raise e => Raise e end.
Proof. unfold bind. by destruct (c s) as [[a|e] s1]. Qed.

Lemma coupled_bind {A B} (Q1 Q2 : state → state → Prop)
    (c c' : M state A) (k k' : A → M state B) s s' :
  coupled Q1 c c' s s' →
  (∀ a s1 s1', Q1 s1 s1' → coupled Q2 (k a) (k' a) s1 s1') →
  coupled Q2 (bind c k) (bind c' k') s s'.
Proof.
  unfold coupled, bind. intros [Heq HQ] Hk.
  destruct (c s) as [[a|e] s1], (c' s') as [[a'|e'] s1']; simpl in *;
    try discriminate.
  - injection Heq as <-. apply Hk. apply (HQ a eq_refl).
  - injection Heq as <-. split; [done|]. intros a [=].
Qed.

Lemma coupled_mono {A} (Q Q' : state → state → Prop) (c c' : M state A) s s' :
  coupled Q c c' s s' → (∀ s1 s1', Q s1 s1' → Q' s1 s1') →
  coupled Q' c c' s s'.
Proof. intros [Heq HQ] Himp. split; [done|]. intros a Ha. eapply Himp, HQ, Ha. Qed.

Lemma coupled_frame {A} (Q : state → state → Prop) S S' (c c' : M state A) s s' :
  coupled Q c c' s s' → touches_only S c → touches_only S' c' →
  coupled (λ s1 s1', Q s1 s1' ∧ agree_outside S s s1 ∧ agree_outside S' s' s1')
          c c' s s'.
Proof.
  intros [Heq HQ] Ht Ht'. split; [done|]. intros a Ha.
  split; [by eapply HQ|]. split; [apply Ht | apply Ht'].
Qed.

Lemma coupled_readonly {A} (Q : state → state → Prop) (c c' : M state A) s s' :
  readonly c → readonly c' → (c s).1 = (c' s').1 → Q s s' →
  coupled Q c c' s s'.
Proof. intros Hc Hc' Heq HQ. split; [done|]. intros _ _. by rewrite Hc, Hc'. Qed.

Lemma coupled_readonly_after {A} (Q : state → state → Prop)
    (c c' : M state A) s s' :
  (c s).1 = (c' s').1 → Q (c s).2 (c' s').2 → coupled Q c c' s s'.
Proof. intros Heq HQ. split; [done|]. by intros _ _. Qed.

(** [e] and [e'] answer every call alike: [transform] when what can be read
    of them is the same; [fit] and [fit_transform] always, leaving the same
    to be read; and their members, where they have any. *)
Definition alike (e e' : est) : Prop :=
  (∀ X s s', view s e = view s' e' →
             (transform e X s).1 = (transform e' X s').1) ∧
  (∀ X s s', coupled (λ s1 s1', view s1 e = view s1' e')
                     (fit e X) (fit e' X) s s') ∧
  (∀ X s s', coupled (λ s1 s1', view s1 e = view s1' e')
                     (fit_transform e X) (fit_transform e' X) s s') ∧
  match m_transformer_list (methods_of e), m_transformer_list (methods_of e') with
  | Ok tl, Ok tl' =>
      Forall2 (λ t t', t.1 = t'.1 ∧
                       ∀ X s s', view s e = view s' e' →
                                 (t.2 X s).1 = (t'.2 X s').1) tl tl'
  | Raise x, Raise x' => x = x'
  | _, _ => False
  end.

Lemma NoDup_members (t : string * est) (ts : list (string * est)) :
  NoDup (concat (map (λ t, est_ids t.2) (t :: ts))) →
  NoDup (est_ids t.2) ∧
  NoDup (concat (map (λ t, est_ids t.2) ts)) ∧
  ∀ l, l ∈ est_ids t.2 → l ∉ concat (map (λ t, est_ids t.2) ts).
Proof.
  simpl. intros (H1 & H2 & H3)%NoDup_app. split; [done|]. split; [done|].
  intros l Hl Hl'. by apply (H2 l).
Qed.

Lemma members_well_behaved (ts : list (string * est)) :
  Forall (well_behaved (concat (map (λ t, est_ids t.2) ts)))
         (map (λ t, methods_of t.2) ts).
Proof.
  apply Forall_fmap, Forall_forall. intros t Ht.
  eapply well_behaved_mono; [|apply methods_of_well_behaved].
  intros l Hl. apply list_elem_of_In, in_concat. exists (est_ids t.2).
  split; [|by apply list_elem_of_In].
  apply in_map_iff. exists t. split; [done | by apply list_elem_of_In].
Qed.

(** *** Chains *)

Lemma Pipeline_transform_alike (ts ts' : list (string * est)) :
  Forall2 (λ t t', alike t.2 t'.2) ts ts' →
  ∀ X s s',
    map (λ t, view s t.2) ts = map (λ t, view s' t.2) ts' →
    (Pipeline_transform (map (λ t, methods_of t.2) ts) X s).1 =
    (Pipeline_transform (map (λ t, methods_of t.2) ts') X s').1.
Proof.
  induction 1 as [|t t' ts ts' Ht _ IH]; intros X s s' Hv; simpl in *; [done|].
  injection Hv as Hv1 Hv2. rewrite !bind_fst.
  destruct Ht as (HT & _). specialize (HT X s s' Hv1). unfold transform in HT.
  rewrite <- HT.
  destruct (m_transform (methods_of t.2) X s).1 as [Xt|e] eqn:E; [|done].
  pose proof (transform_readonly t.2 X s) as Hro.
  pose proof (transform_readonly t'.2 X s') as Hro'.
  unfold transform in Hro, Hro'. rewrite Hro, Hro'. by apply IH.
Qed.

Lemma Pipeline_fit_alike (ts ts' : list (string * est)) :
  Forall2 (λ t t', alike t.2 t'.2) ts ts' →
  NoDup (concat (map (λ t, est_ids t.2) ts)) →
  NoDup (concat (map (λ t, est_ids t.2) ts')) →
  ∀ X s s',
    coupled (λ s1 s1', map (λ t, view s1 t.2) ts = map (λ t, view s1' t.2) ts')
            (Pipeline_fit (map (λ t, methods_of t.2) ts) X)
            (Pipeline_fit (map (λ t, methods_of t.2) ts') X) s s'.
Proof.
  induction 1 as [|t t' ts ts' Ht Hts IH]; intros Hnd Hnd' X s s'.
  - split; [done|]. intros a [=].
  - apply NoDup_members in Hnd as (_ & Hnd & Hdis).
    apply NoDup_members in Hnd' as (_ & Hnd' & Hdis').
    destruct Ht as (_ & HF & HFT & _).
    destruct Hts as [|t2 t2' ts2 ts2' Ht2 Hts2].
    + simpl. eapply coupled_mono; [apply HF|]. intros s1 s1' Hv. by rewrite Hv.
    + change (coupled
        (λ s1 s1', map (λ t, view s1 t.2) (t :: t2 :: ts2) =
                   map (λ t, view s1' t.2) (t' :: t2' :: ts2'))
        (do Xt <- m_fit_transform (methods_of t.2) X;
         Pipeline_fit (map (λ t, methods_of t.2) (t2 :: ts2)) Xt)
        (do Xt <- m_fit_transform (methods_of t'.2) X;
         Pipeline_fit (map (λ t, methods_of t.2) (t2' :: ts2')) Xt) s s').
      eapply coupled_bind; [apply HFT|]. intros Xt s1 s1' Hv1.
      eapply coupled_mono.
      * eapply coupled_frame; [by apply IH | |].
        -- apply Pipeline_well_behaved, members_well_behaved.
        -- apply Pipeline_well_behaved, members_well_behaved.
      * intros s2 s2' (Hv2 & Hfr & Hfr'). cbn [map]. cbn [map] in Hv2.
        rewrite Hv2. f_equal.
        rewrite (view_frame _ s1 s2 t.2 Hfr), (view_frame _ s1' s2' t'.2 Hfr');
          auto.
Qed.

Lemma Pipeline_fit_transform_alike (ts ts' : list (string * est)) :
  Forall2 (λ t t', alike t.2 t'.2) ts ts' →
  NoDup (concat (map (λ t, est_ids t.2) ts)) →
  NoDup (concat (map (λ t, est_ids t.2) ts')) →
  ∀ X s s',
    coupled (λ s1 s1', map (λ t, view s1 t.2) ts = map (λ t, view s1' t.2) ts')
            (Pipeline_fit_transform (map (λ t, methods_of t.2) ts) X)
            (Pipeline_fit_transform (map (λ t, methods_of t.2) ts') X) s s'.
Proof.
  induction 1 as [|t t' ts ts' Ht Hts IH]; intros Hnd Hnd' X s s'.
  - split; [done|]. intros a [=].
  - apply NoDup_members in Hnd as (_ & Hnd & Hdis).
    apply NoDup_members in Hnd' as (_ & Hnd' & Hdis').
    destruct Ht as (_ & _ & HFT & _).
    destruct Hts as [|t2 t2' ts2 ts2' Ht2 Hts2].
    + simpl. eapply coupled_mono; [apply HFT|]. intros s1 s1' Hv. by rewrite Hv.
    + change (coupled
        (λ s1 s1', map (λ t, view s1 t.2) (t :: t2 :: ts2) =
                   map (λ t, view s1' t.2) (t' :: t2' :: ts2'))
        (do Xt <- m_fit_transform (methods_of t.2) X;
         Pipeline_fit_transform (map (λ t, methods_of t.2) (t2 :: ts2)) Xt)
        (do Xt <- m_fit_transform (methods_of t'.2) X;
         Pipeline_fit_transform (map (λ t, methods_of t.2) (t2' :: ts2')) Xt)
        s s').
      eapply coupled_bind; [apply HFT|]. intros Xt s1 s1' Hv1.
      eapply coupled_mono.
      * eapply coupled_frame; [by apply IH | |].
        -- apply Pipeline_well_behaved, members_well_behaved.
        -- apply Pipeline_well_behaved, members_well_behaved.
      * intros s2 s2' (Hv2 & Hfr & Hfr'). cbn [map]. cbn [map] in Hv2.
        rewrite Hv2. f_equal.
        rewrite (view_frame _ s1 s2 t.2 Hfr), (view_frame _ s1' s2' t'.2 Hfr');
          auto.
Qed.
(** *** Unions *)

Lemma named_members_well_behaved (ts : list (string * est)) :
  Forall (λ t : string * methods,
            well_behaved (concat (map (λ t, est_ids t.2) ts)) t.2)
         (map (λ t, (t.1, methods_of t.2)) ts).
Proof.
  apply Forall_fmap, Forall_forall. intros t Ht.
  eapply well_behaved_mono; [|apply methods_of_well_behaved].
  intros l Hl. apply list_elem_of_In, in_concat. exists (est_ids t.2).
  split; [|by apply list_elem_of_In].
  apply in_map_iff. exists t. split; [done | by apply list_elem_of_In].
Qed.

Lemma coupled_step {A B} (Q : state → state → Prop)
    (c c' : M state A) (k k' : A → M state B) s s' a a' s1 s1' :
  c s = (Ok a, s1) → c' s' = (Ok a', s1') →
  coupled Q (k a) (k' a') s1 s1' →
  coupled Q (bind c k) (bind c' k') s s'.
Proof.
  unfold coupled. intros H H'.
  by rewrite (bind_Ok _ _ _ _ _ H), (bind_Ok _ _ _ _ _ H').
Qed.

Lemma coupled_raise {A B} (Q : state → state → Prop)
    (c c' : M state A) (k k' : A → M state B) s s' e s1 s1' :
  c s = (Raise e, s1) → c' s' = (Raise e, s1') →
  coupled Q (bind c k) (bind c' k') s s'.
Proof.
  unfold coupled. intros H H'.
  rewrite (bind_Raise _ _ _ _ _ H), (bind_Raise _ _ _ _ _ H').
  split; [done|]. intros a [=].
Qed.

Lemma FeatureUnion_fit_alike (ts ts' : list (string * est)) :
  Forall2 (λ t t', alike t.2 t'.2) ts ts' →
  NoDup (concat (map (λ t, est_ids t.2) ts)) →
  NoDup (concat (map (λ t, est_ids t.2) ts')) →
  ∀ X s s',
    coupled (λ s1 s1', map (λ t, view s1 t.2) ts = map (λ t, view s1' t.2) ts')
            (FeatureUnion_fit (map (λ t, (t.1, methods_of t.2)) ts) X)
            (FeatureUnion_fit (map (λ t, (t.1, methods_of t.2)) ts') X) s s'.
Proof.
  induction 1 as [|t t' ts ts' Ht Hts IH]; intros Hnd Hnd' X s s'.
  - split; [done|]. by intros _ _.
  - apply NoDup_members in Hnd as (_ & Hnd & Hdis).
    apply NoDup_members in Hnd' as (_ & Hnd' & Hdis').
    destruct Ht as (_ & HF & _ & _).
    change (coupled
      (λ s1 s1', map (λ t, view s1 t.2) (t :: ts) =
                 map (λ t, view s1' t.2) (t' :: ts'))
      (m_fit (methods_of t.2) X ;;
       FeatureUnion_fit (map (λ t, (t.1, methods_of t.2)) ts) X)
      (m_fit (methods_of t'.2) X ;;
       FeatureUnion_fit (map (λ t, (t.1, methods_of t.2)) ts') X) s s').
    eapply coupled_bind; [apply HF|]. intros [] s1 s1' Hv1.
    eapply coupled_mono.
    + eapply coupled_frame; [by apply IH | |].
      * apply FeatureUnion_well_behaved, named_members_well_behaved.
      * apply FeatureUnion_well_behaved, named_members_well_behaved.
    + intros s2 s2' (Hv2 & Hfr & Hfr'). cbn [map]. rewrite Hv2. f_equal.
      rewrite (view_frame _ s1 s2 t.2 Hfr), (view_frame _ s1' s2' t'.2 Hfr');
        auto.
Qed.

Lemma members_transform_alike (ts ts' : list (string * est)) :
  Forall2 (λ t t', alike t.2 t'.2) ts ts' →
  ∀ X s s',
    map (λ t, view s t.2) ts = map (λ t, view s' t.2) ts' →
    (mapM (λ t : string * methods, m_transform t.2 X)
          (map (λ t, (t.1, methods_of t.2)) ts) s).1 =
    (mapM (λ t : string * methods, m_transform t.2 X)
          (map (λ t, (t.1, methods_of t.2)) ts') s').1.
Proof.
  induction 1 as [|t t' ts ts' Ht _ IH]; intros X s s' Hv; simpl in *; [done|].
  injection Hv as Hv1 Hv2. rewrite !bind_fst.
  destruct Ht as (HT & _). specialize (HT X s s' Hv1). unfold transform in HT.
  rewrite <- HT.
  destruct (m_transform (methods_of t.2) X s).1 as [Xt|e] eqn:E; [|done].
  pose proof (transform_readonly t.2 X s) as Hro.
  pose proof (transform_readonly t'.2 X s') as Hro'.
  unfold transform in Hro, Hro'. rewrite Hro, Hro'.
  rewrite !bind_fst, (IH X s s' Hv2).
  by destruct (mapM _ _ s').1.
Qed.

Lemma members_fit_transform_alike (ts ts' : list (string * est)) :
  Forall2 (λ t t', alike t.2 t'.2) ts ts' →
  NoDup (concat (map (λ t, est_ids t.2) ts)) →
  NoDup (concat (map (λ t, est_ids t.2) ts')) →
  ∀ X s s',
    coupled (λ s1 s1', map (λ t, view s1 t.2) ts = map (λ t, view s1' t.2) ts')
            (mapM (λ t : string * methods, m_fit_transform t.2 X)
                  (map (λ t, (t.1, methods_of t.2)) ts))
            (mapM (λ t : string * methods, m_fit_transform t.2 X)
                  (map (λ t, (t.1, methods_of t.2)) ts')) s s'.
Proof.
  induction 1 as [|t t' ts ts' Ht Hts IH]; intros Hnd Hnd' X s s'.
  - split; [done|]. by intros _ _.
  - apply NoDup_members in Hnd as (_ & Hnd & Hdis).
    apply NoDup_members in Hnd' as (_ & Hnd' & Hdis').
    destruct Ht as (_ & _ & HFT & _).
    cbn [map mapM].
    eapply coupled_bind; [apply HFT|]. intros Xt s1 s1' Hv1.
    eapply coupled_bind.
    + eapply coupled_frame; [by apply IH | |].
      * apply touches_mapM. eapply Forall_impl;
          [apply named_members_well_behaved|]. intros m Hm. apply Hm.
      * apply touches_mapM. eapply Forall_impl;
          [apply named_members_well_behaved|]. intros m Hm. apply Hm.
    + intros Xs s2 s2' (Hv2 & Hfr & Hfr'). apply coupled_readonly; try done.
      rewrite Hv2. f_equal.
      rewrite (view_frame _ s1 s2 t.2 Hfr), (view_frame _ s1' s2' t'.2 Hfr');
        auto.
Qed.
(** *** Cross-product transformers *)

Lemma view_setattrs l f (s : state) (e : est) :
  l ∉ est_ids e → view (setattrs l f s).2 e = view s e.
Proof.
  intros Hl. apply view_agree. intros l0 Hl0. simpl.
  apply lookup_insert_ne. by intros ->.
Qed.

Lemma getattr_split_marks_eq l (s : state) :
  getattr_split_marks_ l s =
    (match split_marks_ (attrs_of s l) with
     | Some d => Ok d
     | None => Raise AttributeError
     end, s).
Proof.
  unfold getattr_split_marks_, bind, getattrs.
  by destruct (split_marks_ (attrs_of s l)).
Qed.

Lemma setattrs_run l f (s : state) :
  setattrs l f s = (Ok tt, (setattrs l f s).2).
Proof. done. Qed.

Lemma fit_loop_alike l l' (u u' : est) (X : mat)
    (tl tl' : list (string * (mat → M state mat))) :
  Forall2 (λ t t', t.1 = t'.1 ∧
                   ∀ X s s', view s u = view s' u' →
                             (t.2 X s).1 = (t'.2 X s').1) tl tl' →
  Forall (λ t, ∀ X, readonly (t.2 X)) tl →
  Forall (λ t, ∀ X, readonly (t.2 X)) tl' →
  l ∉ est_ids u → l' ∉ est_ids u' →
  ∀ lo s s',
    view s u = view s' u' →
    split_marks_ (attrs_of s l) = split_marks_ (attrs_of s' l') →
    coupled (λ s1 s1', view s1 u = view s1' u' ∧
                       split_marks_ (attrs_of s1 l) =
                       split_marks_ (attrs_of s1' l'))
            (fit_loop l X tl lo) (fit_loop l' X tl' lo) s s'.
Proof.
  intros Htl Hro Hro' Hl Hl'.
  induction Htl as [|[n tfm] [n' tfm'] tl tl' [Hn Ht] _ IH];
    intros lo s s' Hv Hsm.
  - by apply coupled_readonly.
  - simpl in Hn. subst n'.
    apply Forall_cons in Hro as [Hr Hro]. apply Forall_cons in Hro' as [Hr' Hro'].
    specialize (IH Hro Hro'). simpl in *.
    eapply (coupled_bind (λ s1 s1', s1 = s ∧ s1' = s')).
    { split; [by apply Ht|]. intros _ _. by rewrite Hr, Hr'. }
    intros Xp s1 s1' [-> ->].
    destruct (split_marks_ (attrs_of s l)) as [d|] eqn:Ed.
    + eapply coupled_step.
      { rewrite getattr_split_marks_eq, Ed. reflexivity. }
      { rewrite getattr_split_marks_eq, <- Hsm. reflexivity. }
      unfold setattr_split_marks_.
      eapply coupled_step; [apply setattrs_run | apply setattrs_run |].
      apply IH.
      * by rewrite !view_setattrs.
      * by rewrite !attrs_of_setattrs, !decide_True.
    + eapply coupled_raise.
      * rewrite getattr_split_marks_eq, Ed. reflexivity.
      * rewrite getattr_split_marks_eq, <- Hsm. reflexivity.
Qed.

Lemma CrossPolyPipeline_fit_alike l l' (u u' : est) :
  alike u u' → l ∉ est_ids u → l' ∉ est_ids u' →
  ∀ X s s',
    coupled (λ s1 s1', view s1 (CrossPolyPipeline l u) =
                       view s1' (CrossPolyPipeline l' u'))
            (CrossPolyPipeline_fit l (methods_of u) X)
            (CrossPolyPipeline_fit l' (methods_of u') X) s s'.
Proof.
  intros (_ & HF & _ & Hmem) Hl Hl' X s s'.
  destruct (methods_of_well_behaved u) as (Hfr & _ & _ & Hro).
  destruct (methods_of_well_behaved u') as (Hfr' & _ & _ & Hro').
  unfold CrossPolyPipeline_fit, setattr_split_marks_.
  eapply coupled_step; [apply setattrs_run | apply setattrs_run |].
  match goal with
  | |- coupled _ _ _ ?a ?a' => set (s_a := a); set (s_a' := a')
  end.
  eapply coupled_bind.
  { eapply coupled_frame; [apply (HF X s_a s_a') | apply Hfr | apply Hfr']. }
  intros [] s_b s_b' (Hv & [_ Hout] & [_ Hout']).
  assert (Hsm : split_marks_ (attrs_of s_b l) = split_marks_ (attrs_of s_b' l')).
  { unfold attrs_of. rewrite Hout, Hout' by done. subst s_a s_a'. simpl.
    by rewrite !lookup_insert_eq. }
  destruct (m_transformer_list (methods_of u)) as [tl|x] eqn:Etl,
           (m_transformer_list (methods_of u')) as [tl'|x'] eqn:Etl';
    try done.
  - eapply coupled_step; [reflexivity | reflexivity |].
    eapply coupled_bind.
    + apply (fit_loop_alike l l' u u' X tl tl'); auto.
    + intros n s_c s_c' [Hvc Hsmc].
      apply coupled_readonly_after; [done|].
      unfold setattr_shape_out_. cbn [view].
      rewrite !attrs_of_setattrs, !decide_True by done.
      rewrite !view_setattrs by done. simpl. by rewrite Hsmc, Hvc.
  - subst x'. by eapply coupled_raise.
Qed.

Lemma CrossPolyPipeline_transform_alike l l' (u u' : est) :
  alike u u' →
  ∀ X s s',
    view s (CrossPolyPipeline l u) = view s' (CrossPolyPipeline l' u') →
    (CrossPolyPipeline_transform mul promote l (methods_of u) X s).1 =
    (CrossPolyPipeline_transform mul promote l' (methods_of u') X s').1.
Proof.
  intros (HT & _) X s s' Hv. simpl in Hv. injection Hv as Hsm _ Hvu.
  specialize (HT X s s' Hvu). unfold transform in HT.
  pose proof (transform_readonly u X s) as Hro.
  pose proof (transform_readonly u' X s') as Hro'.
  unfold transform in Hro, Hro'.
  unfold CrossPolyPipeline_transform. rewrite !bind_fst, <- HT, Hro, Hro'.
  destruct (m_transform (methods_of u) X s).1 as [X_tfm|e]; [|done].
  rewrite !bind_fst, !getattr_split_marks_eq. simpl. rewrite Hsm.
  by destruct (split_marks_ (attrs_of s' l')).
Qed.
(** *** Any two objects of one skeleton *)

Lemma skeleton_members (ts ts' : list (string * est)) :
  map (λ s, (s.1, skeleton s.2)) ts = map (λ s, (s.1, skeleton s.2)) ts' →
  Forall2 (λ t t', t.1 = t'.1 ∧ skeleton t.2 = skeleton t'.2) ts ts'.
Proof.
  revert ts'. induction ts as [|t ts IH]; intros [|t' ts']; simpl;
    try discriminate; [constructor|].
  intros [= H1 H2 H3]. constructor; auto.
Qed.

Lemma alike_members (ts ts' : list (string * est)) :
  Forall (λ t, ∀ e', skeleton t.2 = skeleton e' →
                     NoDup (est_ids t.2) → NoDup (est_ids e') → alike t.2 e') ts →
  Forall2 (λ t t', t.1 = t'.1 ∧ skeleton t.2 = skeleton t'.2) ts ts' →
  NoDup (concat (map (λ t, est_ids t.2) ts)) →
  NoDup (concat (map (λ t, est_ids t.2) ts')) →
  Forall2 (λ t t', alike t.2 t'.2) ts ts'.
Proof.
  intros IH Hsk. induction Hsk as [|t t' ts ts' [_ Ht] _ IHts];
    intros Hnd Hnd'; [constructor|].
  apply Forall_cons in IH as [IHt IH].
  apply NoDup_members in Hnd as (Hndt & Hnd & _).
  apply NoDup_members in Hnd' as (Hndt' & Hnd' & _).
  constructor; auto.
Qed.

Lemma Leaf_transform_fst l cls hp (X : mat) (s : state) :
  (Leaf_transform leaf_transform l cls hp X s).1 =
    match fitted_on (attrs_of s l) with
    | Some X_fit => Ok (leaf_transform cls hp X_fit X)
    | None => Raise NotFittedError
    end.
Proof.
  unfold Leaf_transform, bind, getattrs. by destruct (fitted_on (attrs_of s l)).
Qed.

Lemma union_members_alike l l' (pre pre' ts ts' : list (string * est)) :
  Forall2 (λ t t', t.1 = t'.1 ∧ alike t.2 t'.2) ts ts' →
  length pre = length pre' →
  Forall2 (λ t t' : string * (mat → M state mat),
             t.1 = t'.1 ∧
             ∀ X s s', view s (FeatureUnion l (pre ++ ts)) =
                       view s' (FeatureUnion l' (pre' ++ ts')) →
                       (t.2 X s).1 = (t'.2 X s').1)
          (map (λ t, (t.1, m_transform (methods_of t.2))) ts)
          (map (λ t, (t.1, m_transform (methods_of t.2))) ts').
Proof.
  intros Hts. revert pre pre'.
  induction Hts as [|t t' ts ts' [Hn (HT & _)] _ IH]; intros pre pre' Hlen;
    simpl; [constructor|].
  constructor.
  - split; [done|]. simpl. intros X s s' Hv. apply HT.
    simpl in Hv. injection Hv as Hv. rewrite !map_app in Hv.
    apply app_inj_1 in Hv as [_ Hv]; [|by rewrite !length_map].
    simpl in Hv. by injection Hv.
  - specialize (IH (pre ++ [t]) (pre' ++ [t'])).
    rewrite <- !app_assoc in IH. simpl in IH. apply IH.
    rewrite !length_app. simpl. lia.
Qed.

Local Ltac split4 := split; [|split; [|split]].

(** Objects of the same skeleton, neither sharing an object between two of
    its positions, answer every call alike. *)
Lemma alike_of_skeleton (e : est) :
  ∀ e', skeleton e = skeleton e' →
        NoDup (est_ids e) → NoDup (est_ids e') → alike e e'.
Proof.
  induction e as [l cls hp|l steps IH|l tl IH|l u IH|l p IH] using est_ind';
    intros [l' cls' hp'|l' steps'|l' tl'|l' u'|l' p'] Hsk Hnd Hnd';
    simpl in Hsk; try discriminate.
  - (* framework estimators *)
    injection Hsk as <- <-. split4.
    + intros X s s' [= Hf]. unfold transform. simpl.
      by rewrite !Leaf_transform_fst, Hf.
    + intros X s s'. unfold fit. simpl. apply coupled_readonly_after; [done|].
      unfold Leaf_fit. cbn [view]. by rewrite !attrs_of_setattrs, !decide_True.
    + intros X s s'. unfold fit_transform. simpl. unfold Leaf_fit.
      eapply coupled_step; [apply setattrs_run | apply setattrs_run |].
      apply coupled_readonly_after.
      * by rewrite !Leaf_transform_fst, !attrs_of_setattrs, !decide_True.
      * pose proof (readonly_Leaf_transform l cls hp X) as Hr.
        pose proof (readonly_Leaf_transform l' cls hp X) as Hr'.
        rewrite Hr, Hr'. cbn [view].
        by rewrite !attrs_of_setattrs, !decide_True.
    + done.
  - (* chains *)
    injection Hsk as Hsk. apply skeleton_members in Hsk.
    apply NoDup_cons in Hnd as [_ Hnd]. apply NoDup_cons in Hnd' as [_ Hnd'].
    pose proof (alike_members _ _ IH Hsk Hnd Hnd') as Hal. split4.
    + intros X s s' [= Hv]. by apply Pipeline_transform_alike.
    + intros X s s'. eapply coupled_mono; [by apply Pipeline_fit_alike|].
      intros s1 s1' Hv. simpl. by rewrite Hv.
    + intros X s s'.
      eapply coupled_mono; [by apply Pipeline_fit_transform_alike|].
      intros s1 s1' Hv. simpl. by rewrite Hv.
    + done.
  - (* unions *)
    injection Hsk as Hsk. apply skeleton_members in Hsk.
    apply NoDup_cons in Hnd as [_ Hnd]. apply NoDup_cons in Hnd' as [_ Hnd'].
    pose proof (alike_members _ _ IH Hsk Hnd Hnd') as Hal. split4.
    + intros X s s' [= Hv]. unfold transform. simpl.
      unfold FeatureUnion_transform. rewrite !bind_fst.
      rewrite (members_transform_alike _ _ Hal X s s' Hv).
      by destruct (mapM _ _ s').1.
    + intros X s s'. eapply coupled_mono; [by apply FeatureUnion_fit_alike|].
      intros s1 s1' Hv. simpl. by rewrite Hv.
    + intros X s s'. unfold fit_transform. simpl.
      unfold FeatureUnion_fit_transform.
      eapply coupled_bind; [by apply members_fit_transform_alike|].
      intros Xs s1 s1' Hv. apply coupled_readonly_after; [done|].
      simpl. by rewrite Hv.
    + simpl. rewrite !map_map. simpl.
      apply (union_members_alike l l' [] [] tl tl'); [|done].
      clear -Hsk Hal. induction Hsk as [|t t' ts ts' [Hn _] _ IHts];
        [constructor|].
      apply Forall2_cons in Hal as [Ht Hal]. constructor; auto.
  - (* cross-product transformers *)
    injection Hsk as Hsk.
    apply NoDup_cons in Hnd as [Hl Hnd]. apply NoDup_cons in Hnd' as [Hl' Hnd'].
    pose proof (IH u' Hsk Hnd Hnd') as Hal. split4.
    + intros X s s' Hv. by apply CrossPolyPipeline_transform_alike.
    + intros X s s'. by apply CrossPolyPipeline_fit_alike.
    + intros X s s'. unfold fit_transform. simpl.
      eapply coupled_bind; [by apply CrossPolyPipeline_fit_alike|].
      intros [] s1 s1' Hv. apply coupled_readonly; try done.
      * intros s0. by apply readonly_CrossPolyPipeline_transform,
                            methods_of_well_behaved.
      * intros s0. by apply readonly_CrossPolyPipeline_transform,
                            methods_of_well_behaved.
      * by apply CrossPolyPipeline_transform_alike.
    + simpl. destruct Hal as (_ & _ & _ & Hmem).
      destruct (m_transformer_list (methods_of u)),
               (m_transformer_list (methods_of u')); try done.
      eapply Forall2_impl; [exact Hmem|]. intros t t' [Hn Ht].
      split; [done|]. intros X s s' Hv. apply Ht.
      simpl in Hv. by injection Hv.
  - (* pipeline values *)
    injection Hsk as Hsk.
    apply NoDup_cons in Hnd as [_ Hnd]. apply NoDup_cons in Hnd' as [_ Hnd'].
    destruct (IH p' Hsk Hnd Hnd') as (HT & HF & HFT & _). split4.
    + intros X s s' [= Hv]. by apply HT.
    + intros X s s'. eapply coupled_mono; [apply HF|].
      intros s1 s1' Hv. simpl. by rewrite Hv.
    + intros X s s'. eapply coupled_mono; [apply HFT|].
      intros s1 s1' Hv. simpl. by rewrite Hv.
    + done.
Qed.
(** *** The layout of a sum and of a list *)

Lemma class_name_skeleton (e e' : est) :
  skeleton e = skeleton e' → class_name e = class_name e'.
Proof. destruct e, e'; simpl; try discriminate; congruence. Qed.

Lemma zip_skeleton (ns : list string) (es : list est) :
  map (λ s, (s.1, skeleton s.2)) (zip ns es) = zip ns (skeleton <$> es).
Proof.
  revert es. induction ns as [|n ns IH]; intros [|e es]; simpl; try done.
  by rewrite IH.
Qed.

Lemma NoDup_tracker (A C : list loc) lo hi lu self :
  NoDup A → NoDup C →
  (∀ l, l ∈ A → l < lo) → (∀ l, l ∈ C → lo ≤ l < hi) →
  lo ≤ hi → hi ≤ lu → lu < self →
  NoDup (self :: lu :: A ++ C).
Proof.
  intros HA HC HAlo HChi Hlohi Hlu Hself.
  assert (Hin : ∀ l, l ∈ A ++ C → l < hi ∨ l < lo).
  { intros l [Hl|Hl]%elem_of_app; [right; by apply HAlo|left; by apply HChi]. }
  apply NoDup_cons. split.
  { intros [->|Hl]%elem_of_cons; [lia|]. apply Hin in Hl. lia. }
  apply NoDup_cons. split.
  { intros Hl%Hin. lia. }
  apply NoDup_app. split; [done|]. split; [|done].
  intros l Hl Hl'. apply HAlo in Hl. apply HChi in Hl'. lia.
Qed.
Lemma fitted_layout_outcome (u : est) (X : mat) (s : state) :
  has_transformer_list u = true →
  layout_outcome (fitted_layout u X s).1 =
    match fit (CrossPolyPipeline (next_id s) u) X
              (State (S (next_id s)) (store s)) with
    | (Ok _, s1) =>
        Ok (split_marks_ (attrs_of s1 (next_id s)),
            shape_out_ (attrs_of s1 (next_id s)))
    | (Raise e, _) => Raise e
    end.
Proof.
  intros Htl.
  destruct (getattr_transformer_list_Ok u (State (S (next_id s)) (store s)) Htl)
    as [tl Hget].
  assert (Hinit : CrossPolyPipeline__init__ (VObj u) s =
                  (Ok (CrossPolyPipeline (next_id s) u),
                   State (S (next_id s)) (store s))).
  { unfold CrossPolyPipeline__init__. erewrite bind_Ok; [|reflexivity].
    erewrite bind_Ok; [reflexivity|exact Hget]. }
  unfold fitted_layout. erewrite bind_Ok; [|exact Hinit].
  unfold bind. simpl id_of.
  by destruct (fit _ X _) as [[[]|e] s1].
Qed.

(** C9. Let [a], [b], [c] wrap three distinct transformers that share no
    object, [a]'s not being a union.  The cross-product tracker fitted on the
    union that [(a + b) + c] builds and the one fitted on the union made at
    once from the three transformers end alike: with the same split marks
    (names, order, widths) and the same total, or else with the same
    exception. *)
Theorem sum_layout_matches_list_layout ia ib ic (pa pb pc : est) (X : mat)
    (st : state) :
  is_FeatureUnion pa = false →
  constructible pc = true →
  NoDup (est_ids pa ++ est_ids pb ++ est_ids pc) →
  (∀ l, l ∈ est_ids pa ++ est_ids pb ++ est_ids pc → l < next_id st) →
  layout_outcome
    (layout_of_sum (PlaytimePipeline ia pa) (PlaytimePipeline ib pb)
                   (PlaytimePipeline ic pc) X st).1 =
  layout_outcome
    (layout_of_list (PlaytimePipeline ia pa) (PlaytimePipeline ib pb)
                    (PlaytimePipeline ic pc) X st).1.
Proof.
  intros Hpa Hpc Hnd Hlt.
  set (a := PlaytimePipeline ia pa). set (b := PlaytimePipeline ib pb).
  set (c := PlaytimePipeline ic pc). set (n := next_id st).
  (* the clone that [+] takes of [c]'s transformer *)
  destruct (clone_cloned pc Hpc (State (S (S n)) (store st)))
    as (pc' & st_c & Hclone & Hst_c & Hn_c & Hsk & _ & Hids).
  destruct (clone_fresh _ _ _ _ Hclone) as (Hnd_c & _ & _).
  simpl in Hst_c, Hn_c, Hids.
  set (n1 := next_id st_c) in *.
  (* the two unions *)
  set (U1 := FeatureUnion n1 (named ((named [pa; pb]).*2 ++ [pc']))).
  set (U2 := FeatureUnion n (named [pa; pb; pc])).
  assert (Hsum : layout_of_sum a b c X st =
                 fitted_layout U1 X (State (S (S n1)) (store st_c))).
  { assert (H : (do ab <- PlaytimePipeline__add__ a b;
                 do abc <- PlaytimePipeline__add__ ab c;
                 getattr_pipeline abc) st
                = (Ok U1, State (S (S n1)) (store st_c))).
    { erewrite bind_Ok; [|by apply add_plain].
      erewrite bind_Ok; [|by apply add_union]. reflexivity. }
    unfold layout_of_sum. revert H. unfold bind.
    destruct (PlaytimePipeline__add__ a b st) as [[ab|?] s1]; [|done].
    destruct (PlaytimePipeline__add__ ab c s1) as [[abc|?] s2]; [|done].
    destruct (getattr_pipeline abc s2) as [[u|?] s3]; [|done].
    by intros [= -> ->]. }
  assert (Hlist : layout_of_list a b c X st =
                  fitted_layout U2 X (State (S n) (store st))) by reflexivity.
  rewrite Hsum, Hlist, !fitted_layout_outcome by done. simpl next_id.
  simpl store. rewrite Hst_c.
  (* the two trackers have one skeleton and all their objects distinct *)
  assert (HU1 : U1 = FeatureUnion n1 (named [pa; pb; pc'])).
  { unfold U1. by rewrite named_snd. }
  rewrite HU1. clear HU1 Hsum Hlist U1.
  set (T1 := CrossPolyPipeline (S (S n1)) (FeatureUnion n1 (named [pa; pb; pc']))).
  set (T2 := CrossPolyPipeline (S n) U2).
  assert (Hskel : skeleton T1 = skeleton T2).
  { unfold T1, T2, U2, named. cbn [skeleton fmap list_fmap].
    rewrite !zip_skeleton. cbn [fmap list_fmap].
    by rewrite Hsk, (class_name_skeleton _ _ Hsk). }
  apply NoDup_app in Hnd as (Hnd_a & Hdis_a & Hnd_bc).
  assert (Hnd_ab : NoDup (est_ids pa ++ est_ids pb)).
  { apply NoDup_app in Hnd_bc as (Hnd_b & _ & _).
    apply NoDup_app. split; [done|]. split; [|done].
    intros l Hl Hl'. apply (Hdis_a l Hl). apply elem_of_app. by left. }
  assert (Hlt_ab : ∀ l, l ∈ est_ids pa ++ est_ids pb → l < S (S n)).
  { intros l [Hl|Hl]%elem_of_app.
    - assert (l < n); [|lia]. apply Hlt. apply elem_of_app. by left.
    - assert (l < n); [|lia]. apply Hlt. rewrite !elem_of_app. auto. }
  assert (Hnd1 : NoDup (est_ids T1)).
  { unfold T1. simpl. rewrite app_nil_r, app_assoc.
    by apply (NoDup_tracker _ _ (S (S n)) n1 n1 (S (S n1))); auto; lia. }
  assert (Hnd2 : NoDup (est_ids T2)).
  { unfold T2, U2. simpl. rewrite app_nil_r.
    apply NoDup_cons. split.
    { intros [Hx|Hx]%elem_of_cons; [lia|]. apply Hlt in Hx. lia. }
    apply NoDup_cons. split.
    { intros Hx. apply Hlt in Hx. lia. }
    apply NoDup_app. by split. }
  destruct (alike_of_skeleton T1 T2 Hskel Hnd1 Hnd2) as (_ & HF & _).
  destruct (HF X (State (S (S (S n1))) (store st)) (State (S (S n)) (store st)))
    as [Hout HQ].
  fold T1 T2 n.
  destruct (fit T1 X _) as [[[]|e1] s1], (fit T2 X _) as [[[]|e2] s2];
    simpl in Hout; try discriminate.
  - specialize (HQ tt eq_refl). simpl in HQ. by injection HQ as -> -> _.
  - by injection Hout as ->.
Qed.
(** ** More on [transform] *)

(** X1. [transform], on any object, writes no attribute and creates no
    object, whether it returns or raises; so calling it twice in a row is
    calling it once. *)
Theorem transform_is_repeatable (e : est) (X : mat) (st : state) :
  (transform e X st).2 = st ∧
  (transform e X ;; transform e X) st = transform e X st.
Proof.
  pose proof (transform_readonly e X st) as Hro. split; [done|].
  unfold bind. destruct (transform e X st) as [[R|x] s1] eqn:E; simpl in Hro;
    subst s1; [exact E | done].
Qed.

(** X2. [fit] and [fit_transform], on any object and whatever their outcome,
    create no object and write the attributes of the objects of the graph
    they are called on, and of no other. *)
Theorem fit_writes_inside_its_graph (e : est) (X : mat) (st : state) :
  (next_id (fit e X st).2 = next_id st ∧
   ∀ l, l ∉ est_ids e → store (fit e X st).2 !! l = store st !! l) ∧
  (next_id (fit_transform e X st).2 = next_id st ∧
   ∀ l, l ∉ est_ids e → store (fit_transform e X st).2 !! l = store st !! l).
Proof. split; [apply fit_frame | apply fit_transform_frame]. Qed.

(** X3. [transform] on a cross-product transformer that was never fitted
    raises, and leaves the state as it was: [AttributeError] for the missing
    [split_marks_] when its union does transform the input, the union's own
    exception otherwise. *)
Theorem transform_before_fit_raises self (u : est) (X : mat) (st : state) :
  split_marks_ (attrs_of st self) = None →
  ∃ x, transform (CrossPolyPipeline self u) X st = (Raise x, st) ∧
       (∀ X_tfm, (transform u X st).1 = Ok X_tfm → x = AttributeError) ∧
       (∀ x', (transform u X st).1 = Raise x' → x = x').
Proof.
  intros Hsm. pose proof (transform_readonly u X st) as Hro.
  unfold transform in *. simpl. unfold CrossPolyPipeline_transform, bind.
  destruct (m_transform (methods_of u) X st) as [[X_tfm|x] s1]; simpl in Hro;
    subst s1.
  - rewrite getattr_split_marks_eq, Hsm. exists AttributeError.
    split; [done|]. split; [done|]. discriminate.
  - exists x. split; [done|]. split; [discriminate|]. by intros x' [= ->].
Qed.

(** X4. A fitted cross-product transformer with fewer than two named blocks
    cannot transform: there is no pair, [X1] and [X2] are never bound, and
    the loop over the columns of [X2] raises [UnboundLocalError]. *)
Theorem transform_needs_two_blocks self (u : est) (X X_tfm : mat) (st : state)
    sm :
  (transform u X st).1 = Ok X_tfm →
  split_marks_ (attrs_of st self) = Some sm →
  length sm < 2 →
  transform (CrossPolyPipeline self u) X st = (Raise UnboundLocalError, st).
Proof.
  intros Hu Hattr Hlen.
  rewrite (transform_cross self u X X_tfm st sm Hu Hattr). f_equal.
  unfold cross_product.
  destruct sm as [|[n1 s1] [|[n2 s2] sm]]; simpl in *; try done. lia.
Qed.

(** X5. With exactly two named blocks the output of [transform] is what the
    enumeration of pairs promises: the column products of every pair of
    blocks, there being one pair. *)
Theorem transform_two_blocks_all_pairs self (u : est) (X X_tfm : mat)
    (st : state) na sa nb sb :
  (transform u X st).1 = Ok X_tfm →
  split_marks_ (attrs_of st self) = Some [(na, sa); (nb, sb)] →
  na ≠ nb →
  transform (CrossPolyPipeline self u) X st =
    (match block X_tfm sb with
     | [] => Raise ValueError
     | _ => Ok (Matrix (if issparse X_tfm then Sparse CSC else Dense)
                       (dtype_of X_tfm) (nrows X_tfm)
                       (all_pairs_columns mul X_tfm [sa; sb]))
     end, st).
Proof.
  intros Hu Hattr Hne.
  rewrite (transform_cross self u X X_tfm st _ Hu Hattr).
  assert (Hnd : NoDup (dict_keys [(na, sa); (nb, sb)])).
  { unfold dict_keys. cbn. apply NoDup_cons_2; [|apply NoDup_singleton].
    by intros ?%list_elem_of_singleton. }
  rewrite (cross_product_last_pair [(na, sa); (nb, sb)] X_tfm [] na sa nb sb
             eq_refl Hnd).
  unfold last_pair_product, all_pairs_columns. simpl. by rewrite app_nil_r.
Qed.

Lemma pair_columns_lookup (A B : list (list elt)) i j a b :
  A !! i = Some a → B !! j = Some b →
  pair_columns mul A B !! (j * length A + i) = Some (zip_with mul a b).
Proof.
  intros Ha. revert j. induction B as [|b0 B IH]; intros j Hb; [done|].
  change (pair_columns mul A (b0 :: B))
    with (((λ a, zip_with mul a b0) <$> A) ++ pair_columns mul A B).
  destruct j as [|j]; simpl in Hb.
  - injection Hb as ->. simpl.
    rewrite lookup_app_l by (rewrite length_fmap; by eapply lookup_lt_Some).
    by rewrite list_lookup_fmap, Ha.
  - rewrite lookup_app_r by (rewrite length_fmap; lia).
    rewrite length_fmap.
    replace (S j * length A + i - length A) with (j * length A + i) by lia.
    by apply IH.
Qed.

(** X6. Where each product lands. When [transform] returns, with [w] the
    width of the first block of the last pair, the output column of index
    [j * w + i] is column [i] of the first block times column [j] of the
    second, entry by entry: the second block's columns vary slowest. *)
Theorem product_column_index self (u : est) (X X_tfm R : mat) (st : state)
    sm pre na sa nb sb i j a b :
  (transform u X st).1 = Ok X_tfm →
  split_marks_ (attrs_of st self) = Some sm →
  sm = pre ++ [(na, sa); (nb, sb)] →
  NoDup (dict_keys sm) →
  (transform (CrossPolyPipeline self u) X st).1 = Ok R →
  block X_tfm sa !! i = Some a →
  block X_tfm sb !! j = Some b →
  ∃ c, columns R !! (j * length (block X_tfm sa) + i) = Some c ∧
       ∀ r x y, a !! r = Some x → b !! r = Some y → c !! r = Some (mul x y).
Proof.
  intros Hu Hattr Hsm Hnd HR Ha Hb.
  rewrite (transform_cross self u X X_tfm st sm Hu Hattr) in HR.
  rewrite (cross_product_last_pair sm X_tfm pre na sa nb sb Hsm Hnd) in HR.
  simpl in HR. unfold last_pair_product in HR.
  destruct (block X_tfm sb) as [|b0 B] eqn:EB; [done|].
  injection HR as <-. simpl. exists (zip_with mul a b). split.
  - by apply pair_columns_lookup.
  - intros r x y Hx Hy. by rewrite lookup_zip_with, Hx, Hy.
Qed.

(** ** What [transform] reads *)

(** The outcome of [transform] depends on the state only through what can be
    read of the object it is called on. *)
Lemma transform_local (e : est) :
  ∀ X s s', view s e = view s' e → (transform e X s).1 = (transform e X s').1.
Proof.
  induction e as [l cls hp|l steps IH|l tl IH|l u IH|l p IH] using est_ind';
    intros X s s' Hv; unfold transform in *; cbn [view] in Hv; simpl.
  - injection Hv as Hf. by rewrite !Leaf_transform_fst, Hf.
  - injection Hv as Hv. revert X Hv.
    induction IH as [|t ts Ht _ IHts]; intros X Hv; simpl in *; [done|].
    injection Hv as Hv1 Hv2. rewrite !bind_fst, <- (Ht X s s' Hv1).
    pose proof (transform_readonly t.2 X s) as Hro.
    pose proof (transform_readonly t.2 X s') as Hro'.
    unfold transform in Hro, Hro'. rewrite Hro, Hro'.
    destruct (m_transform (methods_of t.2) X s).1 as [Xt|x]; [|done].
    by apply IHts.
  - injection Hv as Hv. unfold FeatureUnion_transform. rewrite !bind_fst.
    assert (Hm : (mapM (λ t : string * methods, m_transform t.2 X)
                    (map (λ s, (s.1, methods_of s.2)) tl) s).1 =
                 (mapM (λ t : string * methods, m_transform t.2 X)
                    (map (λ s, (s.1, methods_of s.2)) tl) s').1).
    { induction IH as [|t ts Ht _ IHts]; simpl in *; [done|].
      injection Hv as Hv1 Hv2. rewrite !bind_fst, <- (Ht X s s' Hv1).
      pose proof (transform_readonly t.2 X s) as Hro.
      pose proof (transform_readonly t.2 X s') as Hro'.
      unfold transform in Hro, Hro'. rewrite Hro, Hro'.
      destruct (m_transform (methods_of t.2) X s).1 as [Xt|x]; [|done].
      rewrite !bind_fst, (IHts Hv2). by destruct (mapM _ _ s').1. }
    rewrite Hm. by destruct (mapM _ _ s').1.
  - injection Hv as Hsm _ Hvu. specialize (IH X s s' Hvu).
    pose proof (transform_readonly u X s) as Hro.
    pose proof (transform_readonly u X s') as Hro'.
    unfold transform in Hro, Hro'.
    unfold CrossPolyPipeline_transform. rewrite !bind_fst, <- IH, Hro, Hro'.
    destruct (m_transform (methods_of u) X s).1 as [X_tfm|x]; [|done].
    rewrite !bind_fst, !getattr_split_marks_eq. simpl. rewrite Hsm.
    by destruct (split_marks_ (attrs_of s' l)).
  - injection Hv as Hv. by apply IH.
Qed.

Lemma transform_frame_fst (S : list loc) (e : est) (X : mat) (s s1 : state) :
  agree_outside S s s1 → (∀ l, l ∈ est_ids e → l ∉ S) →
  (transform e X s1).1 = (transform e X s).1.
Proof. intros Hfr Hdis. apply transform_local. by eapply view_frame. Qed.


(** ** What [fit] measures *)

(** The loop of [fit], run to its end over the members of a union: the width
    it records for a member is that of the member's output on the first two
    rows of [X]. *)
Lemma fit_loop_probe self (X : mat) (tl : list (string * est)) lo (st : state)
    d n st' :
  Forall (λ t, self ∉ est_ids t.2) tl →
  split_marks_ (attrs_of st self) = Some d →
  fit_loop self X (map (λ s, (s.1, m_transform (methods_of s.2))) tl) lo st =
    (Ok n, st') →
  ∃ Ps, Forall2 (λ t P, (transform t.2 (head2 X) st').1 = Ok P) tl Ps ∧
        split_marks_ (attrs_of st' self) =
          Some (foldl (λ d p, dict_set d p.1 p.2) d
                  (zip tl.*1 (layout lo (ncols <$> Ps)))) ∧
        shape_out_ (attrs_of st' self) = shape_out_ (attrs_of st self) ∧
        n = lo + sum_list (ncols <$> Ps) ∧
        agree_outside [self] st st'.
Proof.
  intros Htl. revert lo st d.
  induction Htl as [|[name e] tl Hself _ IH]; intros lo st d Hd; simpl.
  - intros [= <- <-]. exists []. simpl. split; [constructor|].
    split; [done|]. split; [done|]. split; [lia | apply agree_outside_refl].
  - intros Hrun.
    apply bind_inv_Ok in Hrun as (Xp & st1 & Htfm & Hrun).
    pose proof (transform_readonly e (head2 X) st) as Hro.
    unfold transform in Hro. rewrite Htfm in Hro. simpl in Hro. subst st1.
    apply bind_inv_Ok in Hrun as (d0 & st1 & Hget & Hrun).
    rewrite getattr_split_marks_eq, Hd in Hget. injection Hget as <- <-.
    apply bind_inv_Ok in Hrun as ([] & st2 & Hset & Hrun).
    assert (Hst2 : st2 = (setattrs self
              (λ a, Attrs (fitted_on a)
                      (Some (dict_set d name (Slice lo (lo + ncols Xp))))
                      (shape_out_ a)) st).2)
      by (unfold setattr_split_marks_ in Hset; by rewrite Hset).
    clear Hset.
    assert (Hfr2 : agree_outside [self] st st2).
    { subst st2. apply touches_setattrs. by left. }
    eapply IH in Hrun as (Ps & HPs & Hsm & Hso & Hn & Hfr).
    2:{ subst st2. rewrite attrs_of_setattrs, decide_True by done. done. }
    exists (Xp :: Ps). split; [|split; [|split; [|split]]].
    + constructor; [|done]. simpl.
      rewrite (transform_frame_fst [self] e (head2 X) st st').
      * unfold transform. by rewrite Htfm.
      * by eapply agree_outside_trans.
      * intros l Hl ->%list_elem_of_singleton. done.
    + exact Hsm.
    + rewrite Hso. subst st2. rewrite attrs_of_setattrs.
      by rewrite decide_True.
    + rewrite fmap_cons. simpl. lia.
    + by eapply agree_outside_trans.
Qed.


Lemma transformer_list_ids (u : est) (st : state) tl :
  getattr_transformer_list u st = (Ok tl, st) →
  ∀ t, t ∈ tl → est_ids t.2 ⊆ est_ids u.
Proof.
  induction u as [| | l tl' _ | l u IH |] using est_ind'; simpl;
    try discriminate.
  - intros [= <-] t Ht. by apply members_ids_subseteq.
  - intros Hu t Ht x Hx. right. by eapply IH.
Qed.

(** A successful [fit] of a cross-product transformer records, for each
    member of the union, a slice as wide as the member's output on the first
    two rows of [X], one after the other from 0 on. *)
Lemma fit_cross_probe self (u : est) (X : mat) (st st1 : state) tl :
  fit (CrossPolyPipeline self u) X st = (Ok tt, st1) →
  getattr_transformer_list u st = (Ok tl, st) →
  self ∉ est_ids u →
  ∃ Ps, Forall2 (λ t P, (transform t.2 (head2 X) st1).1 = Ok P) tl Ps ∧
        split_marks_ (attrs_of st1 self) =
          Some (foldl (λ d p, dict_set d p.1 p.2) []
                  (zip tl.*1 (layout 0 (ncols <$> Ps)))) ∧
        shape_out_ (attrs_of st1 self) = Some (sum_list (ncols <$> Ps)).
Proof.
  intros Hfit Htl Hself.
  assert (Hmem : Forall (λ t : string * est, self ∉ est_ids t.2) tl).
  { apply Forall_forall. intros t Ht Hin. apply Hself.
    by eapply transformer_list_ids. }
  unfold fit in Hfit. simpl in Hfit. unfold CrossPolyPipeline_fit in Hfit.
  apply bind_inv_Ok in Hfit as ([] & st_a & Hset & Hfit).
  assert (Hst_a : st_a = (setattrs self
            (λ a, Attrs (fitted_on a) (Some []) (shape_out_ a)) st).2)
    by (unfold setattr_split_marks_ in Hset; by rewrite Hset).
  clear Hset.
  apply bind_inv_Ok in Hfit as ([] & st_b & Hufit & Hfit).
  apply bind_inv_Ok in Hfit as (tlm & st_b' & Hlift & Hfit).
  rewrite (transformer_list_methods u st tl Htl) in Hlift.
  injection Hlift as <- <-.
  apply bind_inv_Ok in Hfit as (n & st_c & Hloop & Hshape).
  assert (Hst1 : st1 = (setattrs self
            (λ a, Attrs (fitted_on a) (split_marks_ a) (Some n)) st_c).2)
    by (unfold setattr_shape_out_ in Hshape; by rewrite Hshape).
  clear Hshape.
  destruct (methods_of_well_behaved u) as (Hfr & _).
  assert (Hd : split_marks_ (attrs_of st_b self) = Some []).
  { pose proof (Hfr X st_a) as Hfr'. rewrite Hufit in Hfr'.
    destruct Hfr' as [_ Hfr']. unfold attrs_of. rewrite Hfr' by done.
    fold (attrs_of st_a self). subst st_a.
    by rewrite attrs_of_setattrs, decide_True. }
  eapply fit_loop_probe in Hloop as (Ps & HPs & Hsm & _ & Hn & _);
    [|done|exact Hd].
  exists Ps. split; [|split].
  - rewrite Hst1. clear Hsm Hd Htl Hst1 Hn. revert Hmem.
    induction HPs as [|t P tl Ps HP _ IH]; intros Hmem; [constructor|].
    apply Forall_cons in Hmem as [Ht Hmem]. constructor; [|by apply IH].
    rewrite <- HP. by apply transform_local, view_setattrs.
  - subst st1. by rewrite attrs_of_setattrs, decide_True.
  - subst st1 n. by rewrite attrs_of_setattrs, decide_True.
Qed.


Lemma dict_get_zip {V} (ks : list string) (vs : list V) i k v :
  NoDup ks → ks !! i = Some k → vs !! i = Some v →
  dict_get (zip ks vs) k = Some v.
Proof.
  intros Hnd. revert vs i.
  induction Hnd as [|k0 ks Hk0 _ IH]; intros [|v0 vs] [|i] Hk Hv;
    simpl in *; try done.
  - injection Hk as ->. injection Hv as ->. by rewrite String.eqb_refl.
  - destruct (String.eqb_spec k k0) as [->|_].
    + exfalso. apply Hk0. by eapply list_elem_of_lookup_2.
    + by eapply IH.
Qed.

Lemma layout_lookup lo ws i w :
  ws !! i = Some w →
  ∃ s, layout lo ws !! i = Some s ∧ lo ≤ start s ∧ stop s = start s + w.
Proof.
  revert lo i. induction ws as [|w0 ws IH]; intros lo [|i] Hw; simpl in *;
    try done.
  - injection Hw as ->. eexists. split; [done|]. simpl. lia.
  - destruct (IH (w0 + lo) i Hw) as (s & Hs & Hlo & Hstop).
    exists s. split; [done|]. split; [lia | done].
Qed.

(** In blocks stacked side by side, the consecutive slices of the blocks'
    widths designate the blocks. *)
Lemma block_layout (Xs : list mat) (pre : list (list elt)) i s Y :
  layout (length pre) (ncols <$> Xs) !! i = Some s →
  Xs !! i = Some Y →
  take (stop s - start s) (drop (start s) (pre ++ stacked_columns Xs)) =
    columns Y.
Proof.
  revert pre i. induction Xs as [|X0 Xs IH]; intros pre [|i] Hs HY;
    simpl in *; try done.
  - injection Hs as <-. injection HY as ->. simpl.
    rewrite drop_app_length. unfold stacked_columns. simpl.
    replace (length pre + ncols Y - length pre) with (length (columns Y))
      by (unfold ncols; lia).
    by rewrite take_app_length.
  - specialize (IH (pre ++ columns X0) i).
    rewrite length_app in IH.
    replace (length pre + length (columns X0)) with (ncols X0 + length pre)
      in IH by (unfold ncols; lia).
    specialize (IH Hs HY). rewrite <- IH.
    unfold stacked_columns. simpl. by rewrite <- app_assoc.
Qed.

Lemma union_transform_members (tl : list (string * est)) (X : mat)
    (st : state) Xs :
  Forall2 (λ t Y, (transform t.2 X st).1 = Ok Y) tl Xs →
  mapM (λ t : string * methods, m_transform t.2 X)
       (map (λ s, (s.1, methods_of s.2)) tl) st = (Ok Xs, st).
Proof.
  induction 1 as [|t Y tl Xs Ht _ IH]; simpl; [done|].
  pose proof (transform_readonly t.2 X st) as Hro.
  unfold transform in *.
  destruct (m_transform (methods_of t.2) X st) as [o st1] eqn:E.
  simpl in *. subst.
  erewrite bind_Ok; [|exact E]. by erewrite bind_Ok; [|exact IH].
Qed.

Lemma FeatureUnion_hstack_columns (X : mat) (Xs : list mat) R :
  FeatureUnion_hstack promote float64 X Xs = Ok R →
  columns R = stacked_columns Xs.
Proof.
  unfold FeatureUnion_hstack. destruct Xs as [|Y Xs]; [by intros [= <-]|].
  destruct (existsb issparse (Y :: Xs)).
  - unfold sparse_hstack. destruct (same_height (Y :: Xs)); [|done].
    by intros [= <-].
  - unfold np_hstack. destruct (same_height (Y :: Xs)); [|done].
    by intros [= <-].
Qed.

Lemma FeatureUnion_hstack_Ok (X : mat) (Xs : list mat) :
  same_height Xs = true →
  ∃ R, FeatureUnion_hstack promote float64 X Xs = Ok R.
Proof.
  intros Hh. unfold FeatureUnion_hstack. destruct Xs as [|Y Xs]; [eauto|].
  unfold sparse_hstack, np_hstack. rewrite Hh.
  destruct (existsb issparse (Y :: Xs)); eauto.
Qed.

Lemma FeatureUnion_hstack_nrows (X : mat) (Y : mat) (Ys : list mat) R :
  FeatureUnion_hstack promote float64 X (Y :: Ys) = Ok R →
  nrows R = nrows Y.
Proof.
  unfold FeatureUnion_hstack, sparse_hstack, np_hstack.
  destruct (existsb issparse (Y :: Ys)), (same_height (Y :: Ys));
    try done; by intros [= <-].
Qed.

(** The union's output, given its members' outputs. *)
Lemma union_transform_stacked lu (tl : list (string * est)) (X : mat)
    (st : state) Xs :
  Forall2 (λ t Y, (transform t.2 X st).1 = Ok Y) tl Xs →
  (transform (FeatureUnion lu tl) X st).1 =
    FeatureUnion_hstack promote float64 X Xs.
Proof.
  intros HXs. unfold transform. simpl. unfold FeatureUnion_transform.
  by erewrite bind_Ok; [|by apply union_transform_members].
Qed.

(** After a successful [fit] on [X] over distinctly named members, each of
    which gives on [Y] an output as wide as on the first two rows of [X], the
    mark of a member designates, in the union's output on [Y], the member's
    own output. *)
Lemma marks_designate_members self lu (tl : list (string * est)) (X Y : mat)
    (st st1 : state) Ys Y_tfm :
  fit (CrossPolyPipeline self (FeatureUnion lu tl)) X st = (Ok tt, st1) →
  self ∉ est_ids (FeatureUnion lu tl) →
  NoDup tl.*1 →
  Forall2 (λ t Yt, (transform t.2 Y st1).1 = Ok Yt ∧
                   ∀ P, (transform t.2 (head2 X) st1).1 = Ok P →
                        ncols P = ncols Yt) tl Ys →
  (transform (FeatureUnion lu tl) Y st1).1 = Ok Y_tfm →
  ∃ sm, split_marks_ (attrs_of st1 self) = Some sm ∧
        dict_keys sm = tl.*1 ∧
        ∀ i name e Yt, tl !! i = Some (name, e) → Ys !! i = Some Yt →
          ∃ s, dict_get sm name = Some s ∧ block Y_tfm s = columns Yt.
Proof.
  intros Hfit Hself Hnd HYs Hu.
  destruct (fit_cross_probe self _ X st st1 tl Hfit eq_refl Hself)
    as (Ps & HPs & Hsm & _).
  assert (Hws : ncols <$> Ps = ncols <$> Ys).
  { clear -HPs HYs. revert Ys HYs.
    induction HPs as [|t P tl Ps HP _ IH]; intros Ys HYs.
    - by apply Forall2_nil_inv_l in HYs as ->.
    - apply Forall2_cons_inv_l in HYs as (Yt & Ys' & [_ HY] & HYs & ->).
      rewrite !fmap_cons. f_equal; [by apply HY | by apply IH]. }
  assert (Hlen : length tl = length Ys) by by eapply Forall2_length.
  rewrite Hws in Hsm.
  rewrite dict_fill_fresh in Hsm;
    [|done | by rewrite length_layout, !length_fmap].
  simpl in Hsm.
  rewrite (union_transform_stacked lu tl Y st1 Ys) in Hu.
  2:{ eapply Forall2_impl; [exact HYs|]. by intros t Yt [HY _]. }
  apply FeatureUnion_hstack_columns in Hu.
  eexists. split; [exact Hsm|]. split.
  { apply fst_zip. rewrite length_layout, !length_fmap. lia. }
  intros i name e Yt Ht HY.
  destruct (layout_lookup 0 (ncols <$> Ys) i (ncols Yt)) as (s & Hs & _ & Hstop).
  { by rewrite list_lookup_fmap, HY. }
  exists s. split.
  - eapply dict_get_zip; [done| |exact Hs].
    by rewrite list_lookup_fmap, Ht.
  - unfold block. rewrite Hu.
    by apply (block_layout Ys [] i s Yt).
Qed.

(** X7. What [fit] measures.  After a successful [fit] over distinctly named
    members, every member has a mark, and the mark is as wide as the member's
    output on the first two rows of [X]: no other row of [X] has a say in the
    widths. *)
Theorem fit_measures_first_two_rows self (u : est) (X : mat) (st st1 : state)
    tl :
  fit (CrossPolyPipeline self u) X st = (Ok tt, st1) →
  getattr_transformer_list u st = (Ok tl, st) →
  self ∉ est_ids u →
  NoDup tl.*1 →
  ∃ sm, split_marks_ (attrs_of st1 self) = Some sm ∧
        ∀ name e, (name, e) ∈ tl →
          ∃ P s, (transform e (head2 X) st1).1 = Ok P ∧
                 dict_get sm name = Some s ∧
                 slice_width s = ncols P.
Proof.
  intros Hfit Htl Hself Hnd.
  destruct (fit_cross_probe self u X st st1 tl Hfit Htl Hself)
    as (Ps & HPs & Hsm & _).
  assert (Hlen : length tl = length Ps) by by eapply Forall2_length.
  rewrite dict_fill_fresh in Hsm;
    [|done | by rewrite length_layout, !length_fmap].
  simpl in Hsm. eexists. split; [exact Hsm|].
  intros name e [i Ht]%list_elem_of_lookup_1.
  destruct (Forall2_lookup_l _ _ _ _ _ HPs Ht) as (P & HP & Hrun).
  destruct (layout_lookup 0 (ncols <$> Ps) i (ncols P)) as (s & Hs & _ & Hstop).
  { by rewrite list_lookup_fmap, HP. }
  exists P, s. split; [exact Hrun|]. split.
  - eapply dict_get_zip; [done| |exact Hs].
    by rewrite list_lookup_fmap, Ht.
  - unfold slice_width. lia.
Qed.

(** X8. What the marks are for.  After a successful [fit] on [X], let [Y]
    be an input on which every member gives an output as wide as it gave at
    fit time on the first two rows of [X].  Then the mark of each member
    designates, in the output of the union on [Y], exactly the columns that
    member produced. *)
Theorem marks_select_member_outputs self lu (tl : list (string * est))
    (X Y : mat) (st st1 : state) Ys Y_tfm :
  fit (CrossPolyPipeline self (FeatureUnion lu tl)) X st = (Ok tt, st1) →
  self ∉ est_ids (FeatureUnion lu tl) →
  NoDup tl.*1 →
  Forall2 (λ t Yt, (transform t.2 Y st1).1 = Ok Yt ∧
                   ∀ P, (transform t.2 (head2 X) st1).1 = Ok P →
                        ncols P = ncols Yt) tl Ys →
  (transform (FeatureUnion lu tl) Y st1).1 = Ok Y_tfm →
  ∃ sm, split_marks_ (attrs_of st1 self) = Some sm ∧
        ∀ i name e Yt, tl !! i = Some (name, e) → Ys !! i = Some Yt →
          ∃ s, dict_get sm name = Some s ∧ block Y_tfm s = columns Yt.
Proof.
  intros Hfit Hself Hnd HYs Hu.
  destruct (marks_designate_members self lu tl X Y st st1 Ys Y_tfm
              Hfit Hself Hnd HYs Hu) as (sm & Hsm & _ & Hsel).
  eauto.
Qed.

Lemma lookup_last_two {A} (pre : list A) (a b : A) :
  (pre ++ [a; b]) !! length pre = Some a ∧
  (pre ++ [a; b]) !! S (length pre) = Some b.
Proof.
  split; [by apply list_lookup_middle|].
  rewrite lookup_app_r by lia.
  by replace (S (length pre) - length pre) with 1 by lia.
Qed.

(** The output of a fitted cross-product transformer in terms of the outputs
    of the last two members of its union. *)
Lemma product_of_last_members self lu (tl : list (string * est)) (X Y : mat)
    (st st1 : state) pre na ea nb eb Ypre YA YB :
  tl = pre ++ [(na, ea); (nb, eb)] →
  fit (CrossPolyPipeline self (FeatureUnion lu tl)) X st = (Ok tt, st1) →
  self ∉ est_ids (FeatureUnion lu tl) →
  NoDup tl.*1 →
  Forall2 (λ t Yt, (transform t.2 Y st1).1 = Ok Yt ∧
                   ∀ P, (transform t.2 (head2 X) st1).1 = Ok P →
                        ncols P = ncols Yt) tl (Ypre ++ [YA; YB]) →
  same_height (Ypre ++ [YA; YB]) = true →
  0 < ncols YB →
  ∃ R, transform (CrossPolyPipeline self (FeatureUnion lu tl)) Y st1 =
         (Ok R, st1) ∧
       columns R = pair_columns mul (columns YA) (columns YB) ∧
       ncols R = ncols YA * ncols YB ∧
       nrows R = nrows (hd YA Ypre).
Proof.
  intros Htl Hfit Hself Hnd HYs Hh HwB.
  destruct (FeatureUnion_hstack_Ok Y _ Hh) as [Y_tfm HY_tfm].
  assert (Hu : (transform (FeatureUnion lu tl) Y st1).1 = Ok Y_tfm).
  { rewrite (union_transform_stacked lu tl Y st1 (Ypre ++ [YA; YB])); [done|].
    eapply Forall2_impl; [exact HYs|]. by intros t Yt [HY _]. }
  destruct (marks_designate_members self lu tl X Y st st1 _ Y_tfm
              Hfit Hself Hnd HYs Hu) as (sm & Hsm & Hkeys & Hsel).
  assert (Hlen : length pre = length Ypre).
  { apply Forall2_length in HYs. subst tl. rewrite !length_app in HYs.
    simpl in HYs. lia. }
  destruct (lookup_last_two pre (na, ea) (nb, eb)) as [Hta Htb].
  destruct (lookup_last_two Ypre YA YB) as [HYa HYb].
  rewrite <- Htl in Hta, Htb. rewrite <- Hlen in HYa, HYb.
  destruct (Hsel _ _ _ _ Hta HYa) as (sa & Hga & Hba).
  destruct (Hsel _ _ _ _ Htb HYb) as (sb & Hgb & Hbb).
  assert (Hndk : NoDup (dict_keys sm)) by by rewrite Hkeys.
  assert (Hsplit : ∃ psm sa' sb', sm = psm ++ [(na, sa'); (nb, sb')]).
  { unfold dict_keys in Hkeys. rewrite Htl, fmap_app in Hkeys.
    apply fmap_app_inv in Hkeys as (psm & l2 & _ & Hl2 & ->).
    destruct l2 as [|[n1 s1] [|[n2 s2] [|? ?]]]; try discriminate.
    injection Hl2 as <- <-. by exists psm, s1, s2. }
  destruct Hsplit as (psm & sa' & sb' & Hsplit).
  assert (sa' = sa) as ->.
  { rewrite (dict_get_elem sm na sa' Hndk) in Hga; [by injection Hga|].
    rewrite Hsplit. apply elem_of_app. right. by left. }
  assert (sb' = sb) as ->.
  { rewrite (dict_get_elem sm nb sb' Hndk) in Hgb; [by injection Hgb|].
    rewrite Hsplit. apply elem_of_app. right. right. by left. }
  rewrite (transform_cross self _ Y Y_tfm st1 sm Hu Hsm).
  rewrite (cross_product_last_pair sm Y_tfm psm na sa nb sb Hsplit Hndk).
  unfold last_pair_product. rewrite Hba, Hbb.
  destruct (columns YB) as [|c cs] eqn:EB.
  { unfold ncols in HwB. rewrite EB in HwB. simpl in HwB. lia. }
  eexists. split; [done|]. simpl. split; [done|]. split.
  - unfold ncols. simpl. rewrite length_pair_columns, EB. done.
  - destruct Ypre; by apply FeatureUnion_hstack_nrows in HY_tfm.
Qed.

(** X9. The product of two blocks, end to end.  Let the union of a
    cross-product transformer end with members [ea] and [eb], under distinct
    names, and let [fit] on [X] have succeeded.  Let [Y] be an input on which
    every member gives an output as wide as it gave at fit time on the first
    two rows of [X], the outputs being of one height and the last not empty.
    Then [transform] on [Y] returns the column products of [ea]'s output
    with [eb]'s: as many columns as the product of the two widths. *)
Theorem product_of_member_outputs self lu (tl : list (string * est))
    (X Y : mat) (st st1 : state) pre na ea nb eb Ypre YA YB :
  tl = pre ++ [(na, ea); (nb, eb)] →
  fit (CrossPolyPipeline self (FeatureUnion lu tl)) X st = (Ok tt, st1) →
  self ∉ est_ids (FeatureUnion lu tl) →
  NoDup tl.*1 →
  Forall2 (λ t Yt, (transform t.2 Y st1).1 = Ok Yt ∧
                   ∀ P, (transform t.2 (head2 X) st1).1 = Ok P →
                        ncols P = ncols Yt) tl (Ypre ++ [YA; YB]) →
  same_height (Ypre ++ [YA; YB]) = true →
  0 < ncols YB →
  ∃ R, transform (CrossPolyPipeline self (FeatureUnion lu tl)) Y st1 =
         (Ok R, st1) ∧
       columns R = pair_columns mul (columns YA) (columns YB) ∧
       ncols R = ncols YA * ncols YB.
Proof.
  intros Htl Hfit Hself Hnd HYs Hh HwB.
  destruct (product_of_last_members self lu tl X Y st st1 pre na ea nb eb
              Ypre YA YB Htl Hfit Hself Hnd HYs Hh HwB)
    as (R & HR & Hcols & Hw & _).
  eauto.
Qed.

(** ** The product of two single transformers, end to end *)

(** Two estimators get two names, of one class or not. *)
Lemma name_estimators_two (ca cb : string) : NoDup (name_estimators [ca; cb]).
Proof.
  unfold name_estimators, occurrences. cbv [imap compose take].
  rewrite !filter_cons, !filter_nil.
  destruct (decide (ca = cb)) as [->|Hne].
  - rewrite !(decide_True (P := cb = cb)) by done. cbn [length].
    rewrite !(decide_True (P := 2 ≤ 2)) by lia.
    apply NoDup_cons_2; [|apply NoDup_singleton].
    intros Heq%list_elem_of_singleton.
    apply String.app_inj, String.app_inj, pretty_nat_inj in Heq. lia.
  - rewrite (decide_True (P := ca = ca)) by done.
    rewrite (decide_False (P := cb = ca)) by done.
    rewrite (decide_True (P := cb = cb)) by done. cbn [length].
    rewrite !decide_False by lia.
    apply NoDup_cons_2; [|apply NoDup_singleton].
    by intros ?%list_elem_of_singleton.
Qed.

(** [a * b] when [a] does not wrap a union: a new value around a new
    cross-product transformer around the new union of the two wrapped
    pipelines themselves. *)
Lemma mul_plain ia ib (pa pb : est) (st : state) :
  is_FeatureUnion pa = false →
  PlaytimePipeline__mul__ (PlaytimePipeline ia pa) (PlaytimePipeline ib pb) st =
    (Ok (PlaytimePipeline (3 + next_id st)
           (CrossPolyPipeline (2 + next_id st)
              (FeatureUnion (next_id st) (named [pa; pb])))),
     State (4 + next_id st) (store st)).
Proof.
  intros Hpa. unfold PlaytimePipeline__mul__.
  erewrite bind_Ok; [|reflexivity]. cbv iota.
  erewrite bind_Ok;
    [|(erewrite bind_Ok; [|by apply add_plain]); reflexivity].
  reflexivity.
Qed.

(** Fitting a cross-product transformer around a union of single framework
    transformers fits each of them on [X]. *)
Lemma fit_cross_fits_leaves self lu (tl : list (string * est)) (X : mat)
    (st : state) :
  Forall (λ s, is_Leaf s.2 = true) tl →
  self ∉ est_ids (FeatureUnion lu tl) →
  ∃ st1,
    fit (CrossPolyPipeline self (FeatureUnion lu tl)) X st = (Ok tt, st1) ∧
    Forall (λ s, fitted_on (attrs_of st1 (id_of s.2)) = Some X) tl.
Proof.
  intros Htl Hself.
  set (st_a := (setattr_split_marks_ self [] st).2).
  destruct (union_fit_leaves tl X st_a Htl) as (st_b & Hufit & Hall & _ & Hsm & _).
  destruct (fit_loop_leaves self X tl 0 st_b []) as (st_c & Hloop & Hsm' & _).
  { apply Forall_forall. intros s Hs. rewrite Forall_forall in Htl, Hall. auto. }
  { rewrite Hsm. subst st_a. unfold setattr_split_marks_.
    rewrite attrs_of_setattrs. by rewrite decide_True. }
  eexists. split.
  - unfold fit. simpl. unfold CrossPolyPipeline_fit.
    erewrite bind_Ok; [|reflexivity].
    erewrite bind_Ok; [|exact Hufit].
    erewrite bind_Ok; [|reflexivity]. rewrite map_map.
    erewrite bind_Ok; [|exact Hloop]. unfold setattr_shape_out_.
    apply setattrs_run.
  - pose proof (touches_fit_loop self X
                  (map (λ s, (s.1, m_transform (methods_of s.2))) tl) 0) as Hfr.
    assert (Hro : Forall (λ t : string * (mat → M state mat),
                            ∀ X, readonly (t.2 X))
                    (map (λ s, (s.1, m_transform (methods_of s.2))) tl)).
    { apply Forall_forall.
      intros t (s & <- & _)%list_elem_of_In%in_map_iff X'.
      apply methods_of_well_behaved. }
    specialize (Hfr Hro st_b). rewrite Hloop in Hfr. destruct Hfr as [_ Hfr].
    apply Forall_forall. intros s Hs.
    rewrite Forall_forall in Hall. specialize (Hall s Hs).
    assert (Hne : self ≠ id_of s.2).
    { intros Heq. apply Hself.
      apply (members_ids_subseteq lu tl s Hs). rewrite Heq.
      destruct (s.2); simpl; by left. }
    rewrite attrs_of_setattrs, decide_False by done.
    unfold attrs_of in *. rewrite Hfr; [done|].
    intros Heq%list_elem_of_singleton. by apply Hne.
Qed.


(** X10. [a * b] for two single framework transformers, end to end.  Build
    [a * b], fit it on [X], and transform an input [Y].  If each of the two
    transformers, fitted on [X], gives on [Y] an output as wide as on the
    first two rows of [X], the two outputs being of one height and [b]'s not
    empty, then what comes out is the column products of [a]'s output with
    [b]'s: a matrix as wide as the product of the two widths.  With [Y = X]
    this is [fit_transform]. *)
Theorem product_of_two_transformers ia ib la lb ca cb (ha hb : params)
    (X Y : mat) (st : state) :
  la < next_id st → lb < next_id st →
  ncols (leaf_transform ca ha X (head2 X)) = ncols (leaf_transform ca ha X Y) →
  ncols (leaf_transform cb hb X (head2 X)) = ncols (leaf_transform cb hb X Y) →
  nrows (leaf_transform cb hb X Y) = nrows (leaf_transform ca ha X Y) →
  0 < ncols (leaf_transform cb hb X Y) →
  ∃ R st',
    (do p <- PlaytimePipeline__mul__ (PlaytimePipeline ia (Leaf la ca ha))
                                     (PlaytimePipeline ib (Leaf lb cb hb));
     fit p X ;; transform p Y) st = (Ok R, st') ∧
    columns R = pair_columns mul (columns (leaf_transform ca ha X Y))
                                 (columns (leaf_transform cb hb X Y)) ∧
    ncols R = ncols (leaf_transform ca ha X Y) *
              ncols (leaf_transform cb hb X Y).
Proof.
  intros Hla Hlb HwA HwB Hrows HB.
  erewrite bind_Ok; [|by apply mul_plain].
  pose proof (name_estimators_two ca cb) as Hnd.
  pose proof (length_name_estimators [ca; cb]) as Hlen.
  unfold named. cbn [fmap list_fmap class_name].
  destruct (name_estimators [ca; cb]) as [|na [|nb [|? ?]]]; try discriminate.
  cbn [zip zip_with]. clear Hlen.
  set (tl := [(na, Leaf la ca ha); (nb, Leaf lb cb hb)]).
  set (self := 2 + next_id st). set (lu := next_id st).
  set (st_m := State (4 + next_id st) (store st)).
  assert (Hself : self ∉ est_ids (FeatureUnion lu tl)).
  { subst self lu tl. simpl. rewrite !not_elem_of_cons.
    split; [lia|]. split; [lia|]. split; [lia|]. apply not_elem_of_nil. }
  destruct (fit_cross_fits_leaves self lu tl X st_m) as (st1 & Hfit & Hfitted);
    [repeat constructor | done |].
  apply Forall_cons in Hfitted as [Hfa Hfitted].
  apply Forall_cons in Hfitted as [Hfb _]. simpl in Hfa, Hfb.
  destruct (product_of_last_members self lu tl X Y st_m st1 [] na
              (Leaf la ca ha) nb (Leaf lb cb hb) []
              (leaf_transform ca ha X Y) (leaf_transform cb hb X Y))
    as (R & HR & Hcols & Hw & _); try done.
  - repeat constructor; simpl; unfold transform; simpl;
      rewrite ?Leaf_transform_fst, ?Hfa, ?Hfb; try done.
    + by intros P [= <-].
    + by intros P [= <-].
  - simpl. rewrite Hrows, Nat.eqb_refl. done.
  - exists R, st1. split; [|done].
    change (fit (PlaytimePipeline (3 + next_id st)
                   (CrossPolyPipeline self (FeatureUnion lu tl))) X)
      with (fit (CrossPolyPipeline self (FeatureUnion lu tl)) X).
    erewrite bind_Ok; [|exact Hfit]. exact HR.
Qed.


(** ** Fitting again *)

(** X11. [fit] starts afresh.  For an object graph that shares no object
    between two of its positions, neither the outcome of [fit] nor anything
    the fitted object later computes depends on the state [fit] started
    from: the marks and the fitted data of an earlier fit are all
    overwritten. *)
Theorem fit_forgets_earlier_fits (e : est) (X : mat) (s s' : state) :
  NoDup (est_ids e) →
  (fit e X s).1 = (fit e X s').1 ∧
  ((fit e X s).1 = Ok tt →
   ∀ Y, (transform e Y (fit e X s).2).1 = (transform e Y (fit e X s').2).1).
Proof.
  intros Hnd.
  destruct (alike_of_skeleton e e eq_refl Hnd Hnd) as (HT & HF & _).
  destruct (HF X s s') as [Heq HQ]. split; [done|].
  intros Hok Y. apply HT. by apply (HQ tt).
Qed.

(** ** More on the operators *)

(** X12. The copy that [|] makes computes what the original would.  In
    [a | b], with [a]'s pipeline sharing no object between two of its
    positions, the first step of the chain is an object [c] whose
    [fit_transform] has, on every input and from every state, the outcome
    that [fit_transform] has on [a]'s pipeline; and once fitted, [c]
    transforms as [a]'s pipeline would, once fitted on the same data. *)
Theorem or_copy_computes_like_original ia (pa b : est) (st : state) :
  constructible pa = true →
  NoDup (est_ids pa) →
  ∃ lw lp n1 c n2 st1,
    PlaytimePipeline__or__ (PlaytimePipeline ia pa) b st =
      (Ok (PlaytimePipeline lw (Pipeline lp [(n1, c); (n2, b)])), st1) ∧
    ∀ X s s',
      (fit_transform c X s).1 = (fit_transform pa X s').1 ∧
      (fit c X s).1 = (fit pa X s').1 ∧
      ((fit c X s).1 = Ok tt →
       ∀ Y, (transform c Y (fit c X s).2).1 =
            (transform pa Y (fit pa X s').2).1).
Proof.
  intros Hpa Hnd.
  destruct (or_Ok ia pa b st Hpa) as (c & st1 & Hclone & Hcl & Hor).
  destruct Hcl as (_ & _ & Hsk & _ & _).
  destruct (clone_fresh pa st c st1 Hclone) as (Hndc & _).
  destruct (alike_of_skeleton c pa Hsk Hndc Hnd) as (HT & HF & HFT & _).
  pose proof (length_name_estimators (class_name <$> [c; b])) as Hlen.
  unfold named in Hor.
  destruct (name_estimators (class_name <$> [c; b])) as [|n1 [|n2 [|? ?]]];
    try discriminate.
  cbn [zip zip_with] in Hor.
  eexists _, _, n1, c, n2, _. split; [exact Hor|].
  intros X s s'. split; [apply HFT|].
  destruct (HF X s s') as [Heq HQ]. split; [done|].
  intros Hok Y. apply HT. by apply (HQ tt).
Qed.

(** X13. [+] flattens on the left only, so it matters how a sum is grouped.
    For values over pipelines that are not unions, [(a + b) + c] is a union
    of three members, [a]'s and [b]'s pipelines and a copy of [c]'s, while
    [a + (b + c)] is a union of two: [a]'s pipeline and the union of [b]'s
    and [c]'s. *)
Theorem add_groups_to_the_left ia ib ic (pa pb pc : est) (st : state) :
  is_FeatureUnion pa = false → is_FeatureUnion pb = false →
  constructible pc = true →
  (∃ lw lu tl c st1,
     (do ab <- PlaytimePipeline__add__ (PlaytimePipeline ia pa)
                                       (PlaytimePipeline ib pb);
      PlaytimePipeline__add__ ab (PlaytimePipeline ic pc)) st =
       (Ok (PlaytimePipeline lw (FeatureUnion lu tl)), st1) ∧
     tl.*2 = [pa; pb; c] ∧ skeleton c = skeleton pc) ∧
  (∃ lw lu tl lu' tl' st1,
     (do bc <- PlaytimePipeline__add__ (PlaytimePipeline ib pb)
                                       (PlaytimePipeline ic pc);
      PlaytimePipeline__add__ (PlaytimePipeline ia pa) bc) st =
       (Ok (PlaytimePipeline lw (FeatureUnion lu tl)), st1) ∧
     tl.*2 = [pa; FeatureUnion lu' tl'] ∧ tl'.*2 = [pb; pc]).
Proof.
  intros Hpa Hpb Hpc. split.
  - erewrite bind_Ok; [|by apply add_plain].
    destruct (clone_cloned pc Hpc (State (S (S (next_id st))) (store st)))
      as (c & st1 & Hclone & _ & _ & Hsk & _).
    eexists _, _, _, c, _. split; [by apply add_union|].
    split; [|done]. by rewrite !named_snd.
  - erewrite bind_Ok; [|by apply add_plain].
    eexists _, _, _, _, _, _. split; [by apply add_plain|].
    by rewrite !named_snd.
Qed.

(** X14. [*] never flattens a product.  For [a] over anything but a union,
    [(a * b) * c] is a product of two blocks, the first of which is the
    product [a * b] as a whole: a product of three is a product of products,
    not a product over three blocks. *)
Theorem mul_chain_nests ia ib ic (pa pb pc : est) (st : state) :
  is_FeatureUnion pa = false →
  ∃ lw lc lu tl lc' lu' tl' st1,
    (do ab <- PlaytimePipeline__mul__ (PlaytimePipeline ia pa)
                                      (PlaytimePipeline ib pb);
     PlaytimePipeline__mul__ ab (PlaytimePipeline ic pc)) st =
      (Ok (PlaytimePipeline lw
             (CrossPolyPipeline lc (FeatureUnion lu tl))), st1) ∧
    tl.*2 = [CrossPolyPipeline lc' (FeatureUnion lu' tl'); pc] ∧
    tl'.*2 = [pa; pb].
Proof.
  intros Hpa.
  erewrite bind_Ok; [|by apply mul_plain].
  eexists _, _, _, _, _, _, _, _. split; [by apply mul_plain|].
  by rewrite !named_snd.
Qed.

Lemma named_ids (es : list est) :
  concat (map (λ t, est_ids t.2) (named es)) = concat (map est_ids es).
Proof.
  rewrite <- (named_snd es) at 2. generalize (named es).
  induction l as [|t l IH]; simpl; [done | by rewrite IH].
Qed.

(** X15. In a chain of two [|], only the last operand is kept as it is.
    [(a | b) | c] is built without writing any attribute, and fitting it
    writes to no object that existed before except those of [c]: [b], which
    [a | b] holds by reference, is copied along with the rest when [| c] is
    applied. *)
Theorem or_chain_keeps_last_only ia (pa b c : est) (X : mat) (st : state) :
  constructible pa = true → constructible b = true →
  ∃ r st1,
    (do ab <- PlaytimePipeline__or__ (PlaytimePipeline ia pa) b;
     PlaytimePipeline__or__ ab c) st = (Ok r, st1) ∧
    store st1 = store st ∧
    ∀ l, l < next_id st → l ∉ est_ids c →
         store (fit r X st1).2 !! l = store st !! l.
Proof.
  intros Hpa Hb.
  destruct (or_Ok ia pa b st Hpa) as (ca & st_a & _ & Hcla & Hor1).
  erewrite bind_Ok; [|exact Hor1].
  set (chain := Pipeline (next_id st_a) (named [ca; b])).
  set (st_b := State (S (S (next_id st_a))) (store st)).
  assert (Hchain : constructible chain = true).
  { change (constructible chain)
      with (forallb (λ s, constructible s.2) (named [ca; b])).
    rewrite named_constructible. simpl.
    destruct Hcla as (_ & _ & _ & -> & _). by rewrite Hb. }
  destruct (or_Ok (S (next_id st_a)) chain c st_b Hchain)
    as (cc & st_c & _ & Hclc & Hor2).
  eexists _, _. split; [exact Hor2|]. split; [done|].
  intros l Hl Hlc.
  destruct (fit_frame (PlaytimePipeline (S (next_id st_c))
              (Pipeline (next_id st_c) (named [cc; c]))) X
              (State (S (S (next_id st_c))) (store st_b))) as [_ Hfr].
  rewrite Hfr; [done|].
  destruct Hcla as (_ & Hna & _). destruct Hclc as (_ & Hnc & _ & _ & Hids).
  subst st_b. cbn [next_id store] in *.
  change (l ∉ S (next_id st_c) :: next_id st_c ::
            concat (map (λ t, est_ids t.2) (named [cc; c]))).
  rewrite named_ids. simpl. rewrite app_nil_r.
  rewrite !not_elem_of_cons, not_elem_of_app.
  split; [lia|]. split; [lia|]. split; [|done].
  intros Hin. apply Hids in Hin. lia.
Qed.


(** ** The factories *)

Context {kwargs : Type}.
Variable FunctionTransformer_params : string → string → params.
Variable SplineTransformer_params : nat → params.
Variable SelectCols_params : list string → params.
Variable OneHotEncoder_params : params.
Variable CountVectorizer_params : kwargs → params.

Abbreviation call :=
  (@call elt dtype params kwargs FunctionTransformer_params
     SplineTransformer_params SelectCols_params OneHotEncoder_params
     CountVectorizer_params).
Abbreviation steps_of :=
  (@steps_of params kwargs FunctionTransformer_params
     SplineTransformer_params SelectCols_params OneHotEncoder_params
     CountVectorizer_params).

(** Framework transformers of the given classes and hyper-parameters, under
    the given identities. *)
Definition leaves (ids : list loc) (specs : list (string * params))
  : list est :=
  zip_with (λ l s, Leaf l s.1 s.2) ids specs.

(** What a chain of framework transformers, fitted step after step on [X],
    makes of [Y]: each step is fitted on what the steps before it make of
    [X], and applied to what they make of [Y]. *)
Fixpoint chain_output (specs : list (string * params)) (X Y : mat) : mat :=
  match specs with
  | [] => Y
  | s :: specs' =>
      chain_output specs' (leaf_transform s.1 s.2 X X)
                          (leaf_transform s.1 s.2 X Y)
  end.

(** The steps under [ids] are fitted as fitting the chain on [X] leaves
    them. *)
Fixpoint chain_fitted (ids : list loc) (specs : list (string * params))
    (X : mat) (st : state) : Prop :=
  match ids, specs with
  | l :: ids', s :: specs' =>
      fitted_on (attrs_of st l) = Some X ∧
      chain_fitted ids' specs' (leaf_transform s.1 s.2 X X) st
  | _, _ => True
  end.

Lemma chain_fitted_agree ids specs (X : mat) (st st' : state) :
  (∀ l, l ∈ ids → store st' !! l = store st !! l) →
  chain_fitted ids specs X st → chain_fitted ids specs X st'.
Proof.
  revert specs X. induction ids as [|l ids IH]; intros [|s specs] X Hag;
    simpl; try done.
  intros [Hl Hrest]. split.
  - unfold attrs_of. rewrite Hag; [done | by left].
  - apply IH; [|done]. intros l' Hl'. apply Hag. by right.
Qed.

Lemma chain_fitted_frame S ids specs (X : mat) (st st' : state) :
  agree_outside S st st' → (∀ l, l ∈ ids → l ∉ S) →
  chain_fitted ids specs X st → chain_fitted ids specs X st'.
Proof.
  intros [_ Hout] Hdis. apply chain_fitted_agree.
  intros l Hl. by apply Hout, Hdis.
Qed.

Lemma map_methods_snd (tl : list (string * est)) :
  map (λ s, methods_of s.2) tl = map methods_of tl.*2.
Proof. induction tl as [|t tl IH]; simpl; [done | by rewrite IH]. Qed.

Lemma Leaf_fit_transform_run l cls hp (X : mat) (st : state) :
  (Leaf_fit l X ;; Leaf_transform leaf_transform l cls hp X) st =
    (Ok (leaf_transform cls hp X X), (Leaf_fit l X st).2).
Proof.
  unfold Leaf_fit at 1. erewrite bind_Ok; [|apply setattrs_run].
  unfold Leaf_transform. erewrite bind_Ok; [|reflexivity].
  by rewrite attrs_of_setattrs, decide_True.
Qed.

(** Fitting a chain of framework transformers, no two of them one object,
    succeeds, touches them only, and leaves each fitted on what the steps
    before it make of [X]. *)
Lemma Pipeline_fit_leaves ids specs (X : mat) (st : state) :
  length ids = length specs → specs ≠ [] → NoDup ids →
  ∃ st1,
    Pipeline_fit (map methods_of (leaves ids specs)) X st = (Ok tt, st1) ∧
    agree_outside ids st st1 ∧
    chain_fitted ids specs X st1.
Proof.
  revert ids X st.
  induction specs as [|s specs IH]; intros [|l ids] X st Hlen Hne Hnd;
    try done.
  simpl in Hlen. apply NoDup_cons in Hnd as [Hl Hnd].
  destruct specs as [|s' specs].
  - destruct ids; [|done]. exists (Leaf_fit l X st).2.
    split; [reflexivity|]. unfold Leaf_fit. split.
    + apply touches_setattrs. by left.
    + cbn [chain_fitted]. by rewrite attrs_of_setattrs, decide_True.
  - destruct ids as [|l' ids]; [done|].
    set (st_a := (Leaf_fit l X st).2).
    destruct (IH (l' :: ids) (leaf_transform s.1 s.2 X X) st_a)
      as (st1 & Hfit & Hfr & Hfitted); [simpl in *; lia | done | done |].
    exists st1. split; [|split].
    + change (leaves (l :: l' :: ids) (s :: s' :: specs))
        with (Leaf l s.1 s.2 :: leaves (l' :: ids) (s' :: specs)).
      change (map methods_of (Leaf l s.1 s.2 :: leaves (l' :: ids) (s' :: specs)))
        with (Leaf_methods leaf_transform l s.1 s.2 ::
              map methods_of (leaves (l' :: ids) (s' :: specs))).
      destruct (map methods_of (leaves (l' :: ids) (s' :: specs)))
        as [|m ms] eqn:Em; [done|].
      cbn [Pipeline_fit].
      erewrite bind_Ok; [exact Hfit|].
      cbn [m_fit_transform Leaf_methods]. apply Leaf_fit_transform_run.
    + apply (agree_outside_trans _ st st_a st1).
      * subst st_a. unfold Leaf_fit. apply touches_setattrs. by left.
      * eapply agree_outside_mono; [|exact Hfr]. intros x Hx. by right.
    + cbn [chain_fitted]. split; [|done].
      destruct Hfr as [_ Hfr]. unfold attrs_of. rewrite Hfr by done.
      fold (attrs_of st_a l). subst st_a. unfold Leaf_fit.
      by rewrite attrs_of_setattrs, decide_True.
Qed.

(** A chain so fitted makes [chain_output] of its input. *)
Lemma Pipeline_transform_leaves ids specs (X Y : mat) (st : state) :
  length ids = length specs →
  chain_fitted ids specs X st →
  Pipeline_transform (map methods_of (leaves ids specs)) Y st =
    (Ok (chain_output specs X Y), st).
Proof.
  revert ids X Y.
  induction specs as [|s specs IH]; intros [|l ids] X Y Hlen Hf; try done.
  simpl in Hlen, Hf. destruct Hf as [Hl Hf].
  change (leaves (l :: ids) (s :: specs))
    with (Leaf l s.1 s.2 :: leaves ids specs).
  cbn [map Pipeline_transform methods_of m_transform Leaf_methods].
  erewrite bind_Ok.
  - apply IH; [lia | exact Hf].
  - unfold Leaf_transform. erewrite bind_Ok; [|reflexivity].
    by rewrite Hl.
Qed.

(** What a factory call returns: a new value around a new chain of new
    framework transformers, named after their classes; no attribute is
    written. *)
Lemma call_Ok (c : factory_call) (st : state) :
  let k := length (steps_of c) in
  call c st =
    (Ok (PlaytimePipeline (S (k + next_id st))
           (Pipeline (k + next_id st)
              (zip (steps_of c).*1
                   (leaves (seq (next_id st) k) (steps_of c))))),
     State (S (S (k + next_id st))) (store st)).
Proof. by destruct c. Qed.


Lemma leaves_ids (names : list string) ids specs :
  length names = length specs → length ids = length specs →
  concat (map (λ t, est_ids t.2) (zip names (leaves ids specs))) = ids.
Proof.
  revert names ids. induction specs as [|s specs IH];
    intros [|n names] [|l ids] Hn Hi; simpl in *; try done.
  f_equal. apply IH; lia.
Qed.

Lemma leaves_methods (names : list string) ids specs :
  length names = length specs → length ids = length specs →
  map (λ t, methods_of t.2) (zip names (leaves ids specs)) =
    map methods_of (leaves ids specs).
Proof.
  intros Hn Hi. rewrite map_methods_snd, snd_zip; [done|].
  unfold leaves. rewrite length_zip_with. lia.
Qed.

Lemma chain_fit_run lp names ids specs (X : mat) (st : state) :
  length names = length specs → length ids = length specs →
  specs ≠ [] → NoDup ids →
  ∃ st1,
    fit (Pipeline lp (zip names (leaves ids specs))) X st = (Ok tt, st1) ∧
    agree_outside ids st st1 ∧
    chain_fitted ids specs X st1.
Proof.
  intros Hn Hi Hne Hnd. unfold fit. cbn [methods_of].
  rewrite leaves_methods by done. by apply Pipeline_fit_leaves.
Qed.

Lemma chain_transform_run lp names ids specs (X Y : mat) (st : state) :
  length names = length specs → length ids = length specs →
  chain_fitted ids specs X st →
  transform (Pipeline lp (zip names (leaves ids specs))) Y st =
    (Ok (chain_output specs X Y), st).
Proof.
  intros Hn Hi Hf. unfold transform. cbn [methods_of].
  rewrite leaves_methods by done. by apply Pipeline_transform_leaves.
Qed.

Lemma members_transform_frame S (tl : list (string * est)) Ps (X : mat)
    (st st' : state) :
  agree_outside S st st' →
  Forall (λ t, ∀ l, l ∈ est_ids t.2 → l ∉ S) tl →
  Forall2 (λ t P, (transform t.2 X st).1 = Ok P) tl Ps →
  Forall2 (λ t P, (transform t.2 X st').1 = Ok P) tl Ps.
Proof.
  intros Hfr Hdis HPs. revert Hdis.
  induction HPs as [|t P tl Ps HP _ IH]; intros Hdis; [constructor|].
  apply Forall_cons in Hdis as [Ht Hdis]. constructor; [|by apply IH].
  by rewrite (transform_frame_fst S t.2 X st st').
Qed.

(** The loop of [fit] runs to its end when every member transforms the
    first two rows of [X]. *)
Lemma fit_loop_Ok self (X : mat) (tl : list (string * est)) lo (st : state)
    d Ps :
  Forall (λ t, self ∉ est_ids t.2) tl →
  split_marks_ (attrs_of st self) = Some d →
  Forall2 (λ t P, (transform t.2 (head2 X) st).1 = Ok P) tl Ps →
  ∃ n st',
    fit_loop self X (map (λ s, (s.1, m_transform (methods_of s.2))) tl) lo st =
      (Ok n, st') ∧
    agree_outside [self] st st'.
Proof.
  intros Hself Hd HPs. revert lo st d Ps Hself Hd HPs.
  induction tl as [|[name e] tl IH]; intros lo st d Ps Hself Hd HPs.
  - eexists _, _. split; [reflexivity | apply agree_outside_refl].
  - apply Forall2_cons_inv_l in HPs as (P & Ps' & HP & HPs & ->).
    apply Forall_cons in Hself as [He Hself]. simpl in HP, He.
    set (f := λ a : @attrs elt dtype,
           Attrs (fitted_on a)
                 (Some (dict_set d name (Slice lo (lo + ncols P))))
                 (shape_out_ a)).
    assert (Hfr : agree_outside [self] st (setattrs self f st).2).
    { apply touches_setattrs. by left. }
    destruct (IH (ncols P + lo) (setattrs self f st).2
                 (dict_set d name (Slice lo (lo + ncols P))) Ps')
      as (n & st' & Hloop & Hfr'); [done | | |].
    + by rewrite attrs_of_setattrs, decide_True.
    + eapply members_transform_frame; [exact Hfr| |exact HPs].
      eapply Forall_impl; [exact Hself|].
      intros t Ht l Hl ->%list_elem_of_singleton. done.
    + exists n, st'. split; [|by eapply agree_outside_trans].
      cbn [map fit_loop fst snd].
      pose proof (transform_readonly e (head2 X) st) as Hro.
      unfold transform in HP, Hro.
      destruct (m_transform (methods_of e) (head2 X) st) as [o s1] eqn:E.
      simpl in HP, Hro. subst o s1.
      erewrite bind_Ok; [|exact E].
      erewrite bind_Ok; [|by rewrite getattr_split_marks_eq, Hd].
      unfold setattr_split_marks_.
      erewrite bind_Ok; [|apply setattrs_run]. exact Hloop.
Qed.


(** [fit] of a cross-product transformer succeeds as soon as fitting the
    union does and every member then transforms the first two rows. *)
Lemma fit_cross_Ok self lu (tl : list (string * est)) (X : mat)
    (st st_b : state) Ps :
  self ∉ est_ids (FeatureUnion lu tl) →
  fit (FeatureUnion lu tl) X (setattr_split_marks_ self [] st).2 =
    (Ok tt, st_b) →
  Forall2 (λ t P, (transform t.2 (head2 X) st_b).1 = Ok P) tl Ps →
  ∃ st1,
    fit (CrossPolyPipeline self (FeatureUnion lu tl)) X st = (Ok tt, st1) ∧
    agree_outside [self] st_b st1.
Proof.
  intros Hself Hufit HPs.
  assert (Hmem : Forall (λ t : string * est, self ∉ est_ids t.2) tl).
  { apply Forall_forall. intros t Ht Hin. apply Hself.
    by apply (members_ids_subseteq lu tl t Ht). }
  destruct (methods_of_well_behaved (FeatureUnion lu tl)) as (Hfr & _).
  assert (Hd : split_marks_ (attrs_of st_b self) = Some []).
  { pose proof (Hfr X (setattr_split_marks_ self [] st).2) as Hfr'.
    unfold fit in Hufit. rewrite Hufit in Hfr'.
    destruct Hfr' as [_ Hfr']. unfold attrs_of. rewrite Hfr' by done.
    fold (attrs_of (setattr_split_marks_ self [] st).2 self).
    unfold setattr_split_marks_.
    by rewrite attrs_of_setattrs, decide_True. }
  destruct (fit_loop_Ok self X tl 0 st_b [] Ps Hmem Hd HPs)
    as (n & st_c & Hloop & Hfrc).
  exists (setattr_shape_out_ self n st_c).2. split.
  - unfold fit in *. cbn [methods_of m_fit CrossPolyPipeline_methods].
    unfold CrossPolyPipeline_fit.
    erewrite bind_Ok; [|reflexivity].
    erewrite bind_Ok; [|exact Hufit].
    cbn [m_transformer_list FeatureUnion_methods].
    erewrite bind_Ok; [|reflexivity]. rewrite map_map.
    erewrite bind_Ok; [|exact Hloop]. reflexivity.
  - eapply agree_outside_trans; [exact Hfrc|].
    unfold setattr_shape_out_. apply touches_setattrs. by left.
Qed.

(** The product of two chains of framework transformers, fitted on [X] and
    applied to [Y]. *)
Lemma product_of_two_chains self lu na nb lpa lpb namesa namesb idsa idsb
    sa sb (X Y : mat) (st : state) :
  length namesa = length sa → length idsa = length sa → sa ≠ [] →
  length namesb = length sb → length idsb = length sb → sb ≠ [] →
  NoDup (idsa ++ idsb) →
  self ∉ lu :: lpa :: lpb :: idsa ++ idsb →
  na ≠ nb →
  ncols (chain_output sa X (head2 X)) = ncols (chain_output sa X Y) →
  ncols (chain_output sb X (head2 X)) = ncols (chain_output sb X Y) →
  nrows (chain_output sb X Y) = nrows (chain_output sa X Y) →
  0 < ncols (chain_output sb X Y) →
  ∃ R st1,
    (fit (CrossPolyPipeline self (FeatureUnion lu
            [(na, Pipeline lpa (zip namesa (leaves idsa sa)));
             (nb, Pipeline lpb (zip namesb (leaves idsb sb)))])) X ;;
     transform (CrossPolyPipeline self (FeatureUnion lu
            [(na, Pipeline lpa (zip namesa (leaves idsa sa)));
             (nb, Pipeline lpb (zip namesb (leaves idsb sb)))])) Y) st =
      (Ok R, st1) ∧
    columns R = pair_columns mul (columns (chain_output sa X Y))
                                 (columns (chain_output sb X Y)) ∧
    ncols R = ncols (chain_output sa X Y) * ncols (chain_output sb X Y).
Proof.
  intros Hna Hia Hsa Hnb Hib Hsb Hnd Hself Hne HwA HwB Hrows HB.
  set (pa := Pipeline lpa (zip namesa (leaves idsa sa))).
  set (pb := Pipeline lpb (zip namesb (leaves idsb sb))).
  set (tl := [(na, pa); (nb, pb)]).
  apply NoDup_app in Hnd as (Hnda & Hdis & Hndb).
  repeat (apply not_elem_of_cons in Hself as [? Hself]).
  apply not_elem_of_app in Hself as [Hselfa Hselfb].
  set (st_a := (setattr_split_marks_ self [] st).2).
  destruct (chain_fit_run lpa namesa idsa sa X st_a)
    as (st_b1 & Hfa & Hfra & Hfita); try done.
  destruct (chain_fit_run lpb namesb idsb sb X st_b1)
    as (st_b & Hfb & Hfrb & Hfitb); try done.
  assert (Hfita' : chain_fitted idsa sa X st_b).
  { eapply chain_fitted_frame; [exact Hfrb| |exact Hfita].
    intros l Hl Hl'. by apply (Hdis l). }
  assert (Hufit : fit (FeatureUnion lu tl) X st_a = (Ok tt, st_b)).
  { unfold fit. cbn [methods_of m_fit FeatureUnion_methods].
    unfold FeatureUnion_fit. subst tl. cbn [map forM_ fst snd].
    erewrite bind_Ok; [|exact Hfa]. erewrite bind_Ok; [|exact Hfb].
    reflexivity. }
  assert (Hids : est_ids (FeatureUnion lu tl) =
                 lu :: (lpa :: idsa) ++ (lpb :: idsb) ++ []).
  { subst tl pa pb. cbn [est_ids map concat snd].
    by rewrite !leaves_ids. }
  assert (Hself' : self ∉ est_ids (FeatureUnion lu tl)).
  { rewrite Hids, app_nil_r.
    rewrite not_elem_of_cons, not_elem_of_app, !not_elem_of_cons. done. }
  destruct (fit_cross_Ok self lu tl X st st_b
              [chain_output sa X (head2 X); chain_output sb X (head2 X)]
              Hself' Hufit) as (st1 & Hfit & Hfr1).
  { subst tl. repeat constructor; simpl.
    - by rewrite (chain_transform_run lpa namesa idsa sa X).
    - by rewrite (chain_transform_run lpb namesb idsb sb X). }
  assert (Hfa1 : chain_fitted idsa sa X st1).
  { eapply chain_fitted_frame; [exact Hfr1| |exact Hfita'].
    intros l Hl ->%list_elem_of_singleton. done. }
  assert (Hfb1 : chain_fitted idsb sb X st1).
  { eapply chain_fitted_frame; [exact Hfr1| |exact Hfitb].
    intros l Hl ->%list_elem_of_singleton. done. }
  destruct (product_of_last_members self lu tl X Y st st1 [] na pa nb pb []
              (chain_output sa X Y) (chain_output sb X Y))
    as (R & HR & Hcols & Hw & _); try done.
  - subst tl. cbn. apply NoDup_cons_2; [|apply NoDup_singleton].
    by intros ?%list_elem_of_singleton.
  - subst tl pa pb. repeat constructor; cbn [snd].
    + by rewrite (chain_transform_run lpa namesa idsa sa X).
    + intros P. rewrite (chain_transform_run lpa namesa idsa sa X) by done.
      by intros [= <-].
    + by rewrite (chain_transform_run lpb namesb idsb sb X).
    + intros P. rewrite (chain_transform_run lpb namesb idsb sb X) by done.
      by intros [= <-].
  - simpl. by rewrite Hrows, Nat.eqb_refl.
  - exists R, st1. split; [|done].
    erewrite bind_Ok; [|exact Hfit]. exact HR.
Qed.


Lemma steps_of_nonempty (c : factory_call) : steps_of c ≠ [].
Proof. by destruct c. Qed.

(** X16. What a factory returns.  A call of [seasonal], [feats], [onehot] or
    [bag_of_words] writes no attribute and returns a new value around a new
    chain (never a union) whose steps are new framework transformers, one per
    entry of [steps_of], each named after its class; no object occurs twice
    in the value, and none of them existed before the call. *)
Theorem factory_builds_new_chain (c : factory_call) (st : state) :
  ∃ lp tl,
    call c st =
      (Ok (PlaytimePipeline (S lp) (Pipeline lp tl)),
       State (S (S lp)) (store st)) ∧
    Forall2 (λ t s, t.1 = s.1 ∧ ∃ l, t.2 = Leaf l s.1 s.2) tl (steps_of c) ∧
    NoDup (est_ids (PlaytimePipeline (S lp) (Pipeline lp tl))) ∧
    ∀ l, l ∈ est_ids (PlaytimePipeline (S lp) (Pipeline lp tl)) →
         next_id st ≤ l.
Proof.
  destruct c; (eexists _, _; split; [reflexivity|]);
    (split; [repeat constructor; eauto|]); cbn; rewrite named_ids; cbn;
    split.
  all: try (repeat (apply NoDup_cons_2;
                      [rewrite ?not_elem_of_cons;
                       repeat split; try lia; apply not_elem_of_nil|]);
            apply NoDup_nil_2).
  all: intros l Hl; repeat (apply elem_of_cons in Hl as [->|Hl]; [lia|]);
    by apply elem_of_nil in Hl.
Qed.


(** X18. The product of two factory values, end to end.  Build two values
    with the factories, multiply them, fit the product on [X] and transform
    [Y].  If each of the two chains, fitted on [X], makes of [Y] an output
    as wide as it makes of the first two rows of [X], the two outputs being
    of one height and the second not empty, then what comes out is the
    column products of the first chain's output with the second's: a matrix
    as wide as the product of the two widths. *)
Theorem product_of_two_factory_values (c1 c2 : factory_call) (X Y : mat)
    (st : state) :
  ncols (chain_output (steps_of c1) X (head2 X)) =
    ncols (chain_output (steps_of c1) X Y) →
  ncols (chain_output (steps_of c2) X (head2 X)) =
    ncols (chain_output (steps_of c2) X Y) →
  nrows (chain_output (steps_of c2) X Y) =
    nrows (chain_output (steps_of c1) X Y) →
  0 < ncols (chain_output (steps_of c2) X Y) →
  ∃ R st',
    (do a <- call c1;
     do b <- call c2;
     do p <- PlaytimePipeline__mul__ a b;
     fit p X ;; transform p Y) st = (Ok R, st') ∧
    columns R = pair_columns mul (columns (chain_output (steps_of c1) X Y))
                                 (columns (chain_output (steps_of c2) X Y)) ∧
    ncols R = ncols (chain_output (steps_of c1) X Y) *
              ncols (chain_output (steps_of c2) X Y).
Proof.
  intros HwA HwB Hrows HB.
  erewrite bind_Ok; [|apply call_Ok]. cbv zeta.
  erewrite bind_Ok; [|apply call_Ok]. cbv zeta. cbn [next_id store].
  erewrite bind_Ok; [|by apply mul_plain]. cbn [next_id store].
  set (k1 := length (steps_of c1)). set (k2 := length (steps_of c2)).
  set (n := next_id st).
  unfold named. cbn [fmap list_fmap class_name].
  change (name_estimators ["pipeline"; "pipeline"])
    with ["pipeline-1"; "pipeline-2"].
  cbn [zip zip_with].
  match goal with
  | |- ∃ R st', (fit (PlaytimePipeline ?l ?cross) X ;; transform _ Y) ?s = _ ∧ _ =>
      change (fit (PlaytimePipeline l cross) X) with (fit cross X);
      change (transform (PlaytimePipeline l cross) Y) with (transform cross Y)
  end.
  apply product_of_two_chains; try done.
  - by rewrite length_fmap.
  - by rewrite length_seq.
  - apply steps_of_nonempty.
  - by rewrite length_fmap.
  - by rewrite length_seq.
  - apply steps_of_nonempty.
  - apply NoDup_app. split; [apply NoDup_seq|]. split; [|apply NoDup_seq].
    intros l. rewrite !elem_of_seq. lia.
  - rewrite !not_elem_of_cons, not_elem_of_app, !elem_of_seq. lia.
Qed.


(** X19. [+] hands the operands' own chains to the new union.  Build two
    values with the factories, add them, and fit the sum on [X]: the two
    operands themselves are then fitted, and each makes of [Y] what its own
    chain, fitted on [X], makes of it. *)
Theorem sum_fits_its_operands (c1 c2 : factory_call) (X Y : mat)
    (st : state) :
  ∃ st',
    (do a <- call c1;
     do b <- call c2;
     do ab <- PlaytimePipeline__add__ a b;
     fit ab X ;;
     do Ya <- transform a Y;
     do Yb <- transform b Y;
     ret (Ya, Yb)) st =
      (Ok (chain_output (steps_of c1) X Y, chain_output (steps_of c2) X Y),
       st').
Proof.
  erewrite bind_Ok; [|apply call_Ok]. cbv zeta.
  erewrite bind_Ok; [|apply call_Ok]. cbv zeta. cbn [next_id store].
  erewrite bind_Ok; [|by apply add_plain]. cbn [next_id store].
  unfold named. cbn [fmap list_fmap class_name].
  change (name_estimators ["pipeline"; "pipeline"])
    with ["pipeline-1"; "pipeline-2"].
  cbn [zip zip_with].
  set (k1 := length (steps_of c1)). set (k2 := length (steps_of c2)).
  set (n := next_id st). set (n' := S (S (k1 + n))).
  set (pa := Pipeline (k1 + n)
               (zip (steps_of c1).*1 (leaves (seq n k1) (steps_of c1)))).
  set (pb := Pipeline (k2 + n')
               (zip (steps_of c2).*1 (leaves (seq n' k2) (steps_of c2)))).
  match goal with
  | |- ∃ st', (_ ;; _) ?s = _ => set (st_m := s)
  end.
  destruct (chain_fit_run (k1 + n) (steps_of c1).*1 (seq n k1) (steps_of c1)
              X st_m) as (st_1 & Hfa & _ & Hfita);
    [by rewrite length_fmap | by rewrite length_seq
     | apply steps_of_nonempty | apply NoDup_seq |].
  destruct (chain_fit_run (k2 + n') (steps_of c2).*1 (seq n' k2) (steps_of c2)
              X st_1) as (st_2 & Hfb & Hfrb & Hfitb);
    [by rewrite length_fmap | by rewrite length_seq
     | apply steps_of_nonempty | apply NoDup_seq |].
  assert (Hfita' : chain_fitted (seq n k1) (steps_of c1) X st_2).
  { eapply chain_fitted_frame; [exact Hfrb| |exact Hfita].
    intros l. rewrite !elem_of_seq. lia. }
  exists st_2.
  erewrite bind_Ok.
  2:{ unfold fit. cbn [methods_of PlaytimePipeline_methods m_fit].
      unfold PlaytimePipeline_fit. cbn [m_fit FeatureUnion_methods].
      unfold FeatureUnion_fit. cbn [map forM_ fst snd].
      erewrite bind_Ok; [|exact Hfa]. erewrite bind_Ok; [|exact Hfb].
      reflexivity. }
  erewrite bind_Ok.
  2:{ apply (chain_transform_run (k1 + n) (steps_of c1).*1 (seq n k1)
               (steps_of c1) X Y st_2);
        [by rewrite length_fmap | by rewrite length_seq | done]. }
  erewrite bind_Ok.
  2:{ apply (chain_transform_run (k2 + n') (steps_of c2).*1 (seq n' k2)
               (steps_of c2) X Y st_2);
        [by rewrite length_fmap | by rewrite length_seq | done]. }
  reflexivity.
Qed.

Lemma chain_constructible (names : list string) ids specs :
  forallb (λ s : string * est, constructible s.2)
          (zip names (leaves ids specs)) = true.
Proof.
  revert names ids. induction specs as [|s specs IH];
    intros [|n names] [|l ids]; simpl; auto.
Qed.

(** X20. [|] does not: it fits a copy.  Build a value with a factory, chain
    it with [b], and fit the chain; the value itself is as unfitted as
    before, and its [transform] raises [NotFittedError].  (The state is one
    in which no attribute is stored for an object not yet created, and [b]
    is made of objects that exist.) *)
Theorem chain_leaves_left_operand_unfitted (c1 : factory_call) (b : est)
    (X Y : mat) (st : state) :
  (∀ l, next_id st ≤ l → store st !! l = None) →
  (∀ l, l ∈ est_ids b → l < next_id st) →
  ∃ a ab st1,
    (do a <- call c1;
     do ab <- PlaytimePipeline__or__ a b;
     ret (a, ab)) st = (Ok (a, ab), st1) ∧
    (transform a Y (fit ab X st1).2).1 = Raise NotFittedError.
Proof.
  intros Hwf Hb.
  erewrite bind_Ok; [|apply call_Ok]. cbv zeta.
  set (k := length (steps_of c1)). set (n := next_id st).
  set (pa := Pipeline (k + n)
               (zip (steps_of c1).*1 (leaves (seq n k) (steps_of c1)))).
  set (st_m := State (S (S (k + n))) (store st)).
  destruct (or_Ok (S (k + n)) pa b st_m) as (c & st_c & _ & Hcl & Hor).
  { apply chain_constructible. }
  erewrite bind_Ok; [|exact Hor].
  eexists _, _, _. split; [reflexivity|].
  match goal with
  | |- (_ _ _ (_ ?ab X ?s).2).1 = _ =>
      destruct (fit_frame ab X s) as [_ Hfr]; set (st' := (fit ab X s).2) in *
  end.
  assert (Hn : fitted_on (attrs_of st' n) = None).
  { unfold attrs_of. rewrite Hfr.
    - subst st_m. cbn [store].
      assert (store st !! n = None) as -> by (apply Hwf; subst n; lia).
      done.
    - destruct Hcl as (_ & Hnc & _ & _ & Hids). subst st_m.
      cbn [next_id] in *.
      change (n ∉ S (next_id st_c) :: next_id st_c ::
                concat (map (λ t, est_ids t.2) (named [c; b]))).
      rewrite named_ids. simpl. rewrite app_nil_r.
      rewrite !not_elem_of_cons, not_elem_of_app.
      split; [lia|]. split; [lia|]. split.
      + intros Hin%Hids. lia.
      + intros Hin%Hb. lia. }
  pose proof (steps_of_nonempty c1) as Hne.
  unfold transform. subst pa k.
  destruct (steps_of c1) as [|s specs]; [done|].
  cbn. unfold bind. cbn. fold n. by rewrite Hn.
Qed.


(** ** [fit_transform], and [fit] then [transform] *)

(** [fit_transform e] returns exactly when [fit e] succeeds and [transform e]
    then returns, with the same value and in the same state. *)
Definition fit_transform_splits (e : est) : Prop :=
  ∀ X s R s1,
    fit_transform e X s = (Ok R, s1) ↔
    fit e X s = (Ok tt, s1) ∧ transform e X s1 = (Ok R, s1).

Lemma bind_readonly_iff {A} (c : M state unit) (k : M state A) s R s1 :
  readonly k →
  (c ;; k) s = (Ok R, s1) ↔ c s = (Ok tt, s1) ∧ k s1 = (Ok R, s1).
Proof.
  intros Hk. split.
  - intros ([] & s2 & Hc & Hk2)%bind_inv_Ok.
    pose proof (Hk s2) as Hro. rewrite Hk2 in Hro. simpl in Hro. by subst.
  - intros [Hc Hk2]. by erewrite bind_Ok.
Qed.

Lemma transform_run_frame S (e : est) (X : mat) (s s1 : state) R :
  agree_outside S s s1 → (∀ l, l ∈ est_ids e → l ∉ S) →
  transform e X s = (Ok R, s) → transform e X s1 = (Ok R, s1).
Proof.
  intros Hfr Hdis Hrun.
  pose proof (transform_frame_fst S e X s s1 Hfr Hdis) as Heq.
  pose proof (transform_readonly e X s1) as Hro.
  rewrite Hrun in Heq.
  destruct (transform e X s1) as [o s2]. simpl in *. by subst.
Qed.

Lemma transform_run_inv (e : est) (X : mat) (s s1 : state) R :
  transform e X s = (Ok R, s1) → s1 = s.
Proof.
  intros Hrun. pose proof (transform_readonly e X s) as Hro.
  by rewrite Hrun in Hro.
Qed.

Lemma Pipeline_fit_transform_splits (ts : list (string * est)) :
  Forall (λ t, fit_transform_splits t.2) ts →
  NoDup (concat (map (λ t, est_ids t.2) ts)) →
  ∀ X s R s1,
    Pipeline_fit_transform (map (λ t, methods_of t.2) ts) X s = (Ok R, s1) ↔
    Pipeline_fit (map (λ t, methods_of t.2) ts) X s = (Ok tt, s1) ∧
    Pipeline_transform (map (λ t, methods_of t.2) ts) X s1 = (Ok R, s1).
Proof.
  induction 1 as [|t ts Ht Hts IH]; intros Hnd X s R s1.
  - simpl. split; [discriminate | intros [? _]; discriminate].
  - apply NoDup_members in Hnd as (Hndt & Hnd & Hdis).
    specialize (IH Hnd). unfold fit_transform_splits in Ht.
    destruct ts as [|t' ts'].
    + cbn [map Pipeline_fit_transform Pipeline_fit Pipeline_transform].
      etrans; [apply Ht|]. split; intros [Hf Htr]; (split; [done|]).
      * by erewrite bind_Ok; [|exact Htr].
      * by apply bind_inv_Ok in Htr as (Xt & s2 & Htr & [= <- <-]).
    + destruct (Pipeline_well_behaved _ _ (members_well_behaved (t' :: ts')))
        as (Hfr & _).
      cbn [map Pipeline_fit_transform Pipeline_fit Pipeline_transform] in *.
      split.
      * intros (Xt & s2 & Hft & Hrest)%bind_inv_Ok.
        apply IH in Hrest as [Hfit Htr].
        pose proof Hft as Hft0. apply Ht in Hft as [_ Htt].
        pose proof (Hfr Xt s2) as Hfr2. cbn [m_fit Pipeline_methods] in Hfr2.
        cbn [Pipeline_fit] in Hfr2. rewrite Hfit in Hfr2. cbn [snd] in Hfr2.
        split.
        -- by erewrite bind_Ok; [|exact Hft0].
        -- erewrite bind_Ok; [exact Htr|].
           eapply transform_run_frame; [exact Hfr2| |exact Htt].
           intros l Hl Hl'. by apply (Hdis l).
      * intros [(Xt & s2 & Hft & Hfit)%bind_inv_Ok
                (Xt' & s3 & Htt' & Htr)%bind_inv_Ok].
        pose proof (transform_run_inv _ _ _ _ _ Htt') as ->.
        pose proof Hft as Hft0. apply Ht in Hft as [_ Htt].
        pose proof (Hfr Xt s2) as Hfr2. cbn [m_fit Pipeline_methods] in Hfr2.
        cbn [Pipeline_fit] in Hfr2. rewrite Hfit in Hfr2. cbn [snd] in Hfr2.
        eapply transform_run_frame in Htt; [|exact Hfr2|].
        2:{ intros l Hl Hl'. by apply (Hdis l). }
        unfold transform in Htt. rewrite Htt in Htt'. injection Htt' as <-.
        erewrite bind_Ok; [|exact Hft0]. apply IH. done.
Qed.

Lemma members_fit_transform_splits (ts : list (string * est)) :
  Forall (λ t, fit_transform_splits t.2) ts →
  NoDup (concat (map (λ t, est_ids t.2) ts)) →
  ∀ X s Xs s1,
    mapM (λ t : string * methods, m_fit_transform t.2 X)
         (map (λ t, (t.1, methods_of t.2)) ts) s = (Ok Xs, s1) ↔
    forM_ (λ t : string * methods, m_fit t.2 X)
          (map (λ t, (t.1, methods_of t.2)) ts) s = (Ok tt, s1) ∧
    mapM (λ t : string * methods, m_transform t.2 X)
         (map (λ t, (t.1, methods_of t.2)) ts) s1 = (Ok Xs, s1).
Proof.
  induction 1 as [|t ts Ht Hts IH]; intros Hnd X s Xs s1.
  - simpl. unfold ret. split.
    + by intros [= <- <-].
    + by intros [[= <-] [= <-]].
  - apply NoDup_members in Hnd as (Hndt & Hnd & Hdis).
    specialize (IH Hnd). unfold fit_transform_splits in Ht.
    assert (Hfr : ∀ s2, agree_outside (concat (map (λ t, est_ids t.2) ts)) s2
              (forM_ (λ t : string * methods, m_fit t.2 X)
                 (map (λ t, (t.1, methods_of t.2)) ts) s2).2).
    { apply touches_forM_. eapply Forall_impl;
        [apply named_members_well_behaved|]. intros m Hm. apply Hm. }
    cbn [map mapM forM_ fst snd]. split.
    + intros (Y & s2 & Hft & Hrest)%bind_inv_Ok.
      apply bind_inv_Ok in Hrest as (Ys & s3 & Hrest & [= <- <-]).
      apply IH in Hrest as [Hfit Htr].
      apply Ht in Hft as [Hf Htt].
      pose proof (Hfr s2) as Hfr2. rewrite Hfit in Hfr2. cbn [snd] in Hfr2.
      split.
      * by erewrite bind_Ok; [|exact Hf].
      * erewrite bind_Ok.
        -- by erewrite bind_Ok; [|exact Htr].
        -- eapply transform_run_frame; [exact Hfr2| |exact Htt].
           intros l Hl Hl'. by apply (Hdis l).
    + intros [([] & s2 & Hf & Hfit)%bind_inv_Ok
              (Y & s3 & Htt' & Htr)%bind_inv_Ok].
      pose proof (transform_run_inv _ _ _ _ _ Htt') as ->.
      apply bind_inv_Ok in Htr as (Ys & s3 & Htr & [= <- <-]).
      pose proof (Hfr s2) as Hfr2. rewrite Hfit in Hfr2. cbn [snd] in Hfr2.
      assert (Htt : transform t.2 X s2 = (Ok Y, s2)).
      { pose proof (transform_frame_fst _ t.2 X s2 s3 Hfr2) as Heq.
        unfold transform in *. rewrite Htt' in Heq.
        pose proof (transform_readonly t.2 X s2) as Hro.
        unfold transform in Hro.
        destruct (m_transform (methods_of t.2) X s2) as [o s4].
        simpl in *. subst. rewrite <- Heq; [done|].
        intros l Hl Hl'. by apply (Hdis l). }
      erewrite bind_Ok; [|apply Ht; split; [exact Hf | exact Htt]].
      erewrite bind_Ok; [done|]. apply IH. done.
Qed.

(** X21. [fit_transform] is [fit] followed by [transform].  On an object
    graph that shares no object between two of its positions,
    [fit_transform] returns a value exactly when [fit] succeeds and
    [transform], called next on the same input, returns; the value is then
    the same and so is the fitted state. *)
Theorem fit_transform_is_fit_then_transform (e : est) (X : mat)
    (s s1 : state) R :
  NoDup (est_ids e) →
  fit_transform e X s = (Ok R, s1) ↔
  fit e X s = (Ok tt, s1) ∧ transform e X s1 = (Ok R, s1).
Proof.
  intros Hnd. revert X s R s1. change (fit_transform_splits e).
  revert Hnd.
  induction e as [l cls hp|l steps IH|l tl IH|l u IH|l p IH] using est_ind';
    intros Hnd X s R s1.
  - apply bind_readonly_iff, readonly_Leaf_transform.
  - apply NoDup_cons in Hnd as [_ Hnd].
    apply Pipeline_fit_transform_splits; [|done].
    clear -IH Hnd. induction IH as [|t ts Ht _ IHts]; [constructor|].
    apply NoDup_members in Hnd as (Hndt & Hnd & _). constructor; auto.
  - apply NoDup_cons in Hnd as [_ Hnd].
    assert (Hmem : Forall (λ t : string * est, fit_transform_splits t.2) tl).
    { clear -IH Hnd. induction IH as [|t ts Ht _ IHts]; [constructor|].
      apply NoDup_members in Hnd as (Hndt & Hnd & _). constructor; auto. }
    unfold fit_transform, fit, transform.
    cbn [methods_of FeatureUnion_methods m_fit m_transform m_fit_transform].
    unfold FeatureUnion_fit_transform, FeatureUnion_transform, FeatureUnion_fit.
    split.
    + intros (Xs & s2 & Hft & [= Hh <-])%bind_inv_Ok.
      apply (members_fit_transform_splits tl Hmem Hnd) in Hft as [Hf Htr].
      split; [done|]. erewrite bind_Ok; [|exact Htr]. unfold lift.
      by rewrite Hh.
    + intros [Hf (Xs & s2 & Htr & [= Hh <-])%bind_inv_Ok].
      erewrite bind_Ok.
      * unfold lift. by rewrite Hh.
      * by apply (members_fit_transform_splits tl Hmem Hnd).
  - apply bind_readonly_iff.
    intros s0. apply readonly_CrossPolyPipeline_transform,
                 methods_of_well_behaved.
  - apply NoDup_cons in Hnd as [_ Hnd]. apply (IH Hnd).
Qed.


(** ** Operands that are not pipeline values *)

(** [isinstance(e, PlaytimePipeline)] *)
Definition is_PlaytimePipeline (e : est) : bool :=
  match e with PlaytimePipeline _ _ => true | _ => false end.

(** X22. [+] and [*] read [other.pipeline]; [|] does not.  With a right
    operand that is not a pipeline value (a bare framework transformer, a
    chain, a union, a cross-product transformer), [a + b] and [a * b] raise
    [AttributeError] before anything is created, whatever [a] wraps, while
    [a | b] returns a chain whose second step is [b]. *)
Theorem add_and_mul_need_pipeline_values ia (pa b : est) (st : state) :
  is_PlaytimePipeline b = false →
  PlaytimePipeline__add__ (PlaytimePipeline ia pa) b st =
    (Raise AttributeError, st) ∧
  PlaytimePipeline__mul__ (PlaytimePipeline ia pa) b st =
    (Raise AttributeError, st) ∧
  (constructible pa = true →
   ∃ lw lp n1 c n2 st1,
     PlaytimePipeline__or__ (PlaytimePipeline ia pa) b st =
       (Ok (PlaytimePipeline lw (Pipeline lp [(n1, c); (n2, b)])), st1)).
Proof.
  intros Hb.
  assert (Hget : getattr_pipeline b st = (Raise AttributeError, st))
    by (by destruct b).
  assert (Hadd : PlaytimePipeline__add__ (PlaytimePipeline ia pa) b st =
                 (Raise AttributeError, st)).
  { unfold PlaytimePipeline__add__. erewrite bind_Ok; [|reflexivity].
    destruct (is_FeatureUnion pa) eqn:Hpa.
    - destruct pa as [| |lu tl| |]; try discriminate.
      erewrite bind_Raise; [done|].
      erewrite bind_Ok; [|reflexivity].
      by erewrite bind_Raise; [|exact Hget].
    - erewrite bind_Raise; [done|]. by erewrite bind_Raise; [|exact Hget]. }
  split; [exact Hadd|]. split.
  - unfold PlaytimePipeline__mul__, mul_branch. cbn [is_CrossPolyPipeline negb].
    destruct (is_CrossPolyPipeline b) eqn:Hcross; cbn [negb andb].
    + erewrite bind_Raise; [done|]. by erewrite bind_Raise; [|exact Hget].
    + erewrite bind_Ok; [|reflexivity]. cbv iota.
      erewrite bind_Raise; [done|]. by erewrite bind_Raise; [|exact Hadd].
  - intros Hpa.
    destruct (or_Ok ia pa b st Hpa) as (c & st1 & _ & _ & Hor).
    pose proof (length_name_estimators (class_name <$> [c; b])) as Hlen.
    unfold named in Hor.
    destruct (name_estimators (class_name <$> [c; b])) as [|n1 [|n2 [|? ?]]];
      try discriminate.
    cbn [zip zip_with] in Hor. by eexists _, _, n1, c, n2, _.
Qed.


End Theory.

(** * The properties at work on the concrete instance *)

Import Example.

Lemma build3_product3 : build3 st0 = (Ok product3, State 17 ∅).
Proof. reflexivity. Qed.

Lemma transform_keeps_last_pair_witness :
  transform cross3 X0 st3 =
    (last_pair_product Z.mul X_tfm3 (Slice 1 3) (Slice 3 5), st3) ∧
  (block X_tfm3 (Slice 3 5) ≠ [] →
   ∃ R, last_pair_product Z.mul X_tfm3 (Slice 1 3) (Slice 3 5) = Ok R ∧
        columns R = pair_columns Z.mul (block X_tfm3 (Slice 1 3))
                                       (block X_tfm3 (Slice 3 5)) ∧
        ncols R = length (block X_tfm3 (Slice 1 3)) *
                  length (block X_tfm3 (Slice 3 5))).
Proof.
  apply (transform_keeps_last_pair Z.mul promote float64 select_cols
           15 union3 X0 X_tfm3 st3 marks3
           [("selectcols-1", Slice 0 1)]
           "selectcols-2" (Slice 1 3) "onehotencoder" (Slice 3 5)).
  - vm_compute. reflexivity.
  - vm_compute. reflexivity.
  - reflexivity.
  - discriminate.
  - apply (bool_decide_unpack _). vm_compute. reflexivity.
Defined.

Lemma transform_preserves_representation_witness :
  ∃ R, transform cross3 X0_sparse st3 = (Ok R, st3) ∧
       repr R = Sparse CSC ∧ nrows R = 3 ∧ dtype_of R = tt.
Proof.
  apply (transform_preserves_representation Z.mul promote float64 select_cols
           15 union3 X0_sparse (tocsr X_tfm3) st3 marks3
           [("selectcols-1", Slice 0 1)]
           "selectcols-2" (Slice 1 3) "onehotencoder" (Slice 3 5)).
  - vm_compute. reflexivity.
  - vm_compute. reflexivity.
  - reflexivity.
  - apply (bool_decide_unpack _). vm_compute. reflexivity.
  - discriminate.
Defined.

Lemma fit_split_marks_tile_witness :
  ∃ sm total,
    split_marks_ (attrs_of st3 15) = Some sm ∧
    shape_out_ (attrs_of st3 15) = Some total ∧
    dict_keys sm = ["selectcols-1"; "selectcols-2"; "onehotencoder"] ∧
    tiles (dict_values sm) 0 total ∧
    sum_list (slice_width <$> dict_values sm) = total ∧
    (∀ i j si sj, i < j →
       dict_values sm !! i = Some si → dict_values sm !! j = Some sj →
       stop si ≤ start sj) ∧
    (∀ c, c < total ↔ ∃ s, s ∈ dict_values sm ∧ start s ≤ c < stop s).
Proof.
  apply (fit_split_marks_tile Z.mul promote float64 select_cols
           15 union3 X0 (State 17 ∅) st3
           [("selectcols-1", Leaf 1 "selectcols" [0]);
            ("selectcols-2", Leaf 3 "selectcols" [1; 2]);
            ("onehotencoder", Leaf 12 "onehotencoder" [0; 2])]).
  - vm_compute. reflexivity.
  - reflexivity.
  - apply (bool_decide_unpack _). vm_compute. reflexivity.
  - apply (bool_decide_unpack _). vm_compute. reflexivity.
Defined.

(** C1, on three blocks of widths 1, 2 and 2. The product [(A + B) * C],
    fitted and applied to [X0], has the 2 * 2 = 4 columns of the last pair
    of blocks; the sum over all pairs is 1*2 + 1*2 + 2*2 = 8, and the columns
    of all the pairs, pair after pair, are not what comes out. *)
Theorem three_blocks_keep_one_pair :
  ∃ R st,
    (do p <- build3; fit_transform p X0) st0 = (Ok R, st) ∧
    transform union3 X0 st = (Ok X_tfm3, st) ∧
    split_marks_ (attrs_of st 15) = Some marks3 ∧
    columns R = pair_columns Z.mul (block X_tfm3 (Slice 1 3))
                                   (block X_tfm3 (Slice 3 5)) ∧
    ncols R = 4 ∧
    pairwise_width [1; 2; 2] = 8 ∧
    length (all_pairs_columns Z.mul X_tfm3 (dict_values marks3)) = 8 ∧
    columns R ≠ all_pairs_columns Z.mul X_tfm3 (dict_values marks3).
Proof.
  eexists _, _. split; [vm_compute; reflexivity|].
  repeat split; try (vm_compute; reflexivity).
  vm_compute. intros [=].
Qed.

(** C4, where it fails: [A * U], with [U] wrapping a union of two, is a
    product of two members, [A]'s transformer and [U]'s union as a whole,
    not of the three transformers. *)
Lemma mul_keeps_right_union_whole : ¬ mul_flattens_both_sides A U st0.
Proof.
  intros (pa & pb & r & st' & ms & Ha & Hb & Hmul & Hpm & Hsk).
  vm_compute in Ha, Hb, Hmul.
  injection Ha as <-. injection Hb as <-. injection Hmul as <- <-.
  vm_compute in Hpm. injection Hpm as <-.
  vm_compute in Hsk. discriminate.
Qed.

Lemma mul_flattens_left_only_witness :
  ∃ r st' ms,
    mul_branch U A st0 = (Ok BothPlain, st0) ∧
    PlaytimePipeline__mul__ U A st0 = (Ok r, st') ∧
    product_members r = Some ms ∧
    skeleton <$> ms =
      skeleton <$> [Leaf 8 "selectcols" [1]; Leaf 9 "onehotencoder" [2];
                    Leaf 1 "selectcols" [0]].
Proof.
  apply (mul_flattens_left_only (elt := Z) (dtype := unit) 6 0
           (FeatureUnion 7 [("selectcols", Leaf 8 "selectcols" [1]);
                            ("onehotencoder", Leaf 9 "onehotencoder" [2])])
           (Leaf 1 "selectcols" [0]) st0).
  reflexivity.
Defined.

(** C5, where it fails: in [A + B], with [A] wrapping a single transformer,
    the members of the new union are the transformers of [A] and [B]
    themselves (the objects 1 and 3), not clones of them; fitting the sum
    fits them. *)
Theorem add_shares_plain_operands :
  PlaytimePipeline__add__ A B st0 =
    (Ok (PlaytimePipeline 11
           (FeatureUnion 10
              [("selectcols-1", Leaf 1 "selectcols" [0]);
               ("selectcols-2", Leaf 3 "selectcols" [1; 2])])),
     State 12 ∅) ∧
  fitted_on (attrs_of st0 1) = None ∧
  fitted_on (attrs_of st0 3) = None ∧
  ∃ st, (do ab <- PlaytimePipeline__add__ A B; fit ab X0) st0 = (Ok tt, st) ∧
        fitted_on (attrs_of st 1) = Some X0 ∧
        fitted_on (attrs_of st 3) = Some X0.
Proof.
  split; [reflexivity|]. split; [reflexivity|]. split; [reflexivity|].
  eexists. split; [vm_compute; reflexivity|].
  split; vm_compute; reflexivity.
Qed.

(** C6, where it fails: [A | B] keeps [B] itself as its second step, so
    fitting the chain fits the transformer that [B] wraps (the object 3). *)
Lemma or_fits_its_right_operand :
  ¬ leaves_operands_unfitted Z.mul promote float64 select_cols
      PlaytimePipeline__or__ A B X0 st0.
Proof.
  intros H.
  assert (Hin : 3 ∈ est_ids A ++ est_ids B).
  { apply (bool_decide_unpack _). vm_compute. reflexivity. }
  specialize (H _ _ eq_refl 3 Hin). vm_compute in H. discriminate.
Qed.

Lemma chain_fit_spares_operands_witness :
  ∃ c st1,
    (do ab <- PlaytimePipeline__add__ A B;
     PlaytimePipeline__or__ ab (Leaf 5 "onehotencoder" [0; 2])) st0
      = (Ok c, st1) ∧
    store st1 = store st0 ∧
    ∀ l, l < next_id st0 → l ∉ est_ids (Leaf 5 "onehotencoder" [0; 2]) →
         store (fit c X0 st1).2 !! l = store st0 !! l.
Proof.
  apply (chain_fit_spares_operands Z.mul promote float64 select_cols
           0 2 (Leaf 1 "selectcols" [0]) (Leaf 3 "selectcols" [1; 2])
           (Leaf 5 "onehotencoder" [0; 2]) X0 st0); reflexivity.
Defined.

Lemma or_clones_left_keeps_right_witness :
  ∃ c st1 chain,
    clone (Leaf 1 "selectcols" [0]) st0 = (Ok c, st1) ∧
    skeleton c = skeleton (Leaf 1 "selectcols" [0]) ∧
    (∀ l, l ∈ est_ids c → next_id st0 ≤ l) ∧
    PlaytimePipeline__or__ A B st0 =
      (Ok (PlaytimePipeline (S (next_id st1)) chain),
       State (S (S (next_id st1))) (store st0)) ∧
    (∃ n1 n2, chain = Pipeline (next_id st1) [(n1, c); (n2, B)]) ∧
    ∀ X s, fit chain X s = (do Xt <- fit_transform c X; fit B Xt) s.
Proof.
  apply (or_clones_left_keeps_right Z.mul promote float64 select_cols
           0 (Leaf 1 "selectcols" [0]) B st0).
  reflexivity.
Defined.

Lemma sum_layout_matches_list_layout_witness :
  layout_outcome
    (layout_of_sum Z.mul promote float64 select_cols A U C X0 st0).1 =
  layout_outcome
    (layout_of_list Z.mul promote float64 select_cols A U C X0 st0).1.
Proof.
  apply (sum_layout_matches_list_layout Z.mul promote float64 select_cols
           0 6 4 (Leaf 1 "selectcols" [0])
           (FeatureUnion 7 [("selectcols", Leaf 8 "selectcols" [1]);
                            ("onehotencoder", Leaf 9 "onehotencoder" [2])])
           (Leaf 5 "onehotencoder" [0; 2]) X0 st0).
  - reflexivity.
  - reflexivity.
  - apply (bool_decide_unpack _). vm_compute. reflexivity.
  - apply Forall_forall. apply (bool_decide_unpack _). vm_compute. reflexivity.
Defined.

(** ** Further instances *)

(** A product over one block, and one over two (of widths 1 and 2), each
    fitted on [X0]; what the union of the second makes of [X0]. *)
Definition single_union : est :=
  FeatureUnion 13 [("selectcols", Leaf 1 "selectcols" [0])].
Definition single_cross : est := CrossPolyPipeline 15 single_union.
Definition st_single : state := (fit single_cross X0 st0).2.

Definition pair_union : est :=
  FeatureUnion 13 [("selectcols", Leaf 1 "selectcols" [0]);
                   ("onehotencoder", Leaf 5 "onehotencoder" [0; 2])].
Definition pair_cross : est := CrossPolyPipeline 15 pair_union.
Definition st_pair : state := (fit pair_cross X0 st0).2.
Definition pair_out : mat :=
  Matrix Dense tt 3 [[1; 2; 3]; [1; 2; 3]; [7; 8; 9]]%Z.

(** The members of [union3], what each makes of [X0], and what [cross3]
    makes of it. *)
Definition members3 : list (string * est) :=
  [("selectcols-1", Leaf 1 "selectcols" [0]);
   ("selectcols-2", Leaf 3 "selectcols" [1; 2]);
   ("onehotencoder", Leaf 12 "onehotencoder" [0; 2])].
Definition outputs3 : list mat :=
  [Matrix Dense tt 3 [[1; 2; 3]]%Z;
   Matrix Dense tt 3 [[4; 5; 6]; [7; 8; 9]]%Z;
   Matrix Dense tt 3 [[1; 2; 3]; [7; 8; 9]]%Z].
Definition R3 : mat :=
  Matrix Dense tt 3
    [[4; 10; 18]; [7; 16; 27]; [28; 40; 54]; [49; 64; 81]]%Z.

(** Hyper-parameters for the factories, in the terms of [select_cols]: the
    columns are named a, b, c; an encoder keeps what it is given. *)
Definition column_index (c : string) : nat :=
  if String.eqb c "a" then 0 else if String.eqb c "b" then 1 else 2.
Definition FunctionTransformer_cols (f column : string) : list nat :=
  [column_index column].
Definition SplineTransformer_cols (n_knots : nat) : list nat := [0].
Definition SelectCols_cols (colnames : list string) : list nat :=
  column_index <$> colnames.
Definition OneHotEncoder_cols : list nat := [0; 1; 2].
Definition CountVectorizer_cols (kw : unit) : list nat := [0].

Lemma transform_before_fit_raises_witness :
  ∃ x, transform cross3 X0 st0 = (Raise x, st0) ∧
       (∀ X_tfm, (transform union3 X0 st0).1 = Ok X_tfm → x = AttributeError) ∧
       (∀ x', (transform union3 X0 st0).1 = Raise x' → x = x').
Proof.
  apply (transform_before_fit_raises Z.mul promote float64 select_cols
           15 union3 X0 st0).
  reflexivity.
Defined.

Lemma transform_needs_two_blocks_witness :
  transform single_cross X0 st_single = (Raise UnboundLocalError, st_single).
Proof.
  apply (transform_needs_two_blocks Z.mul promote float64 select_cols
           15 single_union X0 (Matrix Dense tt 3 [[1; 2; 3]]%Z) st_single
           [("selectcols", Slice 0 1)]).
  - vm_compute. reflexivity.
  - vm_compute. reflexivity.
  - simpl. lia.
Defined.

Lemma transform_two_blocks_all_pairs_witness :
  transform pair_cross X0 st_pair =
    (match block pair_out (Slice 1 3) with
     | [] => Raise ValueError
     | _ => Ok (Matrix (if issparse pair_out then Sparse CSC else Dense)
                       (dtype_of pair_out) (nrows pair_out)
                       (all_pairs_columns Z.mul pair_out
                          [Slice 0 1; Slice 1 3]))
     end, st_pair).
Proof.
  apply (transform_two_blocks_all_pairs Z.mul promote float64 select_cols
           15 pair_union X0 pair_out st_pair
           "selectcols" (Slice 0 1) "onehotencoder" (Slice 1 3)).
  - vm_compute. reflexivity.
  - vm_compute. reflexivity.
  - discriminate.
Defined.

Lemma product_column_index_witness :
  ∃ c, columns R3 !! (0 * length (block X_tfm3 (Slice 1 3)) + 1) = Some c ∧
       ∀ r x y, [7; 8; 9]%Z !! r = Some x → [1; 2; 3]%Z !! r = Some y →
                c !! r = Some (x * y)%Z.
Proof.
  apply (product_column_index Z.mul promote float64 select_cols
           15 union3 X0 X_tfm3 R3 st3 marks3
           [("selectcols-1", Slice 0 1)]
           "selectcols-2" (Slice 1 3) "onehotencoder" (Slice 3 5) 1 0).
  - vm_compute. reflexivity.
  - vm_compute. reflexivity.
  - reflexivity.
  - apply (bool_decide_unpack _). vm_compute. reflexivity.
  - vm_compute. reflexivity.
  - reflexivity.
  - reflexivity.
Defined.

Lemma fit_measures_first_two_rows_witness :
  ∃ sm, split_marks_ (attrs_of st3 15) = Some sm ∧
        ∀ name e, (name, e) ∈ members3 →
          ∃ P s, (transform e (head2 X0) st3).1 = Ok P ∧
                 dict_get sm name = Some s ∧
                 slice_width s = ncols P.
Proof.
  apply (fit_measures_first_two_rows Z.mul promote float64 select_cols
           15 union3 X0 (State 17 ∅) st3 members3).
  - vm_compute. reflexivity.
  - reflexivity.
  - apply (bool_decide_unpack _). vm_compute. reflexivity.
  - apply (bool_decide_unpack _). vm_compute. reflexivity.
Defined.

Lemma marks_select_member_outputs_witness :
  ∃ sm, split_marks_ (attrs_of st3 15) = Some sm ∧
        ∀ i name e Yt, members3 !! i = Some (name, e) →
                       outputs3 !! i = Some Yt →
          ∃ s, dict_get sm name = Some s ∧ block X_tfm3 s = columns Yt.
Proof.
  apply (marks_select_member_outputs Z.mul promote float64 select_cols
           15 13 members3 X0 X0 (State 17 ∅) st3 outputs3 X_tfm3).
  - vm_compute. reflexivity.
  - apply (bool_decide_unpack _). vm_compute. reflexivity.
  - apply (bool_decide_unpack _). vm_compute. reflexivity.
  - repeat constructor; try (vm_compute; reflexivity);
      intros P HP; vm_compute in HP; injection HP as <-; reflexivity.
  - vm_compute. reflexivity.
Defined.

Lemma product_of_member_outputs_witness :
  ∃ R, transform cross3 X0 st3 = (Ok R, st3) ∧
       columns R =
         pair_columns Z.mul [[4; 5; 6]; [7; 8; 9]]%Z [[1; 2; 3]; [7; 8; 9]]%Z ∧
       ncols R = 2 * 2.
Proof.
  apply (product_of_member_outputs Z.mul promote float64 select_cols
           15 13 members3 X0 X0 (State 17 ∅) st3
           [("selectcols-1", Leaf 1 "selectcols" [0])]
           "selectcols-2" (Leaf 3 "selectcols" [1; 2])
           "onehotencoder" (Leaf 12 "onehotencoder" [0; 2])
           [Matrix Dense tt 3 [[1; 2; 3]]%Z]
           (Matrix Dense tt 3 [[4; 5; 6]; [7; 8; 9]]%Z)
           (Matrix Dense tt 3 [[1; 2; 3]; [7; 8; 9]]%Z)).
  - reflexivity.
  - vm_compute. reflexivity.
  - apply (bool_decide_unpack _). vm_compute. reflexivity.
  - apply (bool_decide_unpack _). vm_compute. reflexivity.
  - repeat constructor; try (vm_compute; reflexivity);
      intros P HP; vm_compute in HP; injection HP as <-; reflexivity.
  - reflexivity.
  - unfold ncols. simpl. lia.
Defined.

Lemma product_of_two_transformers_witness :
  ∃ R st',
    (do p <- PlaytimePipeline__mul__ A C; fit p X0 ;; transform p X0) st0 =
      (Ok R, st') ∧
    columns R =
      pair_columns Z.mul (columns (select_cols "selectcols" [0] X0 X0))
                   (columns (select_cols "onehotencoder" [0; 2] X0 X0)) ∧
    ncols R = ncols (select_cols "selectcols" [0] X0 X0) *
              ncols (select_cols "onehotencoder" [0; 2] X0 X0).
Proof.
  apply (product_of_two_transformers Z.mul promote float64 select_cols
           0 4 1 5 "selectcols" "onehotencoder" [0] [0; 2] X0 X0 st0).
  - simpl. lia.
  - simpl. lia.
  - reflexivity.
  - reflexivity.
  - reflexivity.
  - unfold ncols. simpl. lia.
Defined.

Lemma fit_forgets_earlier_fits_witness :
  (fit cross3 X0 (State 17 ∅)).1 = (fit cross3 X0 st3).1 ∧
  ((fit cross3 X0 (State 17 ∅)).1 = Ok tt →
   ∀ Y, (transform cross3 Y (fit cross3 X0 (State 17 ∅)).2).1 =
        (transform cross3 Y (fit cross3 X0 st3).2).1).
Proof.
  apply (fit_forgets_earlier_fits Z.mul promote float64 select_cols
           cross3 X0 (State 17 ∅) st3).
  apply (bool_decide_unpack _). vm_compute. reflexivity.
Defined.

Lemma or_copy_computes_like_original_witness :
  ∃ lw lp n1 c n2 st1,
    PlaytimePipeline__or__ A B st0 =
      (Ok (PlaytimePipeline lw (Pipeline lp [(n1, c); (n2, B)])), st1) ∧
    ∀ X s s',
      (fit_transform c X s).1 =
        (fit_transform (Leaf 1 "selectcols" [0]) X s').1 ∧
      (fit c X s).1 = (fit (Leaf 1 "selectcols" [0]) X s').1 ∧
      ((fit c X s).1 = Ok tt →
       ∀ Y, (transform c Y (fit c X s).2).1 =
            (transform (Leaf 1 "selectcols" [0]) Y
               (fit (Leaf 1 "selectcols" [0]) X s').2).1).
Proof.
  apply (or_copy_computes_like_original Z.mul promote float64 select_cols
           0 (Leaf 1 "selectcols" [0]) B st0).
  - reflexivity.
  - apply (bool_decide_unpack _). vm_compute. reflexivity.
Defined.

Lemma add_groups_to_the_left_witness :
  (∃ lw lu tl c st1,
     (do ab <- PlaytimePipeline__add__ A B;
      PlaytimePipeline__add__ ab C) st0 =
       (Ok (PlaytimePipeline lw (FeatureUnion lu tl)), st1) ∧
     tl.*2 = [Leaf 1 "selectcols" [0]; Leaf 3 "selectcols" [1; 2]; c] ∧
     skeleton c = skeleton (Leaf 5 "onehotencoder" [0; 2])) ∧
  (∃ lw lu tl lu' tl' st1,
     (do bc <- PlaytimePipeline__add__ B C;
      PlaytimePipeline__add__ A bc) st0 =
       (Ok (PlaytimePipeline lw (FeatureUnion lu tl)), st1) ∧
     tl.*2 = [Leaf 1 "selectcols" [0]; FeatureUnion lu' tl'] ∧
     tl'.*2 = [Leaf 3 "selectcols" [1; 2]; Leaf 5 "onehotencoder" [0; 2]]).
Proof.
  apply (add_groups_to_the_left (elt := Z) (dtype := unit) 0 2 4
           (Leaf 1 "selectcols" [0]) (Leaf 3 "selectcols" [1; 2])
           (Leaf 5 "onehotencoder" [0; 2]) st0); reflexivity.
Defined.

Lemma mul_chain_nests_witness :
  ∃ lw lc lu tl lc' lu' tl' st1,
    (do ab <- PlaytimePipeline__mul__ A B;
     PlaytimePipeline__mul__ ab C) st0 =
      (Ok (PlaytimePipeline lw
             (CrossPolyPipeline lc (FeatureUnion lu tl))), st1) ∧
    tl.*2 = [CrossPolyPipeline lc' (FeatureUnion lu' tl');
             Leaf 5 "onehotencoder" [0; 2]] ∧
    tl'.*2 = [Leaf 1 "selectcols" [0]; Leaf 3 "selectcols" [1; 2]].
Proof.
  apply (mul_chain_nests (elt := Z) (dtype := unit) 0 2 4
           (Leaf 1 "selectcols" [0]) (Leaf 3 "selectcols" [1; 2])
           (Leaf 5 "onehotencoder" [0; 2]) st0).
  reflexivity.
Defined.

Lemma or_chain_keeps_last_only_witness :
  ∃ r st1,
    (do ab <- PlaytimePipeline__or__ A B;
     PlaytimePipeline__or__ ab C) st0 = (Ok r, st1) ∧
    store st1 = store st0 ∧
    ∀ l, l < next_id st0 → l ∉ est_ids C →
         store (fit r X0 st1).2 !! l = store st0 !! l.
Proof.
  apply (or_chain_keeps_last_only Z.mul promote float64 select_cols
           0 (Leaf 1 "selectcols" [0]) B C X0 st0); reflexivity.
Defined.

Lemma product_of_two_factory_values_witness :
  ∃ R st',
    (do a <- call FunctionTransformer_cols SplineTransformer_cols
               SelectCols_cols OneHotEncoder_cols CountVectorizer_cols
               (Onehot ["a"]);
     do b <- call FunctionTransformer_cols SplineTransformer_cols
               SelectCols_cols OneHotEncoder_cols CountVectorizer_cols
               (Feats ["b"; "c"]);
     do p <- PlaytimePipeline__mul__ a b;
     fit p X0 ;; transform p X0) st0 = (Ok R, st') ∧
    columns R =
      pair_columns Z.mul
        (columns (chain_output select_cols
                    [("selectcols", [0]); ("onehotencoder", [0; 1; 2])]
                    X0 X0))
        (columns (chain_output select_cols [("selectcols", [1; 2])] X0 X0)) ∧
    ncols R =
      ncols (chain_output select_cols
               [("selectcols", [0]); ("onehotencoder", [0; 1; 2])] X0 X0) *
      ncols (chain_output select_cols [("selectcols", [1; 2])] X0 X0).
Proof.
  apply (product_of_two_factory_values Z.mul promote float64 select_cols
           FunctionTransformer_cols SplineTransformer_cols SelectCols_cols
           OneHotEncoder_cols CountVectorizer_cols
           (Onehot ["a"]) (Feats ["b"; "c"]) X0 X0 st0).
  - reflexivity.
  - reflexivity.
  - reflexivity.
  - unfold ncols. simpl. lia.
Defined.

Lemma chain_leaves_left_operand_unfitted_witness :
  ∃ a ab st1,
    (do a <- call FunctionTransformer_cols SplineTransformer_cols
               SelectCols_cols OneHotEncoder_cols CountVectorizer_cols
               (Feats ["a"]);
     do ab <- PlaytimePipeline__or__ a B;
     ret (a, ab)) st0 = (Ok (a, ab), st1) ∧
    (transform a X0 (fit ab X0 st1).2).1 = Raise NotFittedError.
Proof.
  apply (chain_leaves_left_operand_unfitted Z.mul promote float64 select_cols
           FunctionTransformer_cols SplineTransformer_cols SelectCols_cols
           OneHotEncoder_cols CountVectorizer_cols
           (Feats ["a"]) B X0 X0 st0).
  - intros l _. apply lookup_empty.
  - intros l Hl. simpl in Hl.
    repeat (apply elem_of_cons in Hl as [->|Hl]; [simpl; lia|]).
    by apply elem_of_nil in Hl.
Defined.

Lemma fit_transform_is_fit_then_transform_witness :
  fit_transform product3 X0 (State 17 ∅) = (Ok R3, st3) ↔
  fit product3 X0 (State 17 ∅) = (Ok tt, st3) ∧
  transform product3 X0 st3 = (Ok R3, st3).
Proof.
  apply (fit_transform_is_fit_then_transform Z.mul promote float64 select_cols
           product3 X0 (State 17 ∅) st3 R3).
  apply (bool_decide_unpack _). vm_compute. reflexivity.
Defined.


Lemma add_and_mul_need_pipeline_values_witness :
  PlaytimePipeline__add__ A (Leaf 5 "onehotencoder" [0; 2]) st0 =
    (Raise AttributeError, st0) ∧
  PlaytimePipeline__mul__ A (Leaf 5 "onehotencoder" [0; 2]) st0 =
    (Raise AttributeError, st0) ∧
  (constructible (Leaf 1 "selectcols" [0]) = true →
   ∃ lw lp n1 c n2 st1,
     PlaytimePipeline__or__ A (Leaf 5 "onehotencoder" [0; 2]) st0 =
       (Ok (PlaytimePipeline lw
              (Pipeline lp [(n1, c); (n2, Leaf 5 "onehotencoder" [0; 2])])),
        st1)).
Proof.
  apply (add_and_mul_need_pipeline_values (elt := Z) (dtype := unit)
           0 (Leaf 1 "selectcols" [0]) (Leaf 5 "onehotencoder" [0; 2]) st0).
  reflexivity.
Defined.
